(** * Sudoku as exact cover, solved with Algorithm X

    A shallow embedding of [sudoku_para.py]: construction of the cover
    matrix, the active row/column bookkeeping, the fewest-candidates column
    heuristic, the recursive backtracking search, the reconstruction of
    the completed grid and of the step-by-step action log, and the printing
    of the grid after every step of the log. *)

From Stdlib Require Import ZArith Lia String.
From stdpp Require Import base tactics option list sorting numbers strings pretty.

Open Scope Z_scope.

(** ** Results of running Python code *)

(** The exceptions the modelled code can raise; [AssertionError] is raised
    only by the variants of the search that check their arguments. *)
Inductive exn := IndexError | ZeroDivisionError | ValueError | AssertionError.

(** A computation returns a value, raises, or (for the fuel-indexed model of
    the recursion only) exhausts its fuel. *)
Inductive outcome (A : Type) : Type :=
| Ret (a : A)
| Raise (e : exn)
| OutOfFuel.
Arguments Ret {A} a.
Arguments Raise {A} e.
Arguments OutOfFuel {A}.

#[global] Instance outcome_ret : MRet outcome := @Ret.
#[global] Instance outcome_bind : MBind outcome := λ A B f m,
  match m with
  | Ret a => f a
  | Raise e => Raise e
  | OutOfFuel => OutOfFuel
  end.

(** [for x in l: s = f s x], with early exit on an exception. *)
Fixpoint foldM {A St : Type} (f : St → A → outcome St) (s : St) (l : list A)
  : outcome St :=
  match l with
  | [] => Ret s
  | x :: l => s' ← f s x; foldM f s' l
  end.

(** [[f x for x in l]], with early exit on an exception. *)
Fixpoint traverse {A B : Type} (f : A → outcome B) (l : list A)
  : outcome (list B) :=
  match l with
  | [] => Ret []
  | x :: l => y ← f x; ys ← traverse f l; Ret (y :: ys)
  end.

(** What [solve] hands back: [True], [False], or [None] when the candidate
    loop falls off the end of the function. *)
Inductive pyresult := PyTrue | PyFalse | PyNone.

Definition truthy (r : pyresult) : bool :=
  match r with PyTrue => true | _ => false end.

(** ** Arrays *)

(** A 2-d integer array is the list of its rows. *)
Abbreviation matrix := (list (list Z)).

(** A possibility [(row, col, n)]: place digit [n] at [(row, col)]. *)
Abbreviation possibility := (nat * nat * Z)%type.

(** One step of the action log: [("ins" | "rem", row, col, n)]. *)
Abbreviation step := (string * nat * nat * Z)%type.

Definition shape0 (m : matrix) : nat := length m.

(** Number of columns.  A matrix without rows is taken to have no columns;
    the cover matrix built from a grid has no rows only when it has no
    columns either. *)
Definition shape1 (m : matrix) : nat :=
  match m with
  | [] => 0%nat
  | r :: _ => length r
  end.

(** [l[i]] for a non-negative index. *)
Definition getitem {A : Type} (l : list A) (i : nat) : outcome A :=
  match l !! i with
  | Some x => Ret x
  | None => Raise IndexError
  end.

(** [m[r, c]] for non-negative indices. *)
Definition getitem2 (m : matrix) (r c : nat) : outcome Z :=
  row ← getitem m r; getitem row c.

(** numpy's normalisation of an integer index against an axis of length [n]:
    negative indices count from the end. *)
Definition norm_index (n : nat) (i : Z) : outcome nat :=
  if decide (0 ≤ i < Z.of_nat n) then Ret (Z.to_nat i)
  else if decide (- Z.of_nat n ≤ i < 0) then Ret (Z.to_nat (Z.of_nat n + i))
  else Raise IndexError.

(** [m[r, c] = v] for an integer column index. *)
Definition setitem2 (m : matrix) (r : nat) (c : Z) (v : Z) : outcome matrix :=
  row ← getitem m r;
  j ← norm_index (length row) c;
  Ret (<[r := <[j := v]> row]> m).

(** [a // b] on Python integers. *)
Definition floordiv (a b : Z) : outcome Z :=
  if decide (b = 0) then Raise ZeroDivisionError else Ret (a `div` b).

(** [np.count_nonzero]. *)
Definition count_nonzero (m : matrix) : nat :=
  length (filter (λ v, v ≠ 0) (mjoin m)).

(** [np.zeros((n, k))]; a negative dimension is a [ValueError]. *)
Definition np_zeros (n k : Z) : outcome matrix :=
  if decide (n < 0 ∨ k < 0) then Raise ValueError
  else Ret (replicate (Z.to_nat n) (replicate (Z.to_nat k) 0)).

Definition zeros_like (m : matrix) : matrix := (fmap (M:=list) (λ _, 0)) <$> m.

(** [range(a, b)]. *)
Definition range (a b : Z) : list Z :=
  (λ k, a + Z.of_nat k) <$> (seq 0 (Z.to_nat (b - a))).

(** [a[idx]] for an index array [idx] of non-negative integers. *)
Definition take_idx {A : Type} (l : list A) (idx : list nat) : outcome (list A) :=
  traverse (getitem l) idx.

(** Positions of the non-zero entries of a vector, counted from [i]. *)
Fixpoint nonzero_from (i : nat) (l : list Z) : list nat :=
  match l with
  | [] => []
  | v :: l => if decide (v ≠ 0) then i :: nonzero_from (S i) l
              else nonzero_from (S i) l
  end.

(** [np.flatnonzero(v)], also [np.nonzero(v)[0]] for a vector. *)
Definition flatnonzero (l : list Z) : list nat := nonzero_from 0 l.

(** [np.nonzero(m)[0]] for a matrix: the row index of every non-zero entry,
    in row-major order. *)
Fixpoint nonzero_rows_from (i : nat) (m : matrix) : list nat :=
  match m with
  | [] => []
  | r :: m => replicate (length (flatnonzero r)) i ++ nonzero_rows_from (S i) m
  end.

Definition nonzero_rows (m : matrix) : list nat := nonzero_rows_from 0 m.

(** [np.unique]: the sorted distinct elements. *)
Definition np_unique (l : list nat) : list nat :=
  merge_sort Nat.le (remove_dups l).

(** [np.setdiff1d(a, b)]: the sorted distinct elements of [a] not in [b]. *)
Definition setdiff1d (a b : list nat) : list nat :=
  filter (λ x, x ∉ np_unique b) (np_unique a).

(** [cover[rows, :]]. *)
Definition take_rows (m : matrix) (rows : list nat) : outcome matrix :=
  take_idx m rows.

(** [sum(axis=0)] of a matrix with [k] columns. *)
Definition sum_axis0 (k : nat) (m : matrix) : list Z :=
  foldr (zip_with Z.add) (replicate k 0) m.

(** Smallest element of a non-empty vector. *)
Definition list_min (x : Z) (l : list Z) : Z := foldl Z.min x l.

(** Position of the first occurrence of [x]. *)
Fixpoint index_of (x : Z) (l : list Z) : nat :=
  match l with
  | [] => 0%nat
  | y :: l => if decide (y = x) then 0%nat else S (index_of x l)
  end.

(** [argmin]: position of the first occurrence of the minimum. *)
Definition argmin (l : list Z) : outcome nat :=
  match l with
  | [] => Raise ValueError
  | x :: l' => Ret (index_of (list_min x l') l)
  end.

(** ** Building the cover matrix *)

Definition add_possibility (possibility : possibility) (cover : matrix)
    (cover_row : nat) (grid_width block_width : Z) : outcome matrix :=
  let '(row, col, n) := possibility in
  let row := Z.of_nat row in
  let col := Z.of_nat col in
  cover ← setitem2 cover cover_row (row * grid_width + col) 1;
  cover ← setitem2 cover cover_row
            (grid_width * grid_width + row * grid_width + n - 1) 1;
  cover ← setitem2 cover cover_row
            (2 * grid_width * grid_width + col * grid_width + n - 1) 1;
  q ← floordiv row block_width;
  rb ← floordiv (q * grid_width) block_width;
  cb ← floordiv col block_width;
  let block_idx := rb + cb in
  setitem2 cover cover_row
    (3 * grid_width * grid_width + block_idx * grid_width + n - 1) 1.

(** The body of the two nested loops of [create_cover], for one cell. *)
Definition create_cover_cell (sudoku : matrix) (grid_width block_width : Z)
    (row : nat) (st : matrix * list possibility) (col : nat)
  : outcome (matrix * list possibility) :=
  let '(cover, possibilities) := st in
  v ← getitem2 sudoku row col;
  if decide (v ≠ 0) then
    let possibility := (row, col, v) in
    cover ← add_possibility possibility cover (length possibilities)
              grid_width block_width;
    Ret (cover, possibilities ++ [possibility])
  else
    foldM (λ '(cover, possibilities) n,
             let possibility := (row, col, n) in
             cover ← add_possibility possibility cover (length possibilities)
                       grid_width block_width;
             Ret (cover, possibilities ++ [possibility]))
          (cover, possibilities) (range 1 (grid_width + 1)).

Definition create_cover (sudoku : matrix) (grid_width block_width : Z)
  : outcome (matrix * list possibility) :=
  let g_len := shape0 sudoku in
  let n_non_zeros := Z.of_nat (count_nonzero sudoku) in
  let n_possibilities :=
    (Z.of_nat g_len * Z.of_nat g_len - n_non_zeros) * Z.of_nat g_len
    + n_non_zeros in
  let n_constrains := 4 * Z.of_nat g_len * Z.of_nat g_len in
  cover ← np_zeros n_possibilities n_constrains;
  foldM (λ st row,
           foldM (create_cover_cell sudoku grid_width block_width row)
                 st (seq 0 g_len))
        (cover, []) (seq 0 g_len).

(** ** Active sets and the column heuristic *)

Definition col_counts (cover : matrix) (active_rows : list nat)
  : outcome (list Z) :=
  sub ← take_rows cover active_rows;
  Ret (sum_axis0 (shape1 cover) sub).

(** On the device array an index outside the array is not reported; the
    model raises as the host array does, and every property of [min_col]
    below is stated for indices inside the matrix. *)
Definition min_col (cover : matrix) (active_rows active_cols : list nat)
  : outcome (nat * Z) :=
  counts ← col_counts cover active_rows;
  sub ← take_idx counts active_cols;
  i ← argmin sub;
  argmin ← getitem active_cols i;
  count ← getitem counts argmin;
  Ret (argmin, count).

(** [np.array] of an empty list is an array of floats, which numpy refuses
    as an index: [select] raises when one of its two lists is empty. *)
Definition select (row : nat) (cover : matrix) (active_rows active_cols : list nat)
  : outcome (list nat * list nat) :=
  if decide (active_cols = []) then Raise IndexError else
  vals ← traverse (getitem2 cover row) active_cols;
  columns_to_remove ← take_idx active_cols (flatnonzero vals);
  if decide (active_rows = []) then Raise IndexError else
  sub ← traverse (λ r, traverse (getitem2 cover r) columns_to_remove)
          active_rows;
  rows_to_remove ← take_idx active_rows (np_unique (nonzero_rows sub));
  Ret (rows_to_remove, columns_to_remove).

(** [deselect] extends the two lists it is given in place; the frame's lists
    after the call are returned. *)
Definition deselect (removed_rows removed_cols active_rows active_cols : list nat)
  : list nat * list nat :=
  (active_rows ++ removed_rows, active_cols ++ removed_cols).

(** [solution.pop()]. *)
Definition pop (l : list nat) : outcome (list nat) :=
  match l with
  | [] => Raise IndexError
  | _ => Ret (removelast l)
  end.

(** ** The search *)

(** State of one frame of [solve] between two iterations of its loop: the
    frame's own [active_rows] and [active_cols], and the two lists shared by
    all frames. *)
Abbreviation frame := (list nat * list nat * list nat * list (Z * nat))%type.

Abbreviation solve_fn :=
  (list nat → list nat → list nat → list (Z * nat)
   → outcome (pyresult * list nat * list (Z * nat))).

(** The loop over the candidate rows; [rec] is the recursive call. *)
Fixpoint solve_loop (rec : solve_fn) (cover_cpu : matrix)
    (candidate_rows : list nat) (st : frame)
  : outcome (pyresult * list nat * list (Z * nat)) :=
  let '(active_rows, active_cols, solution, solution_path) := st in
  match candidate_rows with
  | [] => Ret (PyNone, solution, solution_path)
  | row :: candidate_rows =>
      let solution := solution ++ [row] in
      let solution_path := solution_path ++ [(1, row)] in
      '(rows_to_remove, cols_to_remove) ←
        select row cover_cpu active_rows active_cols;
      let active_rows := setdiff1d active_rows rows_to_remove in
      let active_cols := setdiff1d active_cols cols_to_remove in
      '(solved, solution, solution_path) ←
        rec active_rows active_cols solution solution_path;
      if truthy solved then Ret (PyTrue, solution, solution_path)
      else
        solution ← pop solution;
        let solution_path := solution_path ++ [(0, row)] in
        let '(active_rows, active_cols) :=
          deselect rows_to_remove cols_to_remove active_rows active_cols in
        solve_loop rec cover_cpu candidate_rows
          (active_rows, active_cols, solution, solution_path)
  end.

(** One invocation of [solve], with [rec] for the recursive calls. *)
Definition solve_body (rec : solve_fn) (cover_gpu cover_cpu : matrix)
    (active_rows active_cols solution : list nat)
    (solution_path : list (Z * nat))
  : outcome (pyresult * list nat * list (Z * nat)) :=
  if decide (length active_cols = 0%nat) then
    Ret (PyTrue, solution, solution_path)
  else
    '(col, count) ← min_col cover_gpu active_rows active_cols;
    if decide (count = 0) then Ret (PyFalse, solution, solution_path)
    else
      vals ← traverse (λ r, getitem2 cover_cpu r col) active_rows;
      candidate_rows ← take_idx active_rows (flatnonzero vals);
      solve_loop rec cover_cpu candidate_rows
        (active_rows, active_cols, solution, solution_path).

(** [solve], with the depth of the recursion bounded by [fuel]. *)
Fixpoint solve (fuel : nat) (cover_gpu cover_cpu : matrix)
    (active_rows active_cols solution : list nat)
    (solution_path : list (Z * nat))
  : outcome (pyresult * list nat * list (Z * nat)) :=
  match fuel with
  | O => OutOfFuel
  | S fuel =>
      solve_body (solve fuel cover_gpu cover_cpu) cover_gpu cover_cpu
        active_rows active_cols solution solution_path
  end.

(** ** Building the answer *)

Definition build_solving_path (possibilities : list possibility)
    (solution_path : list (Z * nat)) : outcome (list step) :=
  foldM (λ sudoku_solution_path '(action, cover_row),
           '(row, col, n) ← getitem possibilities cover_row;
           if decide (action = 1) then
             Ret (sudoku_solution_path ++ [("ins"%string, row, col, n)])
           else
             Ret (sudoku_solution_path ++ [("rem"%string, row, col, n)]))
        [] solution_path.

Definition build_final_sudoku (possibilities : list possibility)
    (solution : list nat) (sudoku : matrix) : outcome matrix :=
  foldM (λ final sol,
           '(row, col, n) ← getitem possibilities sol;
           setitem2 final row (Z.of_nat col) n)
        (zeros_like sudoku) solution.

(** [solve_sudoku]; the two timer readings are not modelled, the elapsed
    time is a parameter. *)
Definition solve_sudoku {T : Type} (solving_time : T) (fuel : nat)
    (sudoku : matrix) (grid_width block_width : Z)
  : outcome (option matrix * T * option (list step)) :=
  '(cover, possibilities) ← create_cover sudoku grid_width block_width;
  '(solved, solution, solution_path) ←
    solve fuel cover cover (seq 0 (shape0 cover)) (seq 0 (shape1 cover)) [] [];
  if truthy solved then
    completed_sudoku ← build_final_sudoku possibilities solution sudoku;
    sudoku_solution_path ← build_solving_path possibilities solution_path;
    Ret (Some completed_sudoku, solving_time, Some sudoku_solution_path)
  else Ret (None, solving_time, None).

(** The consumer's loop in [main]: apply the action log to a grid. *)
Definition replay (path : list step) (sudoku : matrix) : outcome matrix :=
  foldM (λ sudoku '(action, row, col, n),
           if decide (action = "ins"%string) then
             setitem2 sudoku row (Z.of_nat col) n
           else setitem2 sudoku row (Z.of_nat col) 0)
        sudoku path.

(** ** Vocabulary of the properties *)

(** The entry [m[r, c]], zero outside the matrix. *)
Definition entry (m : matrix) (r c : nat) : Z :=
  default 0 (row ← m !! r; row !! c).

(** Row [r] has a non-zero entry in column [c], which is what [nonzero]
    looks for. *)
Definition covers (m : matrix) (r c : nat) : Prop := entry m r c ≠ 0.

#[global] Instance covers_dec m r c : Decision (covers m r c).
Proof. unfold covers. apply _. Defined.

(** All rows have the length that [shape1] reports. *)
Definition rect (m : matrix) : Prop := Forall (λ r, length r = shape1 m) m.

(** A 0/1 matrix. *)
Definition binary (m : matrix) : Prop :=
  Forall (Forall (λ v, v = 0 ∨ v = 1)) m.

(** Index lists that stay inside the matrix. *)
Definition rows_ok (m : matrix) (rows : list nat) : Prop :=
  Forall (λ r, (r < shape0 m)%nat) rows.
Definition cols_ok (m : matrix) (cols : list nat) : Prop :=
  Forall (λ c, (c < shape1 m)%nat) cols.

(** Strictly ascending lists. *)
Definition ascending (l : list nat) : Prop := Sorted lt l.

(** 1 for a vector that holds a non-zero entry, 0 for the others. *)
Definition live (r : list Z) : Z := if decide (flatnonzero r = []) then 0 else 1.

(** ** The search, retold on sets *)

(** The active columns claimed by [row], and the active rows in conflict
    with a set of columns. *)
Definition cols_of (m : matrix) (row : nat) (cols : list nat) : list nat :=
  filter (covers m row) cols.
Definition rows_hit (m : matrix) (rows cs : list nat) : list nat :=
  filter (λ r, Exists (covers m r) cs) rows.

(** The active sets handed to the recursive call after selecting [row]. *)
Definition rows_after (m : matrix) (rows cols : list nat) (row : nat) : list nat :=
  setdiff1d rows (rows_hit m rows (cols_of m row cols)).
Definition cols_after (m : matrix) (cols : list nat) (row : nat) : list nat :=
  setdiff1d cols (cols_of m row cols).

(** Two lists with the same elements. *)
Definition same {A} (l k : list A) : Prop := ∀ x, x ∈ l ↔ x ∈ k.

(** The candidate loop, with the frame's lists replaced by what every
    iteration computes from them. *)
Fixpoint candidates_loop (rec : solve_fn) (m : matrix) (rows cols : list nat)
    (candidate_rows : list nat) (solution : list nat)
    (solution_path : list (Z * nat))
  : outcome (pyresult * list nat * list (Z * nat)) :=
  match candidate_rows with
  | [] => Ret (PyNone, solution, solution_path)
  | row :: candidate_rows =>
      '(solved, solution, solution_path) ←
        rec (rows_after m rows cols row) (cols_after m cols row)
            (solution ++ [row]) (solution_path ++ [(1, row)]);
      if truthy solved then Ret (PyTrue, solution, solution_path)
      else
        solution ← pop solution;
        candidates_loop rec m rows cols candidate_rows solution
          (solution_path ++ [(0, row)])
  end.

(** Sum of column [c] over the given rows; on a 0/1 matrix, the number of
    rows with a 1 in it. *)
Definition col_count (m : matrix) (rows : list nat) (c : nat) : Z :=
  foldr (λ r acc, entry m r c + acc) 0 rows.

(** ** The search as a relation

    [run m Entry rows cols res T Q]: an invocation of [solve] on the active
    sets [rows] and [cols] returns [res], leaves the rows [T] pushed on the
    solution and appends the events [Q] to the path.
    [run m (Cands l) rows cols res T Q]: the same for the loop of that
    invocation over the remaining candidates [l]. *)
Inductive mode := Entry | Cands (l : list nat).

Inductive run (m : matrix)
  : mode → list nat → list nat → pyresult → list nat → list (Z * nat) → Prop :=
| run_done rows :
    run m Entry rows [] PyTrue [] []
| run_dead rows cols col :
    cols ≠ [] → min_col m rows cols = Ret (col, 0) →
    run m Entry rows cols PyFalse [] []
| run_branch rows cols col count res T Q :
    cols ≠ [] → min_col m rows cols = Ret (col, count) → count ≠ 0 →
    run m (Cands (filter (λ r, covers m r col) rows)) rows cols res T Q →
    run m Entry rows cols res T Q
| run_nil rows cols :
    run m (Cands []) rows cols PyNone [] []
| run_hit rows cols row cands T Q :
    run m Entry (rows_after m rows cols row) (cols_after m cols row)
        PyTrue T Q →
    run m (Cands (row :: cands)) rows cols PyTrue (row :: T) ((1, row) :: Q)
| run_miss rows cols row cands res0 Q res T' Q' :
    truthy res0 = false →
    run m Entry (rows_after m rows cols row) (cols_after m cols row)
        res0 [] Q →
    run m (Cands cands) rows cols res T' Q' →
    run m (Cands (row :: cands)) rows cols res T'
        ((1, row) :: Q ++ (0, row) :: Q').

(** Every candidate claims an active column. *)
Definition claiming (m : matrix) (cols cands : list nat) : Prop :=
  Forall (λ r, ∃ c, c ∈ cols ∧ covers m r c) cands.

(** Row [r] has a 1 in column [c]. *)
Definition has_one (m : matrix) (r c : nat) : Prop := entry m r c = 1.

#[global] Instance has_one_dec m r c : Decision (has_one m r c).
Proof. unfold has_one. apply _. Defined.

(** Number of the given rows with a 1 in column [c]. *)
Definition ones_in (m : matrix) (rows : list nat) (c : nat) : nat :=
  length (filter (λ r, has_one m r c) rows).

(** ** Variants of the search that check their arguments *)

(** [rec], with a check of its active sets at entry. *)
Definition guard (P : list nat → list nat → Prop)
    `{∀ rows cols, Decision (P rows cols)} (rec : solve_fn) : solve_fn :=
  λ rows cols s p,
    if decide (P rows cols) then rec rows cols s p else Raise AssertionError.

(** [solve] with a check of the active sets at the entry of every
    invocation. *)
Fixpoint solve_asserting (P : list nat → list nat → Prop)
    `{∀ rows cols, Decision (P rows cols)} (fuel : nat)
    (cover_gpu cover_cpu : matrix) (active_rows active_cols solution : list nat)
    (solution_path : list (Z * nat))
  : outcome (pyresult * list nat * list (Z * nat)) :=
  match fuel with
  | O => OutOfFuel
  | S fuel =>
      if decide (P active_rows active_cols) then
        solve_body (solve_asserting P fuel cover_gpu cover_cpu)
          cover_gpu cover_cpu active_rows active_cols solution solution_path
      else Raise AssertionError
  end.

(** The second list has every element of the first and is longer. *)
Definition shrunk (cols' cols : list nat) : Prop :=
  cols' ⊆ cols ∧ (length cols' < length cols)%nat.

#[global] Instance shrunk_dec cols' cols : Decision (shrunk cols' cols).
Proof. unfold shrunk. apply _. Defined.

Definition both_ascending (rows cols : list nat) : Prop :=
  ascending rows ∧ ascending cols.

#[global] Instance both_ascending_dec rows cols :
  Decision (both_ascending rows cols).
Proof. unfold both_ascending, ascending. apply _. Defined.

#[global] Instance ascending_dec l : Decision (ascending l).
Proof. unfold ascending. apply _. Defined.
#[global] Instance rect_dec m : Decision (rect m).
Proof. unfold rect. apply _. Defined.
#[global] Instance binary_dec m : Decision (binary m).
Proof. unfold binary. apply _. Defined.
#[global] Instance rows_ok_dec m l : Decision (rows_ok m l).
Proof. unfold rows_ok. apply _. Defined.
#[global] Instance cols_ok_dec m l : Decision (cols_ok m l).
Proof. unfold cols_ok. apply _. Defined.

(** A small cover matrix, for examples. *)
Definition m3 : matrix := [[1;0;1];[0;1;0];[1;1;0]].

(** ** The cover matrix of a grid, as the specification words it *)

(** A well-formed puzzle: a [gw] by [gw] grid of cells in [0..gw], with
    [bw * bw = gw]. *)
Definition wf_sudoku (gw bw : nat) (sudoku : matrix) : Prop :=
  (bw * bw = gw)%nat ∧ length sudoku = gw
  ∧ Forall (λ row, length row = gw ∧ Forall (λ v, 0 ≤ v ≤ Z.of_nat gw) row)
      sudoku.

#[global] Instance wf_sudoku_dec gw bw sudoku : Decision (wf_sudoku gw bw sudoku).
Proof. unfold wf_sudoku. apply _. Defined.

Definition block_index (gw bw row col : Z) : Z :=
  (row `div` bw) * (gw `div` bw) + col `div` bw.

(** The four constraint columns of a possibility. *)
Definition spec_columns (gw bw : Z) (p : possibility) : list Z :=
  let '(row, col, n) := p in
  let row := Z.of_nat row in
  let col := Z.of_nat col in
  [ row * gw + col;
    gw * gw + row * gw + n - 1;
    2 * gw * gw + col * gw + n - 1;
    3 * gw * gw + block_index gw bw row col * gw + n - 1 ].

(** The possibilities of one cell: its digit if it is filled, the digits
    1 to [gw] in ascending order if it is empty. *)
Definition cell_possibilities (gw : Z) (row col : nat) (v : Z)
  : list possibility :=
  if decide (v ≠ 0) then [(row, col, v)]
  else (λ n, (row, col, n)) <$> seqZ 1 gw.

(** The possibilities of a grid, cell after cell in row-major order. *)
Definition spec_possibilities (gw : nat) (sudoku : matrix) : list possibility :=
  row ← seq 0 gw; col ← seq 0 gw;
  cell_possibilities (Z.of_nat gw) row col (entry sudoku row col).

(** The row of the cover matrix for a possibility: 1 in its four columns,
    0 elsewhere. *)
Definition cover_row (gw bw : Z) (p : possibility) : list Z :=
  (λ c, if decide (Z.of_nat c ∈ spec_columns gw bw p) then 1 else 0)
  <$> seq 0 (Z.to_nat (4 * gw * gw)).

(** A possibility inside the grid. *)
Definition valid_possibility (gw : nat) (p : possibility) : Prop :=
  let '(row, col, n) := p in
  (row < gw)%nat ∧ (col < gw)%nat ∧ 1 ≤ n ≤ Z.of_nat gw.

(** One iteration of the construction: add a possibility as the next row. *)
Definition add_step (gw bw : Z) (st : matrix * list possibility)
    (p : possibility) : outcome (matrix * list possibility) :=
  let '(cover, possibilities) := st in
  cover ← add_possibility p cover (length possibilities) gw bw;
  Ret (cover, possibilities ++ [p]).

(** Number of possibilities of a cell that holds [v]. *)
Definition weight (g : nat) (v : Z) : nat := if decide (v ≠ 0) then 1%nat else g.

(** A 4 by 4 puzzle, for examples. *)
Definition g4 : matrix := [[1;0;0;0];[0;0;3;0];[0;4;0;0];[0;0;0;2]].

(** ** Invariants of the search *)

(** The active rows only have 1s in active columns. *)
Definition closed (m : matrix) (rows cols : list nat) : Prop :=
  ∀ r c, r ∈ rows → covers m r c → c ∈ cols.

(** Two rows with no column in common. *)
Definition apart (m : matrix) (r r' : nat) : Prop :=
  ∀ c, covers m r c → ¬ covers m r' c.

(** The candidates of a mode. *)
Definition mode_rows (md : mode) (rows : list nat) : list nat :=
  match md with Entry => [] | Cands l => l end.

(** Every deselection of a row comes after a selection of it. *)
Definition opened (Q : list (Z * nat)) : Prop :=
  ∀ A r B, Q = A ++ (0, r) :: B → (1, r) ∈ A.

(** Every event is a selection (1) or a deselection (0). *)
Definition binary_events (Q : list (Z * nat)) : Prop :=
  Forall (λ e, e.1 = 0 ∨ e.1 = 1) Q.

(** ** Grids *)

(** [g[r, c] = v]. *)
Definition write (g : matrix) (w : nat * nat * Z) : outcome matrix :=
  let '(r, c, v) := w in setitem2 g r (Z.of_nat c) v.

(** The value that a sequence of writes leaves in cell [(r, c)], which held
    [d] before. *)
Definition last_write (r c : nat) (d : Z) (ws : list (nat * nat * Z)) : Z :=
  foldl (λ acc w, if decide (w.1.1 = r ∧ w.1.2 = c) then w.2 else acc) d ws.

(** An [n] by [n] grid. *)
Definition square (n : nat) (g : matrix) : Prop :=
  length g = n ∧ Forall (λ row, length row = n) g.

(** A write inside an [n] by [n] grid. *)
Definition in_grid (n : nat) (w : nat * nat * Z) : Prop :=
  (w.1.1 < n)%nat ∧ (w.1.2 < n)%nat.

(** The possibility of a cover row. *)
Definition poss_at (P : list possibility) (s : nat) : possibility :=
  default (0%nat, 0%nat, 0) (P !! s).

(** ** Valid grids *)

(** The cells of row [i], of column [i] and of block [i], blocks counted
    from left to right, top-down. *)
Definition row_cells (gw i : nat) : list (nat * nat) :=
  (λ c, (i, c)) <$> seq 0 gw.
Definition col_cells (gw i : nat) : list (nat * nat) :=
  (λ r, (r, i)) <$> seq 0 gw.
Definition block_cells (bw i : nat) : list (nat * nat) :=
  r ← seq (i / bw * bw) bw; c ← seq (i `mod` bw * bw) bw; [(r, c)].

(** The digits held by a list of cells. *)
Definition digits_at (g : matrix) (cells : list (nat * nat)) : list Z :=
  (λ rc, entry g rc.1 rc.2) <$> cells.

(** Number of occurrences of [d]. *)
Definition occurrences (d : Z) (l : list Z) : nat :=
  length (filter (λ v, v = d) l).

(** The three units with index [i] each hold the digit [d] exactly once. *)
Definition once_per_unit (gw bw : nat) (g : matrix) (i : nat) (d : Z) : Prop :=
  occurrences d (digits_at g (row_cells gw i)) = 1%nat
  ∧ occurrences d (digits_at g (col_cells gw i)) = 1%nat
  ∧ occurrences d (digits_at g (block_cells bw i)) = 1%nat.

(** A completed grid: every row, column and block holds every digit from 1
    to [gw] exactly once. *)
Definition valid_grid (gw bw : nat) (g : matrix) : Prop :=
  square gw g
  ∧ Forall (λ i, Forall (once_per_unit gw bw g i) (seqZ 1 (Z.of_nat gw)))
      (seq 0 gw).

(** [g] keeps the filled cells of [sudoku]. *)
Definition extends (gw : nat) (sudoku g : matrix) : Prop :=
  Forall (λ r, Forall (λ c, entry sudoku r c ≠ 0 →
                            entry g r c = entry sudoku r c) (seq 0 gw))
    (seq 0 gw).

#[global] Instance square_dec n g : Decision (square n g).
Proof. unfold square. apply _. Defined.
#[global] Instance once_per_unit_dec gw bw g i d :
  Decision (once_per_unit gw bw g i d).
Proof. unfold once_per_unit. apply _. Defined.
#[global] Instance valid_grid_dec gw bw g : Decision (valid_grid gw bw g).
Proof. unfold valid_grid. apply _. Defined.
#[global] Instance extends_dec gw sudoku g : Decision (extends gw sudoku g).
Proof. unfold extends. apply _. Defined.

(** Some unit holds some digit twice. *)
Definition has_duplicate (gw bw : nat) (sudoku : matrix) : Prop :=
  Exists (λ i, Exists (λ d,
      (2 ≤ occurrences d (digits_at sudoku (row_cells gw i)))%nat
      ∨ (2 ≤ occurrences d (digits_at sudoku (col_cells gw i)))%nat
      ∨ (2 ≤ occurrences d (digits_at sudoku (block_cells bw i)))%nat)
    (seqZ 1 (Z.of_nat gw))) (seq 0 gw).

#[global] Instance has_duplicate_dec gw bw sudoku :
  Decision (has_duplicate gw bw sudoku).
Proof. unfold has_duplicate. apply _. Defined.

(** The puzzle has a solution: a valid grid that keeps its filled cells. *)
Definition solvable (gw bw : nat) (sudoku : matrix) : Prop :=
  ∃ g, valid_grid gw bw g ∧ extends gw sudoku g.

(** The puzzle [g4] with a second 1 in its first row. *)
Definition g4dup : matrix := [[1;1;0;0];[0;0;3;0];[0;4;0;0];[0;0;0;2]].

(** ** The action log *)

(** Undoing the action log: the actions in reverse order, an insertion
    undone by emptying the cell and a removal by putting the digit back. *)
Definition unwind (path : list step) (sudoku : matrix) : outcome matrix :=
  foldM (λ sudoku '(action, row, col, n),
           if decide (action = "ins"%string) then
             setitem2 sudoku row (Z.of_nat col) 0
           else setitem2 sudoku row (Z.of_nat col) n)
        sudoku (reverse path).

(** The step of the action log for an event of the search. *)
Definition step_of (P : list possibility) (e : Z * nat) : step :=
  let '(row, col, n) := poss_at P e.2 in
  (if decide (e.1 = 1) then "ins"%string else "rem"%string, row, col, n).

(** What replaying, and what undoing, a step writes. *)
Definition write_of (s : step) : nat * nat * Z :=
  let '(action, row, col, n) := s in
  (row, col, if decide (action = "ins"%string) then n else 0).
Definition unwrite_of (s : step) : nat * nat * Z :=
  let '(action, row, col, n) := s in
  (row, col, if decide (action = "ins"%string) then 0 else n).

(** The claim that the action log can be replayed and undone. *)
Definition log_round_trip (gw bw : nat) (sudoku : matrix) : Prop :=
  ∀ fuel completed path,
    solve_sudoku () fuel sudoku (Z.of_nat gw) (Z.of_nat bw)
    = Ret (Some completed, (), Some path) →
    replay path sudoku = Ret completed
    ∧ unwind path completed = Ret sudoku.

(** No cell of the grid is filled. *)
Definition empty_grid (sudoku : matrix) : Prop :=
  Forall (Forall (λ v, v = 0)) sudoku.

#[global] Instance empty_grid_dec sudoku : Decision (empty_grid sudoku).
Proof. unfold empty_grid. apply _. Defined.

(** Every cell of the grid is filled. *)
Definition full_grid (sudoku : matrix) : Prop :=
  Forall (Forall (λ v, v ≠ 0)) sudoku.

#[global] Instance full_grid_dec sudoku : Decision (full_grid sudoku).
Proof. unfold full_grid. apply _. Defined.

(** The claim that a completed grid is returned with an empty log. *)
Definition returned_with_empty_log (gw bw : nat) (sudoku : matrix) : Prop :=
  ∃ fuel,
    solve_sudoku () fuel sudoku (Z.of_nat gw) (Z.of_nat bw)
    = Ret (Some sudoku, (), Some []).

(** The insertion of a possibility. *)
Definition ins_of (p : possibility) : step :=
  let '(row, col, n) := p in ("ins"%string, row, col, n).

(** A completed 4 by 4 grid, for examples. *)
Definition g4full : matrix := [[1;3;2;4];[4;2;3;1];[2;4;1;3];[3;1;4;2]].

(** ** Arrays as objects in a store

    To state which arrays [solve_sudoku] writes, the arrays are placed in a
    store; an array is named by its location, and a new array gets the next
    free location. *)
Abbreviation loc := nat.
Abbreviation store := (list matrix).

(** The array at a location. *)
Definition deref (h : store) (l : loc) : outcome matrix := getitem h l.

(** A new array. *)
Definition alloc (m : matrix) (h : store) : loc * store := (length h, h ++ [m]).

(** [a[r, c] = v] on the array at [l]. *)
Definition store_setitem2 (l : loc) (r : nat) (c v : Z) (h : store)
  : outcome store :=
  m ← deref h l; m ← setitem2 m r c v; Ret (<[l := m]> h).

Definition add_possibility_h (possibility : possibility) (cover : loc)
    (cover_row : nat) (grid_width block_width : Z) (h : store)
  : outcome store :=
  let '(row, col, n) := possibility in
  let row := Z.of_nat row in
  let col := Z.of_nat col in
  h ← store_setitem2 cover cover_row (row * grid_width + col) 1 h;
  h ← store_setitem2 cover cover_row
        (grid_width * grid_width + row * grid_width + n - 1) 1 h;
  h ← store_setitem2 cover cover_row
        (2 * grid_width * grid_width + col * grid_width + n - 1) 1 h;
  q ← floordiv row block_width;
  rb ← floordiv (q * grid_width) block_width;
  cb ← floordiv col block_width;
  let block_idx := rb + cb in
  store_setitem2 cover cover_row
    (3 * grid_width * grid_width + block_idx * grid_width + n - 1) 1 h.

Definition create_cover_cell_h (sudoku cover : loc) (grid_width block_width : Z)
    (row : nat) (st : store * list possibility) (col : nat)
  : outcome (store * list possibility) :=
  let '(h, possibilities) := st in
  a ← deref h sudoku;
  v ← getitem2 a row col;
  if decide (v ≠ 0) then
    let possibility := (row, col, v) in
    h ← add_possibility_h possibility cover (length possibilities)
          grid_width block_width h;
    Ret (h, possibilities ++ [possibility])
  else
    foldM (λ '(h, possibilities) n,
             let possibility := (row, col, n) in
             h ← add_possibility_h possibility cover (length possibilities)
                   grid_width block_width h;
             Ret (h, possibilities ++ [possibility]))
          (h, possibilities) (range 1 (grid_width + 1)).

Definition create_cover_h (sudoku : loc) (grid_width block_width : Z)
    (h : store) : outcome (loc * list possibility * store) :=
  a ← deref h sudoku;
  let g_len := shape0 a in
  let n_non_zeros := Z.of_nat (count_nonzero a) in
  let n_possibilities :=
    (Z.of_nat g_len * Z.of_nat g_len - n_non_zeros) * Z.of_nat g_len
    + n_non_zeros in
  let n_constrains := 4 * Z.of_nat g_len * Z.of_nat g_len in
  zeros ← np_zeros n_possibilities n_constrains;
  let '(cover, h) := alloc zeros h in
  '(h, possibilities) ←
    foldM (λ st row,
             foldM (create_cover_cell_h sudoku cover grid_width block_width row)
                   st (seq 0 g_len))
          (h, []) (seq 0 g_len);
  Ret (cover, possibilities, h).

Definition build_final_sudoku_h (possibilities : list possibility)
    (solution : list nat) (sudoku : loc) (h : store) : outcome (loc * store) :=
  a ← deref h sudoku;
  let '(final, h) := alloc (zeros_like a) h in
  h ← foldM (λ h sol,
               '(row, col, n) ← getitem possibilities sol;
               store_setitem2 final row (Z.of_nat col) n h)
            h solution;
  Ret (final, h).

(** [solve_sudoku] on the store; the search only reads the two copies of
    the cover, the one on the device being a new array. *)
Definition solve_sudoku_h {T : Type} (solving_time : T) (fuel : nat)
    (sudoku : loc) (grid_width block_width : Z) (h : store)
  : outcome (option loc * T * option (list step) * store) :=
  '(cover, possibilities, h) ← create_cover_h sudoku grid_width block_width h;
  cover_cpu ← deref h cover;
  let '(gpu, h) := alloc cover_cpu h in
  cover_gpu ← deref h gpu;
  '(solved, solution, solution_path) ←
    solve fuel cover_gpu cover_cpu
      (seq 0 (shape0 cover_cpu)) (seq 0 (shape1 cover_cpu)) [] [];
  if truthy solved then
    '(completed_sudoku, h) ← build_final_sudoku_h possibilities solution sudoku h;
    sudoku_solution_path ← build_solving_path possibilities solution_path;
    Ret (Some completed_sudoku, solving_time, Some sudoku_solution_path, h)
  else Ret (None, solving_time, None, h).

(** ** Exact covers *)

(** The rows [sel], taken among [rows], cover every column of [cols] exactly
    once. *)
Definition exact_cover (m : matrix) (sel rows cols : list nat) : Prop :=
  sel ⊆ rows ∧ ∀ c, c ∈ cols → length (filter (λ r, covers m r c) sel) = 1%nat.

(** ** The solution as a stack *)

(** What an event of the path does to the solution: a selection pushes its
    row, a deselection pops. *)
Definition apply_event (solution : list nat) (e : Z * nat) : list nat :=
  if decide (e.1 = 1) then solution ++ [e.2] else removelast solution.

(** A cover matrix on which the search has to backtrack: the first candidate
    row leaves the last column without a row. *)
Definition m43 : matrix := [[1;1;0];[1;0;0];[0;1;1];[0;1;1]].

(** ** Depth of the recursion *)

(** Every one of the rows has a 1 in at least [k] columns. *)
Definition heavy (k : nat) (m : matrix) (rows : list nat) : Prop :=
  ∀ r, r ∈ rows →
    ∃ cs, NoDup cs ∧ length cs = k ∧ ∀ c, c ∈ cs → covers m r c.

(** ** Counting the steps of a log *)

(** The action of a step. *)
Definition action_of (s : step) : string := s.1.1.1.

(** ** Data for examples *)


(** ** Printing a grid *)

(** The line feed that [print] writes at the end of a line. *)
Definition newline : string := String (Ascii.ascii_of_nat 10) "".

(** [print_sudoku], returning what it writes to the standard output;
    [pretty] is the decimal notation of an integer, which is what [print]
    and an f-string write for it. *)
Definition print_sudoku (s : matrix) : outcome string :=
  out ← foldM (λ out i,
           out ← foldM (λ out j,
                    n ← getitem2 s i j;
                    if decide (n = 0) then Ret (out +:+ "__" +:+ " ")
                    else if decide (n < 10) then
                      Ret (out +:+ (" " +:+ pretty n) +:+ " ")
                    else Ret (out +:+ pretty n +:+ " "))
                  out (seq 0 (shape1 s));
           Ret (out +:+ newline))
        "" (seq 0 (shape0 s));
  Ret (out +:+ newline).

(** What is written for one cell, and for one row of cells. *)
Definition cell_text (n : Z) : string :=
  if decide (n = 0) then "__ "
  else if decide (n < 10) then " " +:+ pretty n +:+ " "
  else pretty n +:+ " ".
Definition row_text (row : list Z) : string :=
  String.concat "" (cell_text <$> row).


(** A grid with an empty cell, a digit and a number of two digits. *)
Definition g22 : matrix := [[0; 12]; [3; 0]].

(** * Properties *)

(** ** The outcome monad *)

Lemma bind_Ret {A B} (m : outcome A) (f : A → outcome B) b :
  m ≫= f = Ret b ↔ ∃ a, m = Ret a ∧ f a = Ret b.
Proof.
  destruct m; simpl; split.
  - eauto.
  - by intros (a' & [= <-] & ?).
  - done.
  - by intros (? & ? & _).
  - done.
  - by intros (? & ? & _).
Qed.

Lemma traverse_Ret {A B} (f : A → outcome B) (g : A → B) l :
  Forall (λ x, f x = Ret (g x)) l → traverse f l = Ret (fmap g l).
Proof.
  induction 1 as [|x l Hx _ IH]; simpl; [done|].
  by rewrite Hx, IH.
Qed.

Lemma traverse_length {A B} (f : A → outcome B) l r :
  traverse f l = Ret r → length r = length l.
Proof.
  revert r. induction l as [|x l IH]; simpl; intros r H.
  - by inversion H.
  - destruct (f x); simpl in H; try done.
    destruct (traverse f l); simpl in H; try done.
    inversion H; subst. simpl. f_equal. by apply IH.
Qed.

Lemma foldM_app {A St} (f : St → A → outcome St) s l1 l2 :
  foldM f s (l1 ++ l2) = s' ← foldM f s l1; foldM f s' l2.
Proof.
  revert s. induction l1 as [|x l1 IH]; simpl; intros s; [done|].
  destruct (f s x); simpl; auto.
Qed.

(** ** Reading the matrix *)

Lemma rect_lookup m r row : rect m → m !! r = Some row → length row = shape1 m.
Proof.
  intros Hm Hr. unfold rect in Hm. rewrite Forall_lookup in Hm. eauto.
Qed.

Lemma getitem2_entry m r c :
  rect m → (r < shape0 m)%nat → (c < shape1 m)%nat →
  getitem2 m r c = Ret (entry m r c).
Proof.
  intros Hm Hr Hc. unfold getitem2, entry, getitem, shape0 in *.
  destruct (lookup_lt_is_Some_2 m r Hr) as [row Hrow]. rewrite Hrow. simpl.
  pose proof (rect_lookup _ _ _ Hm Hrow) as Hlen.
  destruct (lookup_lt_is_Some_2 row c) as [v Hv]; [lia|].
  by rewrite Hv.
Qed.

Lemma getitem_Ret {A} (l : list A) i x : getitem l i = Ret x ↔ l !! i = Some x.
Proof. unfold getitem. destruct (l !! i); naive_solver. Qed.

Lemma traverse_row m r cols :
  rect m → (r < shape0 m)%nat → cols_ok m cols →
  traverse (getitem2 m r) cols = Ret (fmap (entry m r) cols).
Proof.
  intros Hm Hr Hc. apply traverse_Ret.
  eapply Forall_impl; [exact Hc|]. intros c ?. by apply getitem2_entry.
Qed.

Lemma traverse_col m c rows :
  rect m → rows_ok m rows → (c < shape1 m)%nat →
  traverse (λ r, getitem2 m r c) rows = Ret (fmap (λ r, entry m r c) rows).
Proof.
  intros Hm Hr Hc. apply (traverse_Ret _ (λ r, entry m r c)).
  eapply Forall_impl; [exact Hr|]. intros r ?. by apply getitem2_entry.
Qed.

(** ** Index arithmetic of [nonzero] *)

Lemma take_idx_nonzero_from {A} (f : A → Z) (pre l : list A) :
  take_idx (pre ++ l) (nonzero_from (length pre) (f <$> l))
  = Ret (filter (λ x, f x ≠ 0) l).
Proof.
  revert pre. induction l as [|x l IH]; intros pre; [done|].
  specialize (IH (pre ++ [x])).
  rewrite <-app_assoc, length_app in IH. cbn [length app] in IH.
  replace (length pre + 1)%nat with (S (length pre)) in IH by lia.
  rewrite fmap_cons, filter_cons. cbn [nonzero_from].
  destruct (decide (f x ≠ 0)) as [Hx|Hx]; [|exact IH].
  unfold take_idx in *. cbn [traverse].
  assert (getitem (pre ++ x :: l) (length pre) = Ret x) as ->.
  { apply getitem_Ret. by rewrite lookup_app_r, Nat.sub_diag by lia. }
  simpl. by rewrite IH.
Qed.

Lemma take_idx_flatnonzero {A} (f : A → Z) (l : list A) :
  take_idx l (flatnonzero (fmap f l)) = Ret (filter (λ x, f x ≠ 0) l).
Proof. apply (take_idx_nonzero_from f [] l). Qed.

Lemma elem_of_nonzero_from i l x :
  x ∈ nonzero_from i l ↔ ∃ j v, l !! j = Some v ∧ v ≠ 0 ∧ x = (i + j)%nat.
Proof.
  revert i. induction l as [|v l IH]; intros i; simpl.
  - split; [by intros ?%elem_of_nil|]. by intros (j & w & ? & _).
  - destruct (decide (v ≠ 0)) as [Hv|Hv].
    + rewrite elem_of_cons, IH. split.
      * intros [->|(j & w & ? & ? & ->)].
        -- exists 0%nat, v. split_and!; [done|done|lia].
        -- exists (S j), w. split_and!; [done|done|lia].
      * intros (j & w & Hj & Hw & ->). destruct j as [|j].
        -- left. lia.
        -- right. exists j, w. split_and!; [done|done|lia].
    + rewrite IH. split.
      * intros (j & w & ? & ? & ->). exists (S j), w. split_and!; [done|done|lia].
      * intros (j & w & Hj & Hw & ->). destruct j as [|j].
        -- simpl in Hj. injection Hj as ->. done.
        -- exists j, w. split_and!; [done|done|lia].
Qed.

Lemma nonzero_from_lb i l : Forall (λ x, (i ≤ x)%nat) (nonzero_from i l).
Proof.
  apply Forall_forall. intros x (j & v & _ & _ & ->)%elem_of_nonzero_from. lia.
Qed.

Lemma nonzero_from_sorted i l : StronglySorted lt (nonzero_from i l).
Proof.
  revert i. induction l as [|v l IH]; intros i; simpl; [constructor|].
  destruct (decide (v ≠ 0)); [|apply IH].
  constructor; [apply IH|].
  eapply Forall_impl; [apply (nonzero_from_lb (S i))|]. simpl. lia.
Qed.

Lemma flatnonzero_nil l : flatnonzero l = [] ↔ Forall (λ v, v = 0) l.
Proof.
  unfold flatnonzero. generalize 0%nat.
  induction l as [|v l IH]; intros i; simpl.
  - split; [constructor|done].
  - destruct (decide (v ≠ 0)) as [Hv|Hv].
    + split; [done|]. intros H. inversion H; subst. done.
    + rewrite IH, Forall_cons. split; [|tauto].
      intros ?. split; [|done]. destruct (decide (v = 0)); tauto.
Qed.

Lemma live_nonzero r : live r ≠ 0 ↔ flatnonzero r ≠ [].
Proof. unfold live. destruct (decide (flatnonzero r = [])); split; done. Qed.

Lemma elem_of_nonzero_rows_from i m x :
  x ∈ nonzero_rows_from i m ↔ x ∈ nonzero_from i (fmap live m).
Proof.
  revert i. induction m as [|r m IH]; intros i; simpl; [done|].
  rewrite elem_of_app, IH.
  destruct (decide (live r ≠ 0)) as [E|E]; rewrite live_nonzero in E.
  - rewrite elem_of_cons, elem_of_replicate. split.
    + intros [[-> _]|?]; auto.
    + intros [->|?]; [|auto]. left. split; [done|].
      destruct (flatnonzero r); simpl; [done|lia].
  - apply dec_stable in E. rewrite E. simpl.
    split; [intros [?%elem_of_nil|?]; done|auto].
Qed.

Lemma Sorted_le_NoDup_lt (l : list nat) :
  Sorted Nat.le l → NoDup l → StronglySorted lt l.
Proof.
  intros Hs%Sorted_StronglySorted Hn; [|apply _].
  induction Hs as [|x l Hs IH Hx]; [constructor|].
  apply NoDup_cons in Hn as [Hx' Hn]. constructor; [auto|].
  apply Forall_forall. intros y Hy. rewrite Forall_forall in Hx.
  specialize (Hx y Hy). assert (x ≠ y) by (intros ->; done). unfold Nat.le in *. lia.
Qed.

Lemma StronglySorted_lt_NoDup (l : list nat) : StronglySorted lt l → NoDup l.
Proof.
  induction 1 as [|x l Hs IH Hx]; [constructor|].
  apply NoDup_cons. split; [|done]. intros Hin.
  rewrite Forall_forall in Hx. specialize (Hx x Hin). lia.
Qed.

Lemma np_unique_sorted l : StronglySorted lt (np_unique l).
Proof.
  unfold np_unique. apply Sorted_le_NoDup_lt.
  - apply (Sorted_merge_sort Nat.le).
  - rewrite merge_sort_Permutation. apply NoDup_remove_dups.
Qed.

Lemma elem_of_np_unique l x : x ∈ np_unique l ↔ x ∈ l.
Proof.
  unfold np_unique. rewrite merge_sort_Permutation. apply elem_of_remove_dups.
Qed.

Lemma sorted_lt_ext (l1 l2 : list nat) :
  StronglySorted lt l1 → StronglySorted lt l2 → (∀ x, x ∈ l1 ↔ x ∈ l2) → l1 = l2.
Proof.
  intros H1 H2 E. apply (StronglySorted_unique_strong lt); try done.
  - intros; lia.
  - apply NoDup_Permutation; auto using StronglySorted_lt_NoDup.
Qed.

Lemma np_unique_id l : StronglySorted lt l → np_unique l = l.
Proof.
  intros. apply sorted_lt_ext; auto using np_unique_sorted.
  apply elem_of_np_unique.
Qed.

Lemma np_unique_nonzero_rows m :
  np_unique (nonzero_rows m) = flatnonzero (fmap live m).
Proof.
  apply sorted_lt_ext.
  - apply np_unique_sorted.
  - apply nonzero_from_sorted.
  - intros x. rewrite elem_of_np_unique. apply elem_of_nonzero_rows_from.
Qed.

(** ** [setdiff1d] *)

Lemma elem_of_setdiff1d a b x : x ∈ setdiff1d a b ↔ x ∈ a ∧ x ∉ b.
Proof.
  unfold setdiff1d. rewrite list_elem_of_filter, !elem_of_np_unique. tauto.
Qed.

Lemma StronglySorted_filter {A} (R : relation A) (P : A → Prop)
    `{∀ x, Decision (P x)} l :
  StronglySorted R l → StronglySorted R (filter P l).
Proof.
  induction 1 as [|x l Hs IH Hx]; [constructor|].
  rewrite filter_cons. destruct (decide (P x)); [|done].
  constructor; [done|].
  apply Forall_forall. intros y [_ Hy]%list_elem_of_filter.
  rewrite Forall_forall in Hx. auto.
Qed.

Lemma setdiff1d_sorted a b : StronglySorted lt (setdiff1d a b).
Proof. apply StronglySorted_filter, np_unique_sorted. Qed.

Lemma setdiff1d_NoDup a b : NoDup (setdiff1d a b).
Proof. apply StronglySorted_lt_NoDup, setdiff1d_sorted. Qed.


(** ** What [select] returns, and the loop over the candidates *)

Lemma live_row_Exists m r cs :
  live (entry m r <$> cs) ≠ 0 ↔ Exists (covers m r) cs.
Proof.
  rewrite live_nonzero, flatnonzero_nil, Forall_fmap. split.
  - intros H. apply not_Forall_Exists in H; [|intros c; simpl; apply _].
    eapply Exists_impl; [exact H|]. intros c Hc. exact Hc.
  - intros H HF. apply Exists_exists in H as (c & Hc & Hcov).
    rewrite Forall_forall in HF. apply Hcov, (HF c Hc).
Qed.

Lemma cols_ok_filter m (P : nat → Prop) `{∀ x, Decision (P x)} cols :
  cols_ok m cols → cols_ok m (filter P cols).
Proof.
  unfold cols_ok. rewrite !Forall_forall.
  intros Hall c [_ Hc]%list_elem_of_filter. auto.
Qed.

Lemma select_spec m row rows cols :
  rect m → (row < shape0 m)%nat → rows_ok m rows → cols_ok m cols →
  rows ≠ [] → cols ≠ [] →
  select row m rows cols
  = Ret (rows_hit m rows (cols_of m row cols), cols_of m row cols).
Proof.
  intros Hm Hrow Hrows Hcols Hner Hne. unfold select.
  destruct (decide (cols = [])); [done|].
  rewrite traverse_row by done. cbn [mbind outcome_bind].
  rewrite take_idx_flatnonzero. cbn [mbind outcome_bind].
  destruct (decide (rows = [])); [done|].
  fold (covers m row). fold (cols_of m row cols).
  rewrite (traverse_Ret _ (λ r, entry m r <$> cols_of m row cols)); last first.
  { eapply Forall_impl; [exact Hrows|]. intros r Hr.
    apply traverse_row; [done..|]. by apply cols_ok_filter. }
  cbn [mbind outcome_bind].
  rewrite np_unique_nonzero_rows, <-list_fmap_compose.
  rewrite take_idx_flatnonzero. cbn [mbind outcome_bind].
  do 2 f_equal. apply list_filter_iff. intros r. apply live_row_Exists.
Qed.

Lemma same_refl {A} (l : list A) : same l l.
Proof. by intros x. Qed.

Lemma same_rows_ok m l k : same l k → rows_ok m k → rows_ok m l.
Proof. unfold rows_ok. rewrite !Forall_forall. intros E H x ?%E. auto. Qed.

Lemma same_cols_ok m l k : same l k → cols_ok m k → cols_ok m l.
Proof. unfold cols_ok. rewrite !Forall_forall. intros E H x ?%E. auto. Qed.

Lemma same_nil {A} (l k : list A) : same l k → k ≠ [] → l ≠ [].
Proof.
  intros E Hk ->. destruct k as [|x k]; [done|].
  specialize (E x). rewrite elem_of_cons in E.
  by apply (not_elem_of_nil x), E; left.
Qed.

Lemma elem_of_cols_of m row cols c : c ∈ cols_of m row cols ↔ c ∈ cols ∧ covers m row c.
Proof. unfold cols_of. rewrite list_elem_of_filter. tauto. Qed.

Lemma elem_of_rows_hit m rows cs r :
  r ∈ rows_hit m rows cs ↔ r ∈ rows ∧ ∃ c, c ∈ cs ∧ covers m r c.
Proof. unfold rows_hit. rewrite list_elem_of_filter, Exists_exists. tauto. Qed.

Lemma elem_of_cols_after m cols row c :
  c ∈ cols_after m cols row ↔ c ∈ cols ∧ ¬ covers m row c.
Proof.
  unfold cols_after. rewrite elem_of_setdiff1d, elem_of_cols_of. tauto.
Qed.

Lemma elem_of_rows_after m rows cols row r :
  r ∈ rows_after m rows cols row
  ↔ r ∈ rows ∧ ¬ ∃ c, c ∈ cols ∧ covers m row c ∧ covers m r c.
Proof.
  unfold rows_after. rewrite elem_of_setdiff1d, elem_of_rows_hit.
  setoid_rewrite elem_of_cols_of. split.
  - intros [? Hn]. split; [done|]. intros (c & ? & ? & ?). apply Hn.
    split; [done|]. by exists c.
  - intros [? Hn]. split; [done|]. intros [_ (c & [? ?] & ?)]. apply Hn.
    by exists c.
Qed.

Lemma rows_after_sorted m rows cols row :
  StronglySorted lt (rows_after m rows cols row).
Proof. apply setdiff1d_sorted. Qed.

Lemma cols_after_sorted m cols row : StronglySorted lt (cols_after m cols row).
Proof. apply setdiff1d_sorted. Qed.

Lemma setdiff1d_same a a' b b' :
  same a a' → same b b' → setdiff1d a b = setdiff1d a' b'.
Proof.
  intros Ea Eb. apply sorted_lt_ext; auto using setdiff1d_sorted.
  intros x. rewrite !elem_of_setdiff1d, (Ea x), (Eb x). tauto.
Qed.

Lemma rows_after_same m rows rows' cols cols' row :
  same rows rows' → same cols cols' →
  rows_after m rows cols row = rows_after m rows' cols' row.
Proof.
  intros Er Ec. apply sorted_lt_ext; auto using rows_after_sorted.
  intros x. rewrite !elem_of_rows_after, (Er x).
  split; intros [? Hn]; (split; [done|]);
    intros (c & Hc & ? & ?); apply Hn; exists c; apply Ec in Hc; done.
Qed.

Lemma cols_after_same m cols cols' row :
  same cols cols' → cols_after m cols row = cols_after m cols' row.
Proof.
  intros Ec. apply sorted_lt_ext; auto using cols_after_sorted.
  intros x. rewrite !elem_of_cols_after, (Ec x). tauto.
Qed.

(** After a failed candidate, [deselect] leaves the frame with the elements
    it had before. *)
Lemma deselect_same (P : nat → Prop) `{∀ x, Decision (P x)} (l : list nat) :
  same (setdiff1d l (filter P l) ++ filter P l) l.
Proof.
  intros x. rewrite elem_of_app, elem_of_setdiff1d, list_elem_of_filter.
  destruct (decide (P x)); tauto.
Qed.

Lemma same_trans {A} (l k j : list A) : same l k → same k j → same l j.
Proof. intros E1 E2 x. by rewrite (E1 x). Qed.

Lemma solve_loop_canon rec m rows0 cols0 cands rows cols s p :
  rect m → rows_ok m rows0 → cols_ok m cols0 → cols0 ≠ [] →
  cands ⊆ rows0 → same rows rows0 → same cols cols0 →
  solve_loop rec m cands (rows, cols, s, p)
  = candidates_loop rec m rows0 cols0 cands s p.
Proof.
  intros Hm Hr0 Hc0 Hne Hcands. revert rows cols s p.
  induction cands as [|row cands IH]; intros rows cols s p Er Ec; [done|].
  assert (row ∈ rows0) as Hrow0 by (apply Hcands; left).
  assert (row < shape0 m)%nat as Hrow.
  { unfold rows_ok in Hr0. rewrite Forall_forall in Hr0. auto. }
  assert (rows0 ≠ []) as Hner by (intros ->; by apply elem_of_nil in Hrow0).
  specialize (IH (λ x Hx, Hcands x (list_elem_of_further _ _ _ Hx))).
  cbn [solve_loop candidates_loop].
  rewrite select_spec; eauto using same_rows_ok, same_cols_ok, same_nil.
  cbn [mbind outcome_bind].
  fold (rows_after m rows cols row). fold (cols_after m cols row).
  rewrite (rows_after_same m rows rows0 cols cols0) by done.
  rewrite (cols_after_same m cols cols0) by done.
  destruct (rec _ _ _ _) as [[[solved s'] p']| |]; cbn [mbind outcome_bind];
    [|done..].
  destruct (truthy solved); [done|].
  destruct (pop s') as [s''| |]; cbn [mbind outcome_bind]; [|done..].
  unfold deselect. apply IH.
  - rewrite <-(rows_after_same m rows rows0 cols cols0) by done.
    eapply same_trans; [|exact Er]. apply deselect_same.
  - rewrite <-(cols_after_same m cols cols0) by done.
    eapply same_trans; [|exact Ec]. apply deselect_same.
Qed.


(** ** What [min_col] returns *)

Lemma row_entries m r row :
  rect m → m !! r = Some row → row = entry m r <$> seq 0 (shape1 m).
Proof.
  intros Hm Hr. pose proof (rect_lookup _ _ _ Hm Hr) as Hlen.
  apply list_eq. intros i. rewrite list_lookup_fmap.
  destruct (decide (i < shape1 m)%nat) as [Hi|Hi].
  - rewrite lookup_seq_lt by done. simpl. unfold entry. rewrite Hr. simpl.
    destruct (lookup_lt_is_Some_2 row i) as [v Hv]; [lia|]. by rewrite Hv.
  - rewrite lookup_seq_ge by lia. apply lookup_ge_None. lia.
Qed.

Lemma take_rows_spec m rows :
  rect m → rows_ok m rows →
  take_rows m rows = Ret ((λ r, entry m r <$> seq 0 (shape1 m)) <$> rows).
Proof.
  intros Hm Hr. apply traverse_Ret. eapply Forall_impl; [exact Hr|].
  intros r Hlt. destruct (lookup_lt_is_Some_2 m r Hlt) as [row Hrow].
  apply getitem_Ret. rewrite Hrow. f_equal. by apply row_entries.
Qed.

Lemma sum_axis0_spec m k rows :
  sum_axis0 k ((λ r, entry m r <$> seq 0 k) <$> rows)
  = col_count m rows <$> seq 0 k.
Proof.
  unfold sum_axis0. induction rows as [|r rows IH];
    [|rewrite fmap_cons; cbn [foldr col_count]].
  - simpl. apply list_eq. intros i. rewrite list_lookup_fmap.
    destruct (decide (i < k)%nat).
    + by rewrite lookup_replicate_2, lookup_seq_lt by done.
    + rewrite lookup_seq_ge by lia. apply lookup_ge_None.
      rewrite length_replicate. lia.
  - rewrite IH, zip_with_fmap_l, zip_with_fmap_r, zip_with_diag. done.
Qed.

Lemma col_counts_spec m rows :
  rect m → rows_ok m rows →
  col_counts m rows = Ret (col_count m rows <$> seq 0 (shape1 m)).
Proof.
  intros Hm Hr. unfold col_counts. rewrite take_rows_spec by done.
  cbn [mbind outcome_bind]. by rewrite sum_axis0_spec.
Qed.

Lemma take_idx_tabulate {A} (g : nat → A) k idx :
  Forall (λ i, (i < k)%nat) idx →
  take_idx (g <$> seq 0 k) idx = Ret (g <$> idx).
Proof.
  intros H. apply traverse_Ret. eapply Forall_impl; [exact H|].
  intros i Hi. apply getitem_Ret.
  by rewrite list_lookup_fmap, lookup_seq_lt.
Qed.

Lemma list_min_le x l : list_min x l ≤ x ∧ Forall (λ y, list_min x l ≤ y) l.
Proof.
  unfold list_min. revert x. induction l as [|y l IH]; intros x; simpl.
  - split; [lia|constructor].
  - destruct (IH (x `min` y)) as [H1 H2]. split; [lia|].
    constructor; [lia|done].
Qed.

Lemma list_min_elem x l : list_min x l ∈ x :: l.
Proof.
  unfold list_min. revert x. induction l as [|y l IH]; intros x; simpl.
  - left.
  - specialize (IH (x `min` y)). rewrite !elem_of_cons in *.
    destruct IH as [->|?]; [|auto].
    destruct (Z.min_spec x y) as [[_ ->]|[_ ->]]; auto.
Qed.

Lemma index_of_spec x l :
  x ∈ l →
  l !! index_of x l = Some x ∧ ∀ j y, l !! j = Some y → y = x → (index_of x l ≤ j)%nat.
Proof.
  induction l as [|y l IH]; [by intros ?%elem_of_nil|].
  intros Hin. simpl. destruct (decide (y = x)) as [->|Hne].
  - split; [done|]. intros; lia.
  - apply elem_of_cons in Hin as [->|Hin]; [done|].
    destruct (IH Hin) as [H1 H2]. split; [done|].
    intros [|j] z Hz ->; simpl in Hz; [congruence|].
    specialize (H2 j x Hz eq_refl). lia.
Qed.

Lemma argmin_spec l :
  l ≠ [] →
  ∃ i v, argmin l = Ret i ∧ l !! i = Some v
         ∧ Forall (λ y, v ≤ y) l
         ∧ ∀ j y, l !! j = Some y → y = v → (i ≤ j)%nat.
Proof.
  destruct l as [|x l]; [done|]. intros _. simpl argmin.
  exists (index_of (list_min x l) (x :: l)), (list_min x l).
  destruct (index_of_spec (list_min x l) (x :: l) (list_min_elem x l))
    as [H1 H2].
  split_and!; [done|done| |done].
  destruct (list_min_le x l). by constructor.
Qed.

(** What [min_col] returns: the column at the first position of
    [active_cols] whose count is the least, with its count. *)
Lemma min_col_spec m rows cols :
  rect m → rows_ok m rows → cols_ok m cols → cols ≠ [] →
  ∃ i col,
    min_col m rows cols = Ret (col, col_count m rows col)
    ∧ cols !! i = Some col
    ∧ (∀ c, c ∈ cols → col_count m rows col ≤ col_count m rows c)
    ∧ (∀ j c, cols !! j = Some c →
         col_count m rows c = col_count m rows col → (i ≤ j)%nat).
Proof.
  intros Hm Hr Hc Hne. unfold min_col.
  rewrite col_counts_spec by done. cbn [mbind outcome_bind].
  rewrite take_idx_tabulate by done. cbn [mbind outcome_bind].
  destruct (argmin_spec (col_count m rows <$> cols)) as (i & v & -> & Hi & Hmin & Hfst).
  { destruct cols; done. }
  cbn [mbind outcome_bind].
  apply list_lookup_fmap_Some in Hi as (col & -> & Hcol).
  exists i, col. rewrite (proj2 (getitem_Ret _ _ _) Hcol).
  cbn [mbind outcome_bind].
  assert (col < shape1 m)%nat as Hlt.
  { unfold cols_ok in Hc. rewrite Forall_lookup in Hc. eauto. }
  rewrite (proj2 (getitem_Ret _ _ (col_count m rows col))); last first.
  { by rewrite list_lookup_fmap, lookup_seq_lt. }
  cbn [mbind outcome_bind]. split_and!; [done|done| |].
  - intros c Hin. rewrite Forall_fmap, Forall_forall in Hmin. by apply Hmin.
  - intros j c Hj Heq. apply (Hfst j (col_count m rows c)); [|done].
    by rewrite list_lookup_fmap, Hj.
Qed.


(** ** The relation describes the search *)

Lemma run_fail_nil m md rows cols res T Q :
  run m md rows cols res T Q → truthy res = false → T = [].
Proof. induction 1; simpl; auto; done. Qed.

Lemma rows_ok_after m rows cols row :
  rows_ok m rows → rows_ok m (rows_after m rows cols row).
Proof.
  unfold rows_ok. rewrite !Forall_forall.
  intros H r [Hr _]%elem_of_rows_after. auto.
Qed.

Lemma cols_ok_after m cols row :
  cols_ok m cols → cols_ok m (cols_after m cols row).
Proof.
  unfold cols_ok. rewrite !Forall_forall.
  intros H c [Hc _]%elem_of_cols_after. auto.
Qed.

Lemma cols_after_shrinks m cols row c :
  c ∈ cols → covers m row c →
  (length (cols_after m cols row) < length cols)%nat.
Proof.
  intros Hc Hcov.
  assert (c :: cols_after m cols row ⊆+ cols) as Hsub.
  { apply NoDup_submseteq.
    - apply NoDup_cons. split.
      + rewrite elem_of_cols_after. tauto.
      + apply StronglySorted_lt_NoDup, cols_after_sorted.
    - intros x [->|Hx]%elem_of_cons; [done|].
      by apply elem_of_cols_after in Hx as [? _]. }
  apply submseteq_length in Hsub. simpl in Hsub. lia.
Qed.

Lemma pop_snoc s row : pop (s ++ [row]) = Ret s.
Proof.
  unfold pop. destruct (s ++ [row]) eqn:E.
  - by destruct s.
  - by rewrite <-E, removelast_last.
Qed.

Lemma candidates_filter_ok m rows col :
  rows_ok m rows → rows_ok m (filter (λ r, covers m r col) rows).
Proof.
  unfold rows_ok. rewrite !Forall_forall.
  intros H r [_ Hr]%list_elem_of_filter. auto.
Qed.

Lemma candidates_claiming m rows cols col :
  col ∈ cols → claiming m cols (filter (λ r, covers m r col) rows).
Proof.
  intros Hc. apply Forall_forall. intros r [Hr _]%list_elem_of_filter. eauto.
Qed.

(** One invocation of [solve], in terms of [candidates_loop]. *)
Lemma solve_body_canon rec m rows cols s p col count :
  rect m → rows_ok m rows → cols_ok m cols → cols ≠ [] →
  min_col m rows cols = Ret (col, count) → col ∈ cols →
  solve_body rec m m rows cols s p
  = if decide (count = 0) then Ret (PyFalse, s, p)
    else candidates_loop rec m rows cols (filter (λ r, covers m r col) rows) s p.
Proof.
  intros Hm Hr Hc Hne Hmin Hcol. unfold solve_body.
  destruct (decide (length cols = 0%nat)) as [E|_].
  { by destruct cols. }
  rewrite Hmin. cbn [mbind outcome_bind].
  destruct (decide (count = 0)); [done|].
  assert (col < shape1 m)%nat as Hlt.
  { unfold cols_ok in Hc. rewrite Forall_forall in Hc. auto. }
  rewrite traverse_col by done. cbn [mbind outcome_bind].
  rewrite take_idx_flatnonzero. cbn [mbind outcome_bind].
  apply solve_loop_canon; auto using same_refl.
  intros r [_ ?]%list_elem_of_filter. done.
Qed.

Lemma min_col_elem m rows cols col count :
  rect m → rows_ok m rows → cols_ok m cols → cols ≠ [] →
  min_col m rows cols = Ret (col, count) →
  col ∈ cols ∧ count = col_count m rows col.
Proof.
  intros Hm Hr Hc Hne Hmin.
  destruct (min_col_spec m rows cols) as (i & col' & E & Hi & _); [done..|].
  rewrite E in Hmin. injection Hmin as -> <-.
  split; [|done]. by eapply list_elem_of_lookup_2.
Qed.

(** The relation describes what [solve] computes. *)
Lemma run_sound m md rows cols res T Q :
  run m md rows cols res T Q →
  rect m → rows_ok m rows → cols_ok m cols →
  match md with
  | Entry => ∀ fuel s p, (length cols < fuel)%nat →
      solve fuel m m rows cols s p = Ret (res, s ++ T, p ++ Q)
  | Cands cands => rows_ok m cands → claiming m cols cands →
      ∀ fuel s p, (length cols ≤ fuel)%nat →
      candidates_loop (solve fuel m m) m rows cols cands s p
      = Ret (res, s ++ T, p ++ Q)
  end.
Proof.
  intros Hrun Hm. induction Hrun as
    [rows|rows cols col Hne Hmin|rows cols col count res T Q Hne Hmin Hcnt Hrun IH
    |rows cols|rows cols row cands T Q Hrun IH
    |rows cols row cands res0 Q res T' Q' Hres0 Hrun0 IH0 Hrun IH];
    intros Hrows Hcols.
  - intros [|fuel] s p Hf; [simpl in Hf; lia|]. simpl.
    unfold solve_body. simpl. by rewrite !app_nil_r.
  - intros [|fuel] s p Hf; [lia|]. cbn [solve].
    destruct (min_col_elem m rows cols col 0) as [Hcol _]; [done..|].
    rewrite (solve_body_canon _ m rows cols s p col 0) by done.
    simpl. by rewrite !app_nil_r.
  - intros [|fuel] s p Hf; [lia|]. cbn [solve].
    destruct (min_col_elem m rows cols col count) as [Hcol _]; [done..|].
    rewrite (solve_body_canon _ m rows cols s p col count) by done.
    destruct (decide (count = 0)); [done|].
    apply IH; auto using candidates_filter_ok, candidates_claiming. lia.
  - intros _ _ fuel s p _. simpl. by rewrite !app_nil_r.
  - intros Hcands Hclaim fuel s p Hf. cbn [candidates_loop].
    apply Forall_cons in Hclaim as [(c & Hc & Hcov) Hclaim].
    rewrite (IH (rows_ok_after _ _ _ _ Hrows) (cols_ok_after _ _ _ Hcols)).
    2:{ pose proof (cols_after_shrinks m cols row c Hc Hcov). lia. }
    simpl. by rewrite <-!app_assoc.
  - intros Hcands Hclaim fuel s p Hf. cbn [candidates_loop].
    apply Forall_cons in Hclaim as [(c & Hc & Hcov) Hclaim].
    apply Forall_cons in Hcands as [Hrow Hcands].
    rewrite (IH0 (rows_ok_after _ _ _ _ Hrows) (cols_ok_after _ _ _ Hcols)).
    2:{ pose proof (cols_after_shrinks m cols row c Hc Hcov). lia. }
    cbn [mbind outcome_bind]. rewrite Hres0, app_nil_r, pop_snoc.
    cbn [mbind outcome_bind].
    rewrite (IH Hrows Hcols Hcands Hclaim fuel) by done.
    by rewrite <-!app_assoc.
Qed.

(** The search always has a result. *)
Lemma run_total_cands m rows cols cands :
  (∀ row c, c ∈ cols → covers m row c →
     ∃ res T Q, run m Entry (rows_after m rows cols row) (cols_after m cols row) res T Q) →
  claiming m cols cands →
  ∃ res T Q, run m (Cands cands) rows cols res T Q.
Proof.
  intros Hrec. induction 1 as [|row cands (c & Hc & Hcov) _ (res & T & Q & IH)].
  - eexists _, _, _. apply run_nil.
  - destruct (Hrec row c Hc Hcov) as (res0 & T0 & Q0 & H0).
    destruct (truthy res0) eqn:E.
    + destruct res0; try done. eexists _, _, _. by apply run_hit.
    + pose proof (run_fail_nil _ _ _ _ _ _ _ H0 E) as ->.
      eexists _, _, _. by eapply run_miss.
Qed.

Lemma run_total_fuel m n rows cols :
  rect m → (length cols ≤ n)%nat → rows_ok m rows → cols_ok m cols →
  ∃ res T Q, run m Entry rows cols res T Q.
Proof.
  intros Hm. revert rows cols.
  induction n as [|n IH]; intros rows cols Hlen Hrows Hcols.
  - destruct cols; [|simpl in Hlen; lia]. eexists _, _, _. apply run_done.
  - destruct (decide (cols = [])) as [->|Hne].
    { eexists _, _, _. apply run_done. }
    destruct (min_col_spec m rows cols) as (i & col & Hmin & Hi & _); [done..|].
    apply list_elem_of_lookup_2 in Hi.
    destruct (decide (col_count m rows col = 0)) as [E|E].
    { rewrite E in Hmin. eexists _, _, _. by eapply run_dead. }
    destruct (run_total_cands m rows cols (filter (λ r, covers m r col) rows))
      as (res & T & Q & H).
    + intros row c Hc Hcov. apply IH.
      * pose proof (cols_after_shrinks m cols row c Hc Hcov). lia.
      * by apply rows_ok_after.
      * by apply cols_ok_after.
    + by apply candidates_claiming.
    + eexists _, _, _. by eapply run_branch.
Qed.

Lemma run_total m rows cols :
  rect m → rows_ok m rows → cols_ok m cols →
  ∃ res T Q, run m Entry rows cols res T Q.
Proof. intros. by eapply (run_total_fuel m (length cols)). Qed.

(** [solve] returns, without raising, once the fuel exceeds the number of
    active columns. *)
Lemma solve_run m rows cols res T Q fuel s p :
  run m Entry rows cols res T Q →
  rect m → rows_ok m rows → cols_ok m cols → (length cols < fuel)%nat →
  solve fuel m m rows cols s p = Ret (res, s ++ T, p ++ Q).
Proof.
  intros Hrun Hm Hr Hc Hf.
  by apply (run_sound m Entry rows cols res T Q Hrun Hm Hr Hc).
Qed.


(** ** The heuristic, the active sets and the recursion *)

Lemma entry_binary m r c : binary m → entry m r c = 0 ∨ entry m r c = 1.
Proof.
  intros Hb. unfold entry. destruct (m !! r) as [row|] eqn:Hr; simpl; [|auto].
  destruct (row !! c) as [v|] eqn:Hv; simpl; [|auto].
  unfold binary in Hb. rewrite Forall_lookup in Hb.
  specialize (Hb r row Hr). rewrite Forall_lookup in Hb. eauto.
Qed.

Lemma covers_has_one m r c : binary m → covers m r c ↔ has_one m r c.
Proof.
  intros Hb. unfold covers, has_one. destruct (entry_binary m r c Hb); lia.
Qed.

Lemma col_count_ones m rows c :
  binary m → col_count m rows c = Z.of_nat (ones_in m rows c).
Proof.
  intros Hb. unfold col_count, ones_in.
  induction rows as [|r rows IH]; [done|].
  cbn [foldr]. rewrite IH, filter_cons.
  destruct (decide (has_one m r c)) as [H1|H1]; unfold has_one in H1.
  - simpl. lia.
  - destruct (entry_binary m r c Hb); [lia|done].
Qed.

Lemma ascending_lookup_le (l : list nat) i j x y :
  ascending l → l !! i = Some x → l !! j = Some y → (i ≤ j)%nat → (x ≤ y)%nat.
Proof.
  intros Hs%Sorted_StronglySorted; [|apply _].
  revert i j. induction Hs as [|z l Hs IH Hz]; intros i j Hi Hj Hij.
  { by rewrite lookup_nil in Hi. }
  destruct i as [|i], j as [|j]; simpl in *; try lia.
  - injection Hi as ->. injection Hj as ->. lia.
  - injection Hi as ->. rewrite Forall_forall in Hz.
    apply list_elem_of_lookup_2, Hz in Hj. lia.
  - apply (IH i j); [done|done|lia].
Qed.

(** C3: on sorted active columns, [min_col] returns an active column with
    the least number of active rows having a 1 in it, the lowest such
    column, together with that number; and when that number is 0, [solve]
    returns [False] at once, whatever the recursive call and the host copy
    of the cover are, leaving the solution and the path as they were. *)
Theorem min_col_fewest_candidates m active_rows active_cols :
  rect m → binary m → rows_ok m active_rows → cols_ok m active_cols →
  ascending active_cols → active_cols ≠ [] →
  ∃ col count,
    min_col m active_rows active_cols = Ret (col, count)
    ∧ col ∈ active_cols
    ∧ count = Z.of_nat (ones_in m active_rows col)
    ∧ (∀ c, c ∈ active_cols →
         (ones_in m active_rows col ≤ ones_in m active_rows c)%nat)
    ∧ (∀ c, c ∈ active_cols →
         ones_in m active_rows c = ones_in m active_rows col → (col ≤ c)%nat)
    ∧ (count = 0 →
       ∀ rec cover_cpu solution solution_path,
         solve_body rec m cover_cpu active_rows active_cols
           solution solution_path
         = Ret (PyFalse, solution, solution_path)).
Proof.
  intros Hm Hb Hr Hc Hasc Hne.
  destruct (min_col_spec m active_rows active_cols)
    as (i & col & Hmin & Hi & Hleast & Hfirst); [done..|].
  exists col, (col_count m active_rows col).
  split_and!; [done|by eapply list_elem_of_lookup_2|by apply col_count_ones| | |].
  - intros c Hin. specialize (Hleast c Hin).
    rewrite !col_count_ones in Hleast by done. lia.
  - intros c [j Hj]%list_elem_of_lookup Heq.
    apply (ascending_lookup_le active_cols i j); [done..|].
    apply (Hfirst j c Hj). rewrite !col_count_ones by done. lia.
  - intros Hz rec cover_cpu s p. unfold solve_body.
    destruct (decide (length active_cols = 0%nat)); [by destruct active_cols|].
    rewrite Hmin. cbn [mbind outcome_bind]. rewrite Hz.
    by destruct (decide (0 = 0)).
Qed.

Lemma min_col_fewest_candidates_witness :
  ∃ col count,
    min_col m3 [0;1;2]%nat [0;1;2]%nat = Ret (col, count)
    ∧ col ∈ [0;1;2]%nat
    ∧ count = Z.of_nat (ones_in m3 [0;1;2]%nat col)
    ∧ (∀ c, c ∈ [0;1;2]%nat →
         (ones_in m3 [0;1;2]%nat col ≤ ones_in m3 [0;1;2]%nat c)%nat)
    ∧ (∀ c, c ∈ [0;1;2]%nat →
         ones_in m3 [0;1;2]%nat c = ones_in m3 [0;1;2]%nat col → (col ≤ c)%nat)
    ∧ (count = 0 →
       ∀ rec cover_cpu solution solution_path,
         solve_body rec m3 cover_cpu [0;1;2]%nat [0;1;2]%nat
           solution solution_path
         = Ret (PyFalse, solution, solution_path)).
Proof.
  apply (min_col_fewest_candidates m3 [0;1;2]%nat [0;1;2]%nat);
    compute_done.
Defined.

(** C4: for an active [row] with a 1 in some active column, [select]
    returns as columns the active columns where [row] has a 1 and as rows
    the active rows with a 1 in one of these columns, [row] among them; and
    removing both and then calling [deselect] leaves active sets with the
    elements they had before the selection. *)
Theorem select_deselect_restores m row active_rows active_cols :
  rect m → binary m → rows_ok m active_rows → cols_ok m active_cols →
  row ∈ active_rows → (∃ c, c ∈ active_cols ∧ has_one m row c) →
  ∃ rows_to_remove cols_to_remove,
    select row m active_rows active_cols
    = Ret (rows_to_remove, cols_to_remove)
    ∧ (∀ c, c ∈ cols_to_remove ↔ c ∈ active_cols ∧ has_one m row c)
    ∧ (∀ r, r ∈ rows_to_remove
            ↔ r ∈ active_rows ∧ ∃ c, c ∈ cols_to_remove ∧ has_one m r c)
    ∧ row ∈ rows_to_remove
    ∧ ∀ rows' cols',
        deselect rows_to_remove cols_to_remove
          (setdiff1d active_rows rows_to_remove)
          (setdiff1d active_cols cols_to_remove) = (rows', cols') →
        (∀ r, r ∈ rows' ↔ r ∈ active_rows)
        ∧ (∀ c, c ∈ cols' ↔ c ∈ active_cols).
Proof.
  intros Hm Hb Hr Hc Hrow (c0 & Hc0 & Hone).
  assert (row < shape0 m)%nat as Hlt.
  { unfold rows_ok in Hr. rewrite Forall_forall in Hr. auto. }
  assert (active_cols ≠ []) as Hne by (intros ->; by apply elem_of_nil in Hc0).
  assert (active_rows ≠ []) as Hner
    by (intros ->; by apply elem_of_nil in Hrow).
  exists (rows_hit m active_rows (cols_of m row active_cols)),
    (cols_of m row active_cols).
  assert (∀ c, c ∈ cols_of m row active_cols ↔ c ∈ active_cols ∧ has_one m row c)
    as Hcols.
  { intros c. rewrite elem_of_cols_of, covers_has_one by done. tauto. }
  assert (∀ r, r ∈ rows_hit m active_rows (cols_of m row active_cols)
               ↔ r ∈ active_rows
                 ∧ ∃ c, c ∈ cols_of m row active_cols ∧ has_one m r c) as Hrows.
  { intros r. rewrite elem_of_rows_hit. split.
    - intros [? (c & ? & ?%covers_has_one)]; eauto.
    - intros [? (c & ? & ?%covers_has_one)]; eauto. }
  split_and!; [by apply select_spec|done|done| |].
  - apply Hrows. split; [done|]. exists c0. split; [|done]. by apply Hcols.
  - intros rows' cols' [= <- <-]. split.
    + apply (deselect_same (λ r, Exists (covers m r) (cols_of m row active_cols))).
    + apply (deselect_same (covers m row)).
Qed.

Lemma select_deselect_restores_witness :
  ∃ rows_to_remove cols_to_remove,
    select 0%nat m3 [0;1;2]%nat [0;1;2]%nat
    = Ret (rows_to_remove, cols_to_remove)
    ∧ (∀ c, c ∈ cols_to_remove ↔ c ∈ [0;1;2]%nat ∧ has_one m3 0%nat c)
    ∧ (∀ r, r ∈ rows_to_remove
            ↔ r ∈ [0;1;2]%nat ∧ ∃ c, c ∈ cols_to_remove ∧ has_one m3 r c)
    ∧ 0%nat ∈ rows_to_remove
    ∧ ∀ rows' cols',
        deselect rows_to_remove cols_to_remove
          (setdiff1d [0;1;2]%nat rows_to_remove)
          (setdiff1d [0;1;2]%nat cols_to_remove) = (rows', cols') →
        (∀ r, r ∈ rows' ↔ r ∈ [0;1;2]%nat)
        ∧ (∀ c, c ∈ cols' ↔ c ∈ [0;1;2]%nat).
Proof.
  apply (select_deselect_restores m3 0%nat [0;1;2]%nat [0;1;2]%nat);
    try compute_done.
  exists 0%nat. split; compute_done.
Defined.

(** The recursive calls of one invocation only matter on the active sets
    that selecting a candidate produces. *)
Lemma candidates_loop_ext rec1 rec2 m rows cols cands s p :
  (∀ row s p, row ∈ cands →
     rec1 (rows_after m rows cols row) (cols_after m cols row) s p
     = rec2 (rows_after m rows cols row) (cols_after m cols row) s p) →
  candidates_loop rec1 m rows cols cands s p
  = candidates_loop rec2 m rows cols cands s p.
Proof.
  revert s p. induction cands as [|row cands IH]; intros s p Hext; [done|].
  cbn [candidates_loop]. rewrite Hext by left.
  destruct (rec2 _ _ _ _) as [[[solved s'] p']| |]; cbn [mbind outcome_bind];
    [|done..].
  destruct (truthy solved); [done|].
  destruct (pop s') as [s''| |]; cbn [mbind outcome_bind]; [|done..].
  apply IH. intros row' s0 p0 Hin. apply Hext. by right.
Qed.

Lemma solve_body_ext rec1 rec2 m rows cols s p :
  rect m → rows_ok m rows → cols_ok m cols →
  (∀ row c s p, row ∈ rows → c ∈ cols → covers m row c →
     rec1 (rows_after m rows cols row) (cols_after m cols row) s p
     = rec2 (rows_after m rows cols row) (cols_after m cols row) s p) →
  solve_body rec1 m m rows cols s p = solve_body rec2 m m rows cols s p.
Proof.
  intros Hm Hr Hc Hext.
  destruct (decide (cols = [])) as [->|Hne]; [done|].
  destruct (min_col_spec m rows cols) as (i & col & Hmin & Hi & _); [done..|].
  apply list_elem_of_lookup_2 in Hi.
  rewrite !(solve_body_canon _ m rows cols s p col _) by done.
  destruct (decide _); [done|].
  apply candidates_loop_ext.
  intros row s0 p0 [Hcov Hrow]%list_elem_of_filter. by apply (Hext row col).
Qed.

(** C5: the active sets handed to every recursive call of an invocation of
    [solve] stay inside the matrix, and its active columns are among the
    invocation's own and fewer, so the invocation is indifferent to what
    [solve] would do on any other active sets; and [solve] returns as soon
    as the fuel exceeds the number of its active columns, with a result that
    no longer depends on the fuel. *)
Theorem solve_recursion_shrinks m active_rows active_cols solution solution_path :
  rect m → rows_ok m active_rows → cols_ok m active_cols →
  (∀ rec,
     solve_body rec m m active_rows active_cols solution solution_path
     = solve_body
         (guard (λ rows' cols', shrunk cols' active_cols
                                ∧ rows_ok m rows' ∧ cols_ok m cols') rec)
         m m active_rows active_cols solution solution_path)
  ∧ ∃ solved solution' solution_path',
      ∀ fuel, (length active_cols < fuel)%nat →
        solve fuel m m active_rows active_cols solution solution_path
        = Ret (solved, solution', solution_path').
Proof.
  intros Hm Hr Hc. split.
  - intros rec. apply solve_body_ext; [done..|].
    intros row c s p Hrow Hcol Hcov. unfold guard.
    destruct (decide _) as [|Hn]; [done|]. destruct Hn.
    unfold shrunk. split_and!.
    + intros x [? _]%elem_of_cols_after. done.
    + by eapply cols_after_shrinks.
    + by apply rows_ok_after.
    + by apply cols_ok_after.
  - destruct (run_total m active_rows active_cols) as (res & T & Q & Hrun);
      [done..|].
    exists res, (solution ++ T), (solution_path ++ Q). intros fuel Hf.
    by apply solve_run.
Qed.

Lemma solve_recursion_shrinks_witness :
  (∀ rec,
     solve_body rec m3 m3 [0;1;2]%nat [0;1;2]%nat [] []
     = solve_body
         (guard (λ rows' cols', shrunk cols' [0;1;2]%nat
                                ∧ rows_ok m3 rows' ∧ cols_ok m3 cols') rec)
         m3 m3 [0;1;2]%nat [0;1;2]%nat [] [])
  ∧ ∃ solved solution' solution_path',
      ∀ fuel, (length [0;1;2]%nat < fuel)%nat →
        solve fuel m3 m3 [0;1;2]%nat [0;1;2]%nat [] []
        = Ret (solved, solution', solution_path').
Proof.
  apply (solve_recursion_shrinks m3 [0;1;2]%nat [0;1;2]%nat [] []);
    compute_done.
Defined.

Lemma ascending_seq j n : ascending (seq j n).
Proof.
  unfold ascending. revert j. induction n as [|n IH]; intros j; simpl.
  - constructor.
  - constructor; [apply IH|]. destruct n; simpl; constructor. lia.
Qed.

Lemma StronglySorted_ascending l : StronglySorted lt l → ascending l.
Proof. apply StronglySorted_Sorted. Qed.

Lemma solve_asserting_eq m fuel rows cols s p :
  rect m → rows_ok m rows → cols_ok m cols →
  ascending rows → ascending cols →
  solve_asserting both_ascending fuel m m rows cols s p
  = solve fuel m m rows cols s p.
Proof.
  intros Hm. revert rows cols s p.
  induction fuel as [|fuel IH]; intros rows cols s p Hr Hc Har Hac; [done|].
  cbn [solve_asserting solve].
  destruct (decide (both_ascending rows cols)) as [_|Hn]; [|by destruct Hn].
  apply solve_body_ext; [done..|].
  intros row c s0 p0 _ _ _. apply IH.
  - by apply rows_ok_after.
  - by apply cols_ok_after.
  - apply StronglySorted_ascending, rows_after_sorted.
  - apply StronglySorted_ascending, cols_after_sorted.
Qed.

(** C9: the lists of the top-level call are strictly ascending; on
    strictly ascending (hence duplicate-free) active sets [solve] returns
    what the variant returns that checks, at the entry of every invocation,
    that both lists are strictly ascending, so the check never fails; and
    the candidate rows of an invocation are then strictly ascending too. *)
Theorem solve_entry_lists_ascending m active_rows active_cols solution
    solution_path :
  rect m → rows_ok m active_rows → cols_ok m active_cols →
  both_ascending active_rows active_cols →
  both_ascending (seq 0 (shape0 m)) (seq 0 (shape1 m))
  ∧ NoDup active_rows ∧ NoDup active_cols
  ∧ (∃ solved solution' solution_path',
       ∀ fuel, (length active_cols < fuel)%nat →
         solve_asserting both_ascending fuel m m active_rows active_cols
           solution solution_path
         = Ret (solved, solution', solution_path')
         ∧ solve fuel m m active_rows active_cols solution solution_path
           = Ret (solved, solution', solution_path'))
  ∧ ∀ col, col ∈ active_cols →
      ∃ candidate_rows,
        (vals ← traverse (λ r, getitem2 m r col) active_rows;
         take_idx active_rows (flatnonzero vals)) = Ret candidate_rows
        ∧ ascending candidate_rows.
Proof.
  intros Hm Hr Hc [Har Hac]. split_and!.
  - split; apply ascending_seq.
  - apply StronglySorted_lt_NoDup, Sorted_StronglySorted; [apply _|done].
  - apply StronglySorted_lt_NoDup, Sorted_StronglySorted; [apply _|done].
  - destruct (run_total m active_rows active_cols) as (res & T & Q & Hrun);
      [done..|].
    exists res, (solution ++ T), (solution_path ++ Q). intros fuel Hf.
    rewrite solve_asserting_eq by done. split; by apply solve_run.
  - intros col Hcol. exists (filter (λ r, covers m r col) active_rows).
    rewrite traverse_col; [|done|done|].
    2:{ unfold cols_ok in Hc. rewrite Forall_forall in Hc. auto. }
    cbn [mbind outcome_bind]. rewrite take_idx_flatnonzero. split; [done|].
    apply StronglySorted_ascending, StronglySorted_filter.
    apply Sorted_StronglySorted; [apply _|done].
Qed.

Lemma solve_entry_lists_ascending_witness :
  both_ascending (seq 0 (shape0 m3)) (seq 0 (shape1 m3))
  ∧ NoDup [0;1;2]%nat ∧ NoDup [0;1;2]%nat
  ∧ (∃ solved solution' solution_path',
       ∀ fuel, (length [0;1;2]%nat < fuel)%nat →
         solve_asserting both_ascending fuel m3 m3 [0;1;2]%nat [0;1;2]%nat
           [] []
         = Ret (solved, solution', solution_path')
         ∧ solve fuel m3 m3 [0;1;2]%nat [0;1;2]%nat [] []
           = Ret (solved, solution', solution_path'))
  ∧ ∀ col, col ∈ [0;1;2]%nat →
      ∃ candidate_rows,
        (vals ← traverse (λ r, getitem2 m3 r col) [0;1;2]%nat;
         take_idx [0;1;2]%nat (flatnonzero vals)) = Ret candidate_rows
        ∧ ascending candidate_rows.
Proof.
  apply (solve_entry_lists_ascending m3 [0;1;2]%nat [0;1;2]%nat [] []);
    compute_done.
Defined.


(** ** [create_cover] on a well-formed puzzle *)

Lemma foldM_ext_in {A St} (f g : St → A → outcome St) s l :
  (∀ s x, x ∈ l → f s x = g s x) → foldM f s l = foldM g s l.
Proof.
  revert s. induction l as [|x l IH]; intros s H; [done|]. simpl.
  rewrite H by left. destruct (g s x); simpl; [|done..].
  apply IH. intros s' y Hy. apply H. by right.
Qed.

Lemma foldM_fmap {A B St} (f : St → B → outcome St) (g : A → B) s l :
  foldM f s (g <$> l) = foldM (λ s x, f s (g x)) s l.
Proof.
  revert s. induction l as [|x l IH]; intros s; [done|].
  rewrite fmap_cons. simpl. destruct (f s (g x)); simpl; auto.
Qed.

Lemma foldM_bind {A B St} (f : St → B → outcome St) (g : A → list B) s l :
  foldM f s (l ≫= g) = foldM (λ s x, foldM f s (g x)) s l.
Proof.
  revert s. induction l as [|x l IH]; intros s; [done|].
  rewrite bind_cons, foldM_app. simpl.
  destruct (foldM f s (g x)); simpl; auto.
Qed.

Lemma bind_Ret_r {A} (m : outcome A) : (a ← m; Ret a) = m.
Proof. by destruct m. Qed.

Lemma range_seqZ n : range 1 (n + 1) = seqZ 1 n.
Proof.
  unfold range, seqZ. replace (n + 1 - 1) with n by lia.
  apply list_fmap_ext. intros _ k _. lia.
Qed.

Lemma create_cover_cell_flat sudoku gw bw row col st v :
  getitem2 sudoku row col = Ret v →
  create_cover_cell sudoku gw bw row st col
  = foldM (add_step gw bw) st (cell_possibilities gw row col v).
Proof.
  intros Hv. unfold create_cover_cell, cell_possibilities.
  destruct st as [cover poss]. rewrite Hv. cbn [mbind outcome_bind].
  destruct (decide (v ≠ 0)) as [Hnz|Hz].
  - cbn [foldM add_step].
    by destruct (add_possibility (row, col, v) cover (length poss) gw bw).
  - rewrite range_seqZ, foldM_fmap. apply foldM_ext_in.
    by intros [cover' poss'] k _.
Qed.

Lemma wf_sudoku_rect gw bw sudoku :
  wf_sudoku gw bw sudoku → rect sudoku ∧ shape0 sudoku = gw
  ∧ (sudoku ≠ [] → shape1 sudoku = gw).
Proof.
  intros (_ & Hlen & Hrows). unfold rect, shape0, shape1.
  split_and!; [|done|].
  - destruct sudoku as [|r0 rest]; [constructor|].
    apply Forall_cons in Hrows as [[Hr0 _] Hrest]. constructor; [done|].
    eapply Forall_impl; [exact Hrest|]. simpl. intros r [-> _]. done.
  - destruct sudoku as [|r0 rest]; [done|]. intros _.
    by apply Forall_cons in Hrows as [[Hr0 _] _].
Qed.

Lemma wf_sudoku_getitem2 gw bw sudoku row col :
  wf_sudoku gw bw sudoku → (row < gw)%nat → (col < gw)%nat →
  getitem2 sudoku row col = Ret (entry sudoku row col).
Proof.
  intros Hwf Hr Hc. destruct (wf_sudoku_rect _ _ _ Hwf) as (Hrect & Hs0 & Hs1).
  apply getitem2_entry; [done|lia|].
  rewrite Hs1; [done|]. intros ->. simpl in Hs0. lia.
Qed.

Lemma wf_sudoku_entry gw bw sudoku row col :
  wf_sudoku gw bw sudoku → 0 ≤ entry sudoku row col ≤ Z.of_nat gw.
Proof.
  intros (_ & _ & Hrows). unfold entry.
  destruct (sudoku !! row) as [r|] eqn:Hr; simpl; [|lia].
  destruct (r !! col) as [v|] eqn:Hv; simpl; [|lia].
  rewrite Forall_lookup in Hrows. destruct (Hrows _ _ Hr) as [_ Hvals].
  rewrite Forall_lookup in Hvals. eauto.
Qed.

(** The two nested loops visit the possibilities in the order of
    [spec_possibilities]. *)
Lemma create_cover_loops gw bw sudoku st :
  wf_sudoku gw bw sudoku →
  foldM (λ st row,
           foldM (create_cover_cell sudoku (Z.of_nat gw) (Z.of_nat bw) row)
                 st (seq 0 gw))
        st (seq 0 gw)
  = foldM (add_step (Z.of_nat gw) (Z.of_nat bw)) st
      (spec_possibilities gw sudoku).
Proof.
  intros Hwf. unfold spec_possibilities. rewrite foldM_bind.
  apply foldM_ext_in. intros st' row Hrow%elem_of_seq.
  rewrite foldM_bind. apply foldM_ext_in. intros st'' col Hcol%elem_of_seq.
  apply create_cover_cell_flat, (wf_sudoku_getitem2 gw bw); [done|lia..].
Qed.

(** *** One row of the cover *)

Lemma setitem2_at cover i row j v :
  (i < length cover)%nat → 0 ≤ j < Z.of_nat (length row) →
  setitem2 (<[i:=row]> cover) i j v
  = Ret (<[i := <[Z.to_nat j := v]> row]> cover).
Proof.
  intros Hi Hj. unfold setitem2.
  rewrite (proj2 (getitem_Ret _ _ row)) by by apply list_lookup_insert_eq.
  cbn [mbind outcome_bind]. unfold norm_index.
  destruct (decide (0 ≤ j < Z.of_nat (length row))); [|done].
  cbn [mbind outcome_bind]. by rewrite list_insert_insert_eq.
Qed.

Lemma block_idx_bounds (g b r c : Z) :
  0 < b → g = b * b → 0 ≤ r < g → 0 ≤ c < g →
  (r `div` b * g) `div` b + c `div` b = block_index g b r c
  ∧ 0 ≤ block_index g b r c < g.
Proof.
  intros Hb -> Hr Hc. unfold block_index.
  rewrite Z.mul_assoc, Z.div_mul, Z.div_mul by lia. split; [done|].
  assert (0 ≤ r `div` b < b).
  { split; [apply Z.div_pos; lia|apply Z.div_lt_upper_bound; lia]. }
  assert (0 ≤ c `div` b < b).
  { split; [apply Z.div_pos; lia|apply Z.div_lt_upper_bound; lia]. }
  nia.
Qed.

Lemma valid_possibility_bw gw bw r c n :
  (bw * bw = gw)%nat → valid_possibility gw (r, c, n) →
  0 < Z.of_nat bw ∧ Z.of_nat gw = Z.of_nat bw * Z.of_nat bw.
Proof. intros <- (Hr & _ & _). split; nia. Qed.

(** The four columns of a possibility lie in the four classes of
    constraints, one in each. *)
Lemma spec_columns_bounds gw bw r c n :
  (bw * bw = gw)%nat → valid_possibility gw (r, c, n) →
  let g := Z.of_nat gw in
  ∃ j1 j2 j3 j4,
    spec_columns g (Z.of_nat bw) (r, c, n) = [j1; j2; j3; j4]
    ∧ 0 ≤ j1 < g * g ∧ g * g ≤ j2 < 2 * g * g
    ∧ 2 * g * g ≤ j3 < 3 * g * g ∧ 3 * g * g ≤ j4 < 4 * g * g.
Proof.
  intros Hbw Hp g.
  destruct (valid_possibility_bw gw bw r c n Hbw Hp) as [Hb Hg].
  destruct Hp as (Hr & Hc & Hn).
  destruct (block_idx_bounds g (Z.of_nat bw) (Z.of_nat r) (Z.of_nat c))
    as [_ HB]; [done|done|lia|lia|].
  eexists _, _, _, _. split; [done|].
  fold g in Hn. clear Hg. split_and!; nia.
Qed.

Lemma four_inserts (K : nat) (j1 j2 j3 j4 : Z) :
  0 ≤ j1 < Z.of_nat K → 0 ≤ j2 < Z.of_nat K →
  0 ≤ j3 < Z.of_nat K → 0 ≤ j4 < Z.of_nat K →
  <[Z.to_nat j4 := 1]>
    (<[Z.to_nat j3 := 1]> (<[Z.to_nat j2 := 1]> (<[Z.to_nat j1 := 1]>
       (replicate K 0))))
  = (λ c, if decide (Z.of_nat c ∈ [j1; j2; j3; j4]) then 1 else 0) <$> seq 0 K.
Proof.
  intros H1 H2 H3 H4. apply list_eq. intros c.
  rewrite !list_lookup_insert, !length_insert, length_replicate,
    list_lookup_fmap.
  destruct (decide (c < K)%nat) as [Hc|Hc].
  - rewrite lookup_seq_lt, lookup_replicate_2 by done. simpl.
    destruct (decide (Z.of_nat c ∈ [j1; j2; j3; j4])) as [Hin|Hin];
      rewrite !elem_of_cons, elem_of_nil in Hin;
      repeat case_decide; try done; exfalso; lia.
  - rewrite lookup_seq_ge by lia. simpl.
    rewrite (proj1 (lookup_replicate_None _ _ _)) by lia.
    repeat case_decide; try done; lia.
Qed.

Lemma add_possibility_spec gw bw p cover i :
  (bw * bw = gw)%nat → valid_possibility gw p →
  cover !! i
  = Some (replicate (Z.to_nat (4 * Z.of_nat gw * Z.of_nat gw)) 0) →
  add_possibility p cover i (Z.of_nat gw) (Z.of_nat bw)
  = Ret (<[i := cover_row (Z.of_nat gw) (Z.of_nat bw) p]> cover).
Proof.
  intros Hbw Hp Hrow. destruct p as [[r c] n].
  destruct (valid_possibility_bw gw bw r c n Hbw Hp) as [Hb Hg].
  destruct (spec_columns_bounds gw bw r c n Hbw Hp)
    as (j1 & j2 & j3 & j4 & Hcols & B1 & B2 & B3 & B4).
  destruct (block_idx_bounds (Z.of_nat gw) (Z.of_nat bw) (Z.of_nat r)
              (Z.of_nat c)) as [HB _]; [done|done|destruct Hp; lia..|].
  unfold cover_row. rewrite Hcols. injection Hcols as <- <- <- <-.
  set (K := Z.to_nat (4 * Z.of_nat gw * Z.of_nat gw)) in *.
  assert (i < length cover)%nat as Hi by by eapply lookup_lt_Some.
  rewrite <-(list_insert_id cover i _ Hrow) at 1.
  unfold add_possibility.
  rewrite setitem2_at; [|done|rewrite length_replicate; lia].
  cbn [mbind outcome_bind].
  rewrite setitem2_at; [|done|rewrite length_insert, length_replicate; lia].
  cbn [mbind outcome_bind].
  rewrite setitem2_at;
    [|done|rewrite !length_insert, length_replicate; lia].
  cbn [mbind outcome_bind]. unfold floordiv.
  destruct (decide (Z.of_nat bw = 0)); [lia|]. cbn [mbind outcome_bind].
  rewrite HB.
  rewrite setitem2_at;
    [|done|rewrite !length_insert, length_replicate; lia].
  do 2 f_equal. apply four_inserts; lia.
Qed.

(** *** All rows of the cover *)

Lemma add_steps_spec gw bw pre todo extra :
  (bw * bw = gw)%nat → Forall (valid_possibility gw) todo →
  let zeros := replicate (Z.to_nat (4 * Z.of_nat gw * Z.of_nat gw)) 0 in
  let row := cover_row (Z.of_nat gw) (Z.of_nat bw) in
  foldM (add_step (Z.of_nat gw) (Z.of_nat bw))
    ((row <$> pre) ++ replicate (length todo + extra) zeros, pre) todo
  = Ret ((row <$> (pre ++ todo)) ++ replicate extra zeros, pre ++ todo).
Proof.
  intros Hbw Htodo zeros row. revert pre.
  induction Htodo as [|p todo Hp Htodo IH]; intros pre.
  - simpl. by rewrite app_nil_r.
  - cbn [foldM add_step length].
    rewrite (add_possibility_spec gw bw p); [|done|done|].
    2:{ rewrite lookup_app_r, length_fmap, Nat.sub_diag by (rewrite length_fmap; lia).
        done. }
    cbn [mbind outcome_bind].
    replace (<[length pre:=row p]>
               ((row <$> pre) ++ replicate (S (length todo) + extra) zeros))
      with ((row <$> (pre ++ [p])) ++ replicate (length todo + extra) zeros).
    + rewrite IH. by rewrite <-app_assoc.
    + rewrite fmap_app, <-app_assoc.
      rewrite insert_app_r_alt by (rewrite length_fmap; lia).
      by rewrite length_fmap, Nat.sub_diag.
Qed.

(** *** Number of rows *)

Lemma length_bind_sum {A B} (k : A → list B) l :
  length (l ≫= k) = sum_list_with (λ x, length (k x)) l.
Proof.
  induction l as [|x l IH]; [done|].
  rewrite bind_cons, length_app, IH. done.
Qed.

Lemma sum_list_with_ext_in {A} (f g : A → nat) l :
  (∀ x, x ∈ l → f x = g x) → sum_list_with f l = sum_list_with g l.
Proof.
  induction l as [|x l IH]; intros H; [done|]. simpl.
  rewrite H by left. f_equal. apply IH. intros y Hy. apply H. by right.
Qed.

Lemma sum_list_with_fmap {A B} (f : B → nat) (g : A → B) l :
  sum_list_with f (g <$> l) = sum_list_with (f ∘ g) l.
Proof. induction l as [|x l IH]; [done|]. rewrite fmap_cons. simpl. by rewrite IH. Qed.

Lemma length_filter_join {A} (P : A → Prop) `{∀ x, Decision (P x)} (ls : list (list A)) :
  length (filter P (mjoin ls)) = sum_list_with (λ l, length (filter P l)) ls.
Proof.
  induction ls as [|l ls IH]; [done|]. simpl.
  by rewrite filter_app, length_app, IH.
Qed.

Lemma weight_sum g (l : list Z) :
  (sum_list_with (weight g) l + g * length (filter (λ v : Z, v ≠ 0%Z) l)
   = length (filter (λ v : Z, v ≠ 0%Z) l) + g * length l)%nat.
Proof.
  induction l as [|v l IH]; [simpl; lia|].
  rewrite filter_cons.
  change (sum_list_with (weight g) (v :: l))
    with (weight g v + sum_list_with (weight g) l)%nat.
  unfold weight at 1. destruct (decide (v ≠ 0)); cbn [length]; nia.
Qed.

Lemma length_cell_possibilities (g : nat) r c v :
  length (cell_possibilities (Z.of_nat g) r c v) = weight g v.
Proof.
  unfold cell_possibilities, weight. destruct (decide (v ≠ 0)); [done|].
  rewrite length_fmap, length_seqZ. lia.
Qed.

Lemma wf_sudoku_tabulate gw bw sudoku :
  wf_sudoku gw bw sudoku →
  sudoku = (λ r, entry sudoku r <$> seq 0 gw) <$> seq 0 gw.
Proof.
  intros Hwf. destruct (wf_sudoku_rect _ _ _ Hwf) as (Hrect & Hs0 & Hs1).
  apply list_eq. intros r. rewrite list_lookup_fmap.
  unfold shape0 in Hs0.
  destruct (decide (r < gw)%nat) as [Hr|Hr].
  - rewrite lookup_seq_lt by done. simpl.
    destruct (lookup_lt_is_Some_2 sudoku r) as [row Hrow]; [lia|].
    rewrite Hrow. f_equal. rewrite <-Hs1.
    + by apply row_entries.
    + intros ->. by rewrite lookup_nil in Hrow.
  - rewrite lookup_seq_ge by lia. apply lookup_ge_None. lia.
Qed.

Lemma length_nested_possibilities (g : nat) (f : nat → nat → Z) (rs cs : list nat) :
  length (rs ≫= λ r, cs ≫= λ c, cell_possibilities (Z.of_nat g) r c (f r c))
  = sum_list_with (weight g) (mjoin ((λ r, f r <$> cs) <$> rs)).
Proof.
  induction rs as [|r rs IH]; [done|].
  rewrite bind_cons, length_app, IH, fmap_cons. cbn [mjoin list_join].
  rewrite sum_list_with_app. f_equal.
  rewrite length_bind_sum, sum_list_with_fmap.
  apply sum_list_with_ext_in. intros c _. apply length_cell_possibilities.
Qed.

Lemma length_spec_possibilities gw bw sudoku :
  wf_sudoku gw bw sudoku →
  Z.of_nat (length (spec_possibilities gw sudoku))
  = (Z.of_nat gw * Z.of_nat gw - Z.of_nat (count_nonzero sudoku)) * Z.of_nat gw
    + Z.of_nat (count_nonzero sudoku).
Proof.
  intros Hwf. unfold spec_possibilities, count_nonzero.
  pose proof (weight_sum gw (mjoin sudoku)) as Hw.
  pose proof (wf_sudoku_tabulate _ _ _ Hwf) as Htab.
  assert (length (mjoin sudoku) = (gw * gw)%nat) as Hlen.
  { rewrite Htab, length_join, <-list_fmap_compose.
    rewrite (sum_list_fmap_same gw), length_seq; [done|].
    apply Forall_forall. intros r _. simpl. by rewrite length_fmap, length_seq. }
  rewrite (length_nested_possibilities gw (entry sudoku)), <-Htab.
  rewrite Hlen in Hw. nia.
Qed.


Lemma elem_of_spec_possibilities gw sudoku r c n :
  (r, c, n) ∈ spec_possibilities gw sudoku
  ↔ (r < gw)%nat ∧ (c < gw)%nat
    ∧ (n ≠ 0 ∧ entry sudoku r c = n
       ∨ entry sudoku r c = 0 ∧ 1 ≤ n ≤ Z.of_nat gw).
Proof.
  unfold spec_possibilities. rewrite list_elem_of_bind. split.
  - intros (r' & (c' & Hp & Hc%elem_of_seq)%list_elem_of_bind & Hr%elem_of_seq).
    unfold cell_possibilities in Hp.
    destruct (decide (entry sudoku r' c' ≠ 0)) as [Hv|Hv].
    + apply list_elem_of_singleton in Hp. injection Hp as -> -> ->.
      split_and!; [lia|lia|]. left. done.
    + apply list_elem_of_fmap in Hp as (k & [= -> -> ->] & Hk%elem_of_seqZ).
      split_and!; [lia|lia|]. right. split; [|lia].
      destruct (decide (entry sudoku r' c' = 0)); tauto.
  - intros (Hr & Hc & Hn). exists r. split; [|apply elem_of_seq; lia].
    apply list_elem_of_bind. exists c. split; [|apply elem_of_seq; lia].
    unfold cell_possibilities. destruct Hn as [[Hn <-]|[Hz Hn]].
    + destruct (decide _); [|done]. by apply list_elem_of_singleton.
    + rewrite Hz. destruct (decide (0 ≠ 0)); [done|].
      apply list_elem_of_fmap. exists n. split; [done|].
      apply elem_of_seqZ. lia.
Qed.

Lemma valid_spec_possibilities gw bw sudoku :
  wf_sudoku gw bw sudoku →
  Forall (valid_possibility gw) (spec_possibilities gw sudoku).
Proof.
  intros Hwf. apply Forall_forall. intros [[r c] n].
  rewrite elem_of_spec_possibilities. intros (Hr & Hc & Hn).
  pose proof (wf_sudoku_entry gw bw sudoku r c Hwf).
  unfold valid_possibility. split_and!; [done|done|lia|lia].
Qed.

(** [create_cover] on a well-formed puzzle. *)
Lemma create_cover_spec gw bw sudoku :
  wf_sudoku gw bw sudoku →
  create_cover sudoku (Z.of_nat gw) (Z.of_nat bw)
  = Ret (cover_row (Z.of_nat gw) (Z.of_nat bw) <$> spec_possibilities gw sudoku,
         spec_possibilities gw sudoku).
Proof.
  intros Hwf. unfold create_cover.
  destruct (wf_sudoku_rect _ _ _ Hwf) as (_ & -> & _).
  rewrite <-(length_spec_possibilities gw bw) by done.
  unfold np_zeros. destruct (decide _) as [[?|?]|_]; [lia|nia|].
  cbn [mbind outcome_bind]. rewrite Nat2Z.id.
  rewrite create_cover_loops by done.
  pose proof (add_steps_spec gw bw [] (spec_possibilities gw sudoku) 0) as H.
  cbn [fmap list_fmap app replicate] in H. rewrite Nat.add_0_r, app_nil_r in H.
  apply H; [by destruct Hwf|by eapply valid_spec_possibilities].
Qed.

Lemma length_cover_row gw bw p :
  length (cover_row gw bw p) = Z.to_nat (4 * gw * gw).
Proof. unfold cover_row. by rewrite length_fmap, length_seq. Qed.

Lemma lookup_cover_row gw bw p c :
  (c < Z.to_nat (4 * gw * gw))%nat →
  cover_row gw bw p !! c
  = Some (if decide (Z.of_nat c ∈ spec_columns gw bw p) then 1 else 0).
Proof.
  intros Hc. unfold cover_row. by rewrite list_lookup_fmap, lookup_seq_lt.
Qed.

Lemma spec_columns_range gw bw p :
  (bw * bw = gw)%nat → valid_possibility gw p →
  NoDup (spec_columns (Z.of_nat gw) (Z.of_nat bw) p)
  ∧ Forall (λ j, 0 ≤ j < 4 * Z.of_nat gw * Z.of_nat gw)
      (spec_columns (Z.of_nat gw) (Z.of_nat bw) p).
Proof.
  intros Hbw Hp. destruct p as [[r c] n].
  destruct (spec_columns_bounds gw bw r c n Hbw Hp)
    as (j1 & j2 & j3 & j4 & -> & B1 & B2 & B3 & B4).
  split.
  - repeat (apply NoDup_cons; split;
      [rewrite ?elem_of_cons, elem_of_nil; lia|]). apply NoDup_nil_2.
  - repeat (apply Forall_cons; split; [lia|]). constructor.
Qed.

(** C2: on a well-formed puzzle [create_cover] returns the possibilities in
    row-major cell order (one per filled cell, the digits 1 to [gw] in
    ascending order per empty cell) and a cover matrix with one row per
    possibility, whose entries are 1 in the four columns of the possibility,
    which are distinct and inside the matrix, and 0 elsewhere. *)
Theorem create_cover_rows_and_columns gw bw sudoku :
  wf_sudoku gw bw sudoku →
  ∃ cover,
    create_cover sudoku (Z.of_nat gw) (Z.of_nat bw)
    = Ret (cover, spec_possibilities gw sudoku)
    ∧ length cover = length (spec_possibilities gw sudoku)
    ∧ ∀ i p, spec_possibilities gw sudoku !! i = Some p →
        NoDup (spec_columns (Z.of_nat gw) (Z.of_nat bw) p)
        ∧ Forall (λ j, 0 ≤ j < 4 * Z.of_nat gw * Z.of_nat gw)
            (spec_columns (Z.of_nat gw) (Z.of_nat bw) p)
        ∧ ∃ row,
            cover !! i = Some row
            ∧ Z.of_nat (length row) = 4 * Z.of_nat gw * Z.of_nat gw
            ∧ ∀ c v, row !! c = Some v →
                v = if decide (Z.of_nat c
                               ∈ spec_columns (Z.of_nat gw) (Z.of_nat bw) p)
                    then 1 else 0.
Proof.
  intros Hwf. eexists. split; [by apply create_cover_spec|].
  split; [by rewrite length_fmap|].
  intros i p Hp.
  assert (valid_possibility gw p) as Hv.
  { pose proof (valid_spec_possibilities gw bw sudoku Hwf) as H.
    rewrite Forall_lookup in H. eauto. }
  destruct (spec_columns_range gw bw p) as [Hnd Hrange]; [by destruct Hwf|done|].
  split_and!; [done|done|].
  exists (cover_row (Z.of_nat gw) (Z.of_nat bw) p). split_and!.
  - by rewrite list_lookup_fmap, Hp.
  - rewrite length_cover_row. lia.
  - intros c v Hc. pose proof (lookup_lt_Some _ _ _ Hc) as Hlt.
    rewrite length_cover_row in Hlt. rewrite lookup_cover_row in Hc by done.
    by injection Hc as <-.
Qed.

Lemma create_cover_rows_and_columns_witness :
  ∃ cover,
    create_cover g4 (Z.of_nat 4) (Z.of_nat 2)
    = Ret (cover, spec_possibilities 4 g4)
    ∧ length cover = length (spec_possibilities 4 g4)
    ∧ ∀ i p, spec_possibilities 4 g4 !! i = Some p →
        NoDup (spec_columns (Z.of_nat 4) (Z.of_nat 2) p)
        ∧ Forall (λ j, 0 ≤ j < 4 * Z.of_nat 4 * Z.of_nat 4)
            (spec_columns (Z.of_nat 4) (Z.of_nat 2) p)
        ∧ ∃ row,
            cover !! i = Some row
            ∧ Z.of_nat (length row) = 4 * Z.of_nat 4 * Z.of_nat 4
            ∧ ∀ c v, row !! c = Some v →
                v = if decide (Z.of_nat c
                               ∈ spec_columns (Z.of_nat 4) (Z.of_nat 2) p)
                    then 1 else 0.
Proof. apply (create_cover_rows_and_columns 4 2 g4). compute_done. Defined.


(** ** What a successful search has selected *)

Lemma closed_after m rows cols row :
  closed m rows cols →
  closed m (rows_after m rows cols row) (cols_after m cols row).
Proof.
  intros Hcl r c [Hr Hn]%elem_of_rows_after Hcov.
  apply elem_of_cols_after. split; [by eapply Hcl|].
  intros Hrow. apply Hn. exists c. split_and!; [by eapply Hcl|done|done].
Qed.

Lemma rows_after_apart m rows cols row r :
  closed m rows cols → row ∈ rows → r ∈ rows_after m rows cols row →
  apart m row r.
Proof.
  intros Hcl Hrow [Hr Hn]%elem_of_rows_after c Hc1 Hc2.
  apply Hn. exists c. split_and!; [by eapply Hcl|done|done].
Qed.

(** A successful search selects active rows that cover every active column
    exactly once and no other column. *)
Lemma run_exact_cover m md rows cols res T Q :
  run m md rows cols res T Q →
  closed m rows cols → mode_rows md rows ⊆ rows → res = PyTrue →
  T ⊆ rows
  ∧ ∀ c, (c ∈ cols → length (filter (λ r, covers m r c) T) = 1%nat)
         ∧ (c ∉ cols → filter (λ r, covers m r c) T = []).
Proof.
  induction 1 as
    [rows|rows cols col Hne Hmin|rows cols col count res T Q Hne Hmin Hcnt Hrun IH
    |rows cols|rows cols row cands T Q Hrun IH
    |rows cols row cands res0 Q res T' Q' Hres0 Hrun0 IH0 Hrun IH];
    intros Hcl Hsub Hres; try done.
  - split; [apply list_subseteq_nil|]. intros c. split; [|done].
    by intros ?%elem_of_nil.
  - apply IH; [done| |done]. simpl.
    intros r [_ Hr]%list_elem_of_filter. done.
  - simpl in Hsub. assert (row ∈ rows) as Hrow by (apply Hsub; left).
    destruct IH as [HT Hc]; [by apply closed_after|apply list_subseteq_nil|done|].
    split.
    + intros r [->|Hr]%elem_of_cons; [done|].
      by apply HT, elem_of_rows_after in Hr as [? _].
    + intros c. destruct (Hc c) as [Hin Hout]. rewrite filter_cons.
      destruct (decide (covers m row c)) as [Hcov|Hcov].
      * assert (c ∈ cols) by by eapply Hcl.
        rewrite Hout; [|rewrite elem_of_cols_after; tauto]. done.
      * split.
        -- intros Hcin. apply Hin. by apply elem_of_cols_after.
        -- intros Hcout. apply Hout. rewrite elem_of_cols_after. tauto.
  - apply IH; [done| |done]. simpl in *.
    intros r Hr. apply Hsub. by right.
Qed.

(** ** The shape of the event log *)

Lemma opened_nil : opened [].
Proof. intros A r B H. by destruct A. Qed.

Lemma app_eq_split {A} (l1 l2 k1 : list A) x k2 :
  l1 ++ l2 = k1 ++ x :: k2 →
  (∃ k, l1 = k1 ++ x :: k ∧ k2 = k ++ l2)
  ∨ (∃ k, k1 = l1 ++ k ∧ l2 = k ++ x :: k2).
Proof.
  revert k1. induction l1 as [|y l1 IH]; intros k1 H; simpl in H.
  - right. exists k1. done.
  - destruct k1 as [|z k1]; simpl in H.
    + injection H as -> <-. left. exists l1. done.
    + injection H as -> H. destruct (IH k1 H) as [(k & -> & ->)|(k & -> & ->)].
      * left. exists k. done.
      * right. exists k. done.
Qed.

Lemma opened_app Q1 Q2 : opened Q1 → opened Q2 → opened (Q1 ++ Q2).
Proof.
  intros H1 H2 A r B [(k & -> & ->)|(k & -> & ->)]%app_eq_split.
  - by eapply H1.
  - apply elem_of_app. right. by eapply H2.
Qed.

Lemma opened_bracket row Q : opened Q → opened ((1, row) :: Q ++ [(0, row)]).
Proof.
  intros HQ A r B H.
  change ((1, row) :: Q ++ [(0, row)]) with ([(1, row)] ++ Q ++ [(0, row)]) in H.
  apply app_eq_split in H as [(k & H & ->)|(k & -> & H)].
  - destruct A as [|? [|? ?]]; simplify_eq/=.
  - apply elem_of_app. apply app_eq_split in H as [(k' & -> & ->)|(k' & -> & H)].
    + right. by eapply HQ.
    + destruct k' as [|? [|? ?]]; simplify_eq/=. left. by left.
Qed.

Lemma opened_select row Q : opened Q → opened ((1, row) :: Q).
Proof.
  intros HQ. apply (opened_app [(1, row)] Q); [|done].
  intros A r B H. destruct A as [|? [|? ?]]; simplify_eq/=.
Qed.

(** The events of a search: they concern active rows only, deselections
    follow selections, and on success every selected row [t] is followed
    only by events of rows apart from [t]. *)
Lemma run_events m md rows cols res T Q :
  run m md rows cols res T Q →
  closed m rows cols → mode_rows md rows ⊆ rows →
  Forall (λ e, e.2 ∈ rows) Q
  ∧ binary_events Q
  ∧ opened Q
  ∧ ∀ t, t ∈ T →
      ∃ Q1 Q2, Q = Q1 ++ (1, t) :: Q2 ∧ Forall (λ e, apart m t e.2) Q2.
Proof.
  induction 1 as
    [rows|rows cols col Hne Hmin|rows cols col count res T Q Hne Hmin Hcnt Hrun IH
    |rows cols|rows cols row cands T Q Hrun IH
    |rows cols row cands res0 Q res T' Q' Hres0 Hrun0 IH0 Hrun IH];
    intros Hcl Hsub.
  - split_and!; [constructor|constructor|apply opened_nil|].
    by intros t ?%elem_of_nil.
  - split_and!; [constructor|constructor|apply opened_nil|].
    by intros t ?%elem_of_nil.
  - apply IH; [done|]. simpl. intros r [_ Hr]%list_elem_of_filter. done.
  - split_and!; [constructor|constructor|apply opened_nil|].
    by intros t ?%elem_of_nil.
  - simpl in Hsub. assert (row ∈ rows) as Hrow by (apply Hsub; left).
    destruct IH as (Hin & Hbin & Hop & Hlast);
      [by apply closed_after|apply list_subseteq_nil|].
    split_and!.
    + constructor; [done|]. eapply Forall_impl; [exact Hin|].
      intros e He. by apply elem_of_rows_after in He as [? _].
    + constructor; [by right|done].
    + by apply opened_select.
    + intros t [->|Ht]%elem_of_cons.
      * exists [], Q. split; [done|]. eapply Forall_impl; [exact Hin|].
        intros e He. by eapply rows_after_apart.
      * destruct (Hlast t Ht) as (Q1 & Q2 & -> & Hap).
        exists ((1, row) :: Q1), Q2. done.
  - simpl in Hsub. assert (row ∈ rows) as Hrow by (apply Hsub; left).
    destruct IH0 as (Hin0 & Hbin0 & Hop0 & _);
      [by apply closed_after|apply list_subseteq_nil|].
    destruct IH as (Hin & Hbin & Hop & Hlast);
      [done|simpl; intros r Hr; apply Hsub; by right|].
    split_and!.
    + constructor; [done|]. apply Forall_app. split.
      * eapply Forall_impl; [exact Hin0|].
        intros e He. by apply elem_of_rows_after in He as [? _].
      * constructor; done.
    + constructor; [by right|]. apply Forall_app. split; [done|].
      constructor; [by left|done].
    + replace ((1, row) :: Q ++ (0, row) :: Q')
        with (((1, row) :: Q ++ [(0, row)]) ++ Q')
        by (simpl; by rewrite <-app_assoc).
      apply opened_app; [by apply opened_bracket|done].
    + intros t Ht. destruct (Hlast t Ht) as (Q1 & Q2 & -> & Hap).
      exists ((1, row) :: Q ++ (0, row) :: Q1), Q2. split; [|done].
      simpl. by rewrite <-app_assoc.
Qed.


(** ** More fuel does not change a result *)

Lemma solve_loop_mono (rec1 rec2 : solve_fn) m cands st x :
  (∀ rows cols s p y, rec1 rows cols s p = Ret y → rec2 rows cols s p = Ret y) →
  solve_loop rec1 m cands st = Ret x → solve_loop rec2 m cands st = Ret x.
Proof.
  intros Hrec. revert st.
  induction cands as [|row cands IH]; intros [[[rows cols] s] p]; [done|].
  cbn [solve_loop].
  destruct (select row m rows cols) as [[rr cr]| |]; cbn [mbind outcome_bind];
    [|done..].
  destruct (rec1 _ _ _ _) as [[[solved s'] p']| |] eqn:E1;
    cbn [mbind outcome_bind]; [|done..].
  rewrite (Hrec _ _ _ _ _ E1). cbn [mbind outcome_bind].
  destruct (truthy solved); [done|].
  destruct (pop s') as [s''| |]; cbn [mbind outcome_bind]; [|done..].
  apply IH.
Qed.

Lemma solve_body_mono (rec1 rec2 : solve_fn) mg mc rows cols s p x :
  (∀ rows cols s p y, rec1 rows cols s p = Ret y → rec2 rows cols s p = Ret y) →
  solve_body rec1 mg mc rows cols s p = Ret x →
  solve_body rec2 mg mc rows cols s p = Ret x.
Proof.
  intros Hrec. unfold solve_body.
  destruct (decide _); [done|].
  destruct (min_col mg rows cols) as [[col count]| |]; cbn [mbind outcome_bind];
    [|done..].
  destruct (decide _); [done|].
  destruct (traverse _ rows) as [vals| |]; cbn [mbind outcome_bind]; [|done..].
  destruct (take_idx rows _) as [cands| |]; cbn [mbind outcome_bind]; [|done..].
  by apply solve_loop_mono.
Qed.

Lemma solve_mono fuel fuel' mg mc rows cols s p x :
  (fuel ≤ fuel')%nat →
  solve fuel mg mc rows cols s p = Ret x →
  solve fuel' mg mc rows cols s p = Ret x.
Proof.
  revert fuel' rows cols s p x.
  induction fuel as [|fuel IH]; intros fuel' rows cols s p x Hle; [done|].
  destruct fuel' as [|fuel']; [lia|]. cbn [solve].
  apply solve_body_mono. intros ?????. apply IH. lia.
Qed.

(** Any result of [solve] is the one the relation describes. *)
Lemma solve_Ret_run m rows cols fuel s p res s' p' :
  rect m → rows_ok m rows → cols_ok m cols →
  solve fuel m m rows cols s p = Ret (res, s', p') →
  ∃ T Q, run m Entry rows cols res T Q ∧ s' = s ++ T ∧ p' = p ++ Q.
Proof.
  intros Hm Hr Hc Hs.
  destruct (run_total m rows cols) as (res0 & T & Q & Hrun); [done..|].
  pose proof (solve_run m rows cols res0 T Q (fuel `max` S (length cols)) s p
                Hrun Hm Hr Hc) as H.
  rewrite (solve_mono fuel _ _ _ _ _ _ _ _ (Nat.le_max_l _ _) Hs) in H.
  specialize (H ltac:(lia)). injection H as -> -> ->. eauto.
Qed.

(** ** The cover matrix of a well-formed puzzle *)

Section cover.
Context (gw bw : nat) (sudoku : matrix) (Hwf : wf_sudoku gw bw sudoku).

Let g : Z := Z.of_nat gw.
Let b : Z := Z.of_nat bw.
Let P : list possibility := spec_possibilities gw sudoku.
Let M : matrix := cover_row g b <$> P.
Let K : nat := Z.to_nat (4 * g * g).

Lemma cover_shape0 : shape0 M = length P.
Proof. unfold shape0, M. by rewrite length_fmap. Qed.

Lemma cover_shape1 : shape1 M = K.
Proof.
  unfold M. destruct P as [|p ps] eqn:E.
  - destruct gw as [|n] eqn:Egw; [done|].
    assert ((0%nat, 0%nat, if decide (entry sudoku 0 0 ≠ 0)
                           then entry sudoku 0 0 else 1) ∈ P) as Hin.
    { apply elem_of_spec_possibilities. split_and!; [lia|lia|].
      destruct (decide _) as [|Hz]; [by left|right].
      split; [|lia]. destruct (decide (entry sudoku 0 0 = 0)); tauto. }
    rewrite E in Hin. by apply elem_of_nil in Hin.
  - simpl. apply length_cover_row.
Qed.

Lemma cover_rect : rect M.
Proof.
  unfold rect. rewrite cover_shape1. unfold M.
  apply Forall_fmap, Forall_forall. intros p _. apply length_cover_row.
Qed.

Lemma cover_binary : binary M.
Proof.
  unfold binary, M. apply Forall_fmap, Forall_forall. intros p _.
  unfold cover_row. apply Forall_fmap, Forall_forall. intros c _. simpl.
  destruct (decide _); auto.
Qed.

Lemma P_valid i p : P !! i = Some p → valid_possibility gw p.
Proof.
  pose proof (valid_spec_possibilities gw bw sudoku Hwf) as H.
  rewrite Forall_lookup in H. apply H.
Qed.

Lemma entry_cover i c p :
  P !! i = Some p →
  entry M i c = if decide (Z.of_nat c ∈ spec_columns g b p) then 1 else 0.
Proof.
  intros Hp. unfold entry, M. rewrite list_lookup_fmap, Hp. simpl.
  destruct (decide (c < K)%nat) as [Hc|Hc].
  - by rewrite lookup_cover_row.
  - rewrite (proj2 (lookup_ge_None _ _)); [|rewrite length_cover_row; unfold K, g in Hc; lia].
    simpl. destruct (decide _) as [Hin|]; [|done].
    destruct (spec_columns_range gw bw p) as [_ Hr];
      [by destruct Hwf|by eapply P_valid|].
    rewrite Forall_forall in Hr. apply Hr in Hin. unfold K, g in Hc. lia.
Qed.

Lemma covers_cover i c :
  covers M i c ↔ ∃ p, P !! i = Some p ∧ Z.of_nat c ∈ spec_columns g b p.
Proof.
  unfold covers. destruct (P !! i) as [p|] eqn:Hp.
  - rewrite (entry_cover i c p Hp). destruct (decide _) as [Hin|Hin].
    + split; [eauto|done].
    + split; [done|]. intros (p' & [= <-] & ?). done.
  - unfold entry, M. rewrite list_lookup_fmap, Hp. simpl.
    split; [done|]. by intros (p' & ? & _).
Qed.

Lemma covers_cover_lt i c : covers M i c → (c < K)%nat.
Proof.
  intros (p & Hp & Hin)%covers_cover.
  destruct (spec_columns_range gw bw p) as [_ Hr];
    [by destruct Hwf|by eapply P_valid|].
  rewrite Forall_forall in Hr. apply Hr in Hin. unfold K, g. lia.
Qed.

Lemma cover_rows_ok : rows_ok M (seq 0 (shape0 M)).
Proof. apply Forall_forall. intros r Hr%elem_of_seq. lia. Qed.

Lemma cover_cols_ok : cols_ok M (seq 0 (shape1 M)).
Proof. apply Forall_forall. intros r Hr%elem_of_seq. lia. Qed.

Lemma cover_closed : closed M (seq 0 (shape0 M)) (seq 0 (shape1 M)).
Proof.
  intros r c _ Hc%covers_cover_lt. rewrite cover_shape1.
  apply elem_of_seq. lia.
Qed.
End cover.


(** ** Writing digits into a grid *)

Lemma setitem2_square n g r c v :
  square n g → (r < n)%nat → (c < n)%nat →
  ∃ g', setitem2 g r (Z.of_nat c) v = Ret g' ∧ square n g'
        ∧ ∀ r' c', entry g' r' c'
                   = if decide (r = r' ∧ c = c') then v else entry g r' c'.
Proof.
  intros [Hlen Hrows] Hr Hc.
  destruct (lookup_lt_is_Some_2 g r) as [row Hrow]; [lia|].
  assert (length row = n) as Hn.
  { rewrite Forall_lookup in Hrows. eauto. }
  exists (<[r := <[c := v]> row]> g). split_and!.
  - unfold setitem2. rewrite (proj2 (getitem_Ret _ _ _) Hrow).
    cbn [mbind outcome_bind]. unfold norm_index.
    destruct (decide _); [|lia]. cbn [mbind outcome_bind].
    by rewrite Nat2Z.id.
  - split; [by rewrite length_insert|].
    apply Forall_insert; [done|]. by rewrite length_insert.
  - intros r' c'. unfold entry. destruct (decide (r = r')) as [<-|Hne].
    + rewrite list_lookup_insert_eq, Hrow by lia. simpl.
      destruct (decide (c = c')) as [<-|Hne'].
      * rewrite list_lookup_insert_eq by lia. simpl.
        by destruct (decide _) as [|[]].
      * rewrite list_lookup_insert_ne by done.
        destruct (decide _) as [[_ ?]|]; done.
    + rewrite list_lookup_insert_ne by done.
      destruct (decide _) as [[? _]|]; done.
Qed.

Lemma writes_spec n g ws :
  square n g → Forall (in_grid n) ws →
  ∃ g', foldM write g ws = Ret g' ∧ square n g'
        ∧ ∀ r c, entry g' r c = last_write r c (entry g r c) ws.
Proof.
  intros Hg Hws. revert g Hg.
  induction Hws as [|[[r c] v] ws [Hr Hc] _ IH]; intros g Hg.
  - exists g. done.
  - destruct (setitem2_square n g r c v Hg Hr Hc) as (g1 & E1 & Hg1 & Hent).
    destruct (IH g1 Hg1) as (g' & E' & Hg' & Hent').
    exists g'. split_and!; [|done|].
    + cbn [foldM write]. rewrite E1. done.
    + intros r' c'. rewrite Hent', Hent. unfold last_write. simpl.
      destruct (decide (r = r' ∧ c = c')), (decide (r = r' ∧ c = c')); done.
Qed.

Lemma last_write_app r c d A B :
  last_write r c d (A ++ B) = last_write r c (last_write r c d A) B.
Proof. apply foldl_app. Qed.

Lemma last_write_untouched r c d B :
  Forall (λ w, ¬ (w.1.1 = r ∧ w.1.2 = c)) B → last_write r c d B = d.
Proof.
  induction 1 as [|w B Hw _ IH]; [done|].
  unfold last_write in *. simpl. by destruct (decide _).
Qed.

Lemma last_write_hit r c d A v B :
  Forall (λ w, ¬ (w.1.1 = r ∧ w.1.2 = c)) B →
  last_write r c d (A ++ (r, c, v) :: B) = v.
Proof.
  intros HB. rewrite last_write_app.
  change ((r, c, v) :: B) with ([(r, c, v)] ++ B).
  rewrite last_write_app, last_write_untouched by done.
  unfold last_write. simpl. by destruct (decide _) as [|[]].
Qed.

Lemma square_zeros_like n g : square n g → square n (zeros_like g).
Proof.
  intros [Hlen Hrows]. unfold zeros_like. split; [by rewrite length_fmap|].
  apply Forall_fmap. eapply Forall_impl; [exact Hrows|].
  intros row Hrow. simpl. by rewrite length_fmap.
Qed.

Lemma entry_zeros_like g r c : entry (zeros_like g) r c = 0.
Proof.
  unfold entry, zeros_like. rewrite list_lookup_fmap.
  destruct (g !! r) as [row|]; simpl; [|done].
  rewrite list_lookup_fmap. by destruct (row !! c).
Qed.

Lemma wf_sudoku_square gw bw sudoku : wf_sudoku gw bw sudoku → square gw sudoku.
Proof.
  intros (_ & Hlen & Hrows). split; [done|].
  eapply Forall_impl; [exact Hrows|]. by intros row [? _].
Qed.


(** Two square grids with the same entries are equal. *)
Lemma square_ext n g1 g2 :
  square n g1 → square n g2 →
  (∀ r c, (r < n)%nat → (c < n)%nat → entry g1 r c = entry g2 r c) → g1 = g2.
Proof.
  intros [Hl1 Hr1] [Hl2 Hr2] Hent. apply list_eq. intros r.
  destruct (decide (r < n)%nat) as [Hr|Hr].
  - destruct (lookup_lt_is_Some_2 g1 r) as [row1 E1]; [lia|].
    destruct (lookup_lt_is_Some_2 g2 r) as [row2 E2]; [lia|].
    rewrite E1, E2. f_equal. rewrite Forall_lookup in Hr1, Hr2.
    pose proof (Hr1 _ _ E1). pose proof (Hr2 _ _ E2).
    apply list_eq. intros c. destruct (decide (c < n)%nat) as [Hc|Hc].
    + destruct (lookup_lt_is_Some_2 row1 c) as [v1 F1]; [lia|].
      destruct (lookup_lt_is_Some_2 row2 c) as [v2 F2]; [lia|].
      specialize (Hent r c Hr Hc). unfold entry in Hent.
      rewrite E1, E2 in Hent. simpl in Hent. rewrite F1, F2 in Hent |- *.
      simpl in Hent. by rewrite Hent.
    + rewrite !(proj2 (lookup_ge_None _ _)) by lia. done.
  - rewrite !(proj2 (lookup_ge_None _ _)) by lia. done.
Qed.

Lemma build_final_sudoku_writes P T sudoku :
  Forall (λ s, (s < length P)%nat) T →
  build_final_sudoku P T sudoku
  = foldM write (zeros_like sudoku) (poss_at P <$> T).
Proof.
  intros HT. unfold build_final_sudoku. rewrite foldM_fmap.
  apply foldM_ext_in. intros final s Hs.
  rewrite Forall_forall in HT. specialize (HT s Hs).
  destruct (lookup_lt_is_Some_2 P s HT) as [[[r c] n] Hp].
  unfold poss_at. rewrite (proj2 (getitem_Ret _ _ _) Hp), Hp. done.
Qed.

(** ** Lists with exactly one element of a kind *)

Lemma filter_one_split {A} (Q : A → Prop) `{∀ x, Decision (Q x)} (l : list A) :
  length (filter Q l) = 1%nat →
  ∃ l1 x l2, l = l1 ++ x :: l2 ∧ Q x
             ∧ Forall (λ y, ¬ Q y) l1 ∧ Forall (λ y, ¬ Q y) l2.
Proof.
  induction l as [|y l IH]; [done|]. rewrite filter_cons.
  destruct (decide (Q y)) as [Hy|Hy]; simpl.
  - intros Hlen. exists [], y, l. split_and!; [done|done|constructor|].
    apply Forall_forall. intros z Hz HQz.
    assert (z ∈ filter Q l) as Hin by by apply list_elem_of_filter.
    destruct (filter Q l); [by apply elem_of_nil in Hin|done].
  - intros Hlen. destruct (IH Hlen) as (l1 & x & l2 & -> & Hx & H1 & H2).
    exists (y :: l1), x, l2. split_and!; [done|done| |done]. by constructor.
Qed.

Lemma filter_one_unique {A} (Q : A → Prop) `{∀ x, Decision (Q x)} (l : list A) x y :
  length (filter Q l) = 1%nat → x ∈ l → y ∈ l → Q x → Q y → x = y.
Proof.
  intros Hlen Hx Hy HQx HQy.
  assert (x ∈ filter Q l) as Hx' by by apply list_elem_of_filter.
  assert (y ∈ filter Q l) as Hy' by by apply list_elem_of_filter.
  destruct (filter Q l) as [|z [|??]]; try done.
  apply list_elem_of_singleton in Hx', Hy'. congruence.
Qed.

Lemma filter_one_intro {A} (Q : A → Prop) `{∀ x, Decision (Q x)} (l : list A) x :
  NoDup l → x ∈ l → Q x → (∀ y, y ∈ l → Q y → y = x) →
  length (filter Q l) = 1%nat.
Proof.
  intros Hnd Hx HQx Huniq.
  assert (filter Q l ≡ₚ [x]) as ->; [|done].
  apply NoDup_Permutation; [by apply NoDup_filter|apply NoDup_singleton|].
  intros y. rewrite list_elem_of_filter, list_elem_of_singleton. split.
  - intros [? ?]. by apply Huniq.
  - intros ->. done.
Qed.

Lemma length_filter_fmap {A B} (Q : B → Prop) `{∀ x, Decision (Q x)}
    (f : A → B) (l : list A) :
  length (filter Q (f <$> l)) = length (filter (λ x, Q (f x)) l).
Proof.
  induction l as [|x l IH]; [done|]. rewrite fmap_cons, !filter_cons.
  destruct (decide (Q (f x))); simpl; by rewrite IH.
Qed.

Lemma length_filter_ext_in {A} (Q1 Q2 : A → Prop) `{∀ x, Decision (Q1 x)}
    `{∀ x, Decision (Q2 x)} (l : list A) :
  (∀ x, x ∈ l → Q1 x ↔ Q2 x) →
  length (filter Q1 l) = length (filter Q2 l).
Proof.
  induction l as [|x l IH]; intros Hext; [done|]. rewrite !filter_cons.
  assert (Q1 x ↔ Q2 x) as Hx by (apply Hext; left).
  specialize (IH (λ y Hy, Hext y (list_elem_of_further _ _ _ Hy))).
  destruct (decide (Q1 x)), (decide (Q2 x)); simpl; rewrite ?IH; tauto.
Qed.


(** ** Which possibilities have a 1 in a given column *)

Lemma radix_inj (g a b a' b' : Z) :
  0 ≤ b < g → 0 ≤ b' < g → a * g + b = a' * g + b' → a = a' ∧ b = b'.
Proof.
  intros Hb Hb' E. assert (a = a') as -> by nia. split; [done|lia].
Qed.

Section columns.
Context (gw bw : nat) (Hbw : (bw * bw = gw)%nat).
Context (r' c' : nat) (n' : Z) (Hp : valid_possibility gw (r', c', n')).

Let g : Z := Z.of_nat gw.
Let b : Z := Z.of_nat bw.

Lemma in_cell_column (r c : nat) :
  (r < gw)%nat → (c < gw)%nat →
  Z.of_nat r * g + Z.of_nat c ∈ spec_columns g b (r', c', n')
  ↔ r' = r ∧ c' = c.
Proof.
  intros Hr Hc.
  destruct (spec_columns_bounds gw bw r' c' n' Hbw Hp)
    as (j1 & j2 & j3 & j4 & E & B1 & B2 & B3 & B4).
  fold g b in E, B1, B2, B3, B4. rewrite E. injection E as <- _ _ _.
  destruct Hp as (Hr' & Hc' & Hn').
  rewrite !elem_of_cons, elem_of_nil. split.
  - intros [H|[H|[H|[H|[]]]]]; [|nia..].
    apply radix_inj in H as [? ?]; [|unfold g; lia..]. lia.
  - intros [-> ->]. by left.
Qed.

Lemma in_row_column (r : nat) (d : Z) :
  (r < gw)%nat → 1 ≤ d ≤ g →
  g * g + Z.of_nat r * g + d - 1 ∈ spec_columns g b (r', c', n')
  ↔ r' = r ∧ n' = d.
Proof.
  intros Hi Hd.
  destruct (spec_columns_bounds gw bw r' c' n' Hbw Hp)
    as (j1 & j2 & j3 & j4 & E & B1 & B2 & B3 & B4).
  fold g b in E, B1, B2, B3, B4. rewrite E. injection E as _ <- _ _.
  destruct Hp as (Hr' & Hc' & Hn'). fold g in Hn'.
  rewrite !elem_of_cons, elem_of_nil. split.
  - intros [H|[H|[H|[H|[]]]]]; [nia| |nia..].
    assert (Z.of_nat r * g + (d - 1) = Z.of_nat r' * g + (n' - 1)) as H'
      by lia.
    apply radix_inj in H' as [? ?]; lia.
  - intros [-> ->]. right; left. done.
Qed.

Lemma in_col_column (c : nat) (d : Z) :
  (c < gw)%nat → 1 ≤ d ≤ g →
  2 * g * g + Z.of_nat c * g + d - 1 ∈ spec_columns g b (r', c', n')
  ↔ c' = c ∧ n' = d.
Proof.
  intros Hi Hd.
  destruct (spec_columns_bounds gw bw r' c' n' Hbw Hp)
    as (j1 & j2 & j3 & j4 & E & B1 & B2 & B3 & B4).
  fold g b in E, B1, B2, B3, B4. rewrite E. injection E as _ _ <- _.
  destruct Hp as (Hr' & Hc' & Hn'). fold g in Hn'.
  rewrite !elem_of_cons, elem_of_nil. split.
  - intros [H|[H|[H|[H|[]]]]]; [nia|nia| |nia].
    assert (Z.of_nat c * g + (d - 1) = Z.of_nat c' * g + (n' - 1)) as H'
      by lia.
    apply radix_inj in H' as [? ?]; lia.
  - intros [-> ->]. right; right; left. done.
Qed.

Lemma in_block_column (i : nat) (d : Z) :
  (i < gw)%nat → 1 ≤ d ≤ g →
  3 * g * g + Z.of_nat i * g + d - 1 ∈ spec_columns g b (r', c', n')
  ↔ block_index g b (Z.of_nat r') (Z.of_nat c') = Z.of_nat i ∧ n' = d.
Proof.
  intros Hi Hd.
  destruct (spec_columns_bounds gw bw r' c' n' Hbw Hp)
    as (j1 & j2 & j3 & j4 & E & B1 & B2 & B3 & B4).
  fold g b in E, B1, B2, B3, B4. rewrite E. injection E as _ _ _ <-.
  destruct Hp as (Hr' & Hc' & Hn'). fold g in Hn'.
  rewrite !elem_of_cons, elem_of_nil. split.
  - intros [H|[H|[H|[H|[]]]]]; [nia|nia|nia|].
    assert (Z.of_nat i * g + (d - 1)
            = block_index g b (Z.of_nat r') (Z.of_nat c') * g + (n' - 1))
      as H' by lia.
    apply radix_inj in H' as [? ?]; lia.
  - intros [<- ->]. right; right; right; left. done.
Qed.
End columns.

(** ** Cells of the units *)

Lemma elem_of_row_cells gw i r c :
  (r, c) ∈ row_cells gw i ↔ r = i ∧ (c < gw)%nat.
Proof.
  unfold row_cells. rewrite list_elem_of_fmap. split.
  - intros (c0 & [= -> ->] & Hc%elem_of_seq). lia.
  - intros [-> Hc]. exists c. split; [done|]. apply elem_of_seq. lia.
Qed.

Lemma elem_of_col_cells gw i r c :
  (r, c) ∈ col_cells gw i ↔ c = i ∧ (r < gw)%nat.
Proof.
  unfold col_cells. rewrite list_elem_of_fmap. split.
  - intros (c0 & [= -> ->] & Hc%elem_of_seq). lia.
  - intros [-> Hc]. exists r. split; [done|]. apply elem_of_seq. lia.
Qed.

Lemma elem_of_block_cells bw i r c :
  (r, c) ∈ block_cells bw i
  ↔ (i / bw * bw ≤ r < i / bw * bw + bw)%nat
    ∧ (i `mod` bw * bw ≤ c < i `mod` bw * bw + bw)%nat.
Proof.
  unfold block_cells. rewrite list_elem_of_bind. split.
  - intros (r0 & (c0 & Hin & Hc%elem_of_seq)%list_elem_of_bind & Hr%elem_of_seq).
    apply list_elem_of_singleton in Hin. injection Hin as -> ->. lia.
  - intros [Hr Hc]. exists r. split; [|apply elem_of_seq; lia].
    apply list_elem_of_bind. exists c. split; [|apply elem_of_seq; lia].
    by apply list_elem_of_singleton.
Qed.

Lemma NoDup_row_cells gw i : NoDup (row_cells gw i).
Proof.
  apply NoDup_fmap_2; [|apply NoDup_seq]. by intros ?? [= ->].
Qed.

Lemma NoDup_col_cells gw i : NoDup (col_cells gw i).
Proof.
  apply NoDup_fmap_2; [|apply NoDup_seq]. by intros ?? [= ->].
Qed.

Lemma NoDup_block_cells bw i : NoDup (block_cells bw i).
Proof.
  unfold block_cells. apply NoDup_bind; [| |apply NoDup_seq].
  - intros r1 r2 [r c] _ _ H1 H2.
    apply list_elem_of_bind in H1 as (c1 & H1 & _).
    apply list_elem_of_bind in H2 as (c2 & H2 & _).
    apply list_elem_of_singleton in H1, H2. congruence.
  - intros r _. apply NoDup_bind; [| |apply NoDup_seq].
    + intros c1 c2 [r' c] _ _ H1 H2.
      apply list_elem_of_singleton in H1, H2. congruence.
    + intros c _. apply NoDup_singleton.
Qed.

(** The block of a cell, as the cover matrix numbers it. *)
Lemma block_index_cells (bw i r c : nat) :
  (0 < bw)%nat → (i < bw * bw)%nat → (r < bw * bw)%nat → (c < bw * bw)%nat →
  block_index (Z.of_nat (bw * bw)) (Z.of_nat bw) (Z.of_nat r) (Z.of_nat c)
  = Z.of_nat i
  ↔ (r, c) ∈ block_cells bw i.
Proof.
  intros Hb Hi Hr Hc. rewrite elem_of_block_cells. unfold block_index.
  rewrite Nat2Z.inj_mul, Z.div_mul by lia.
  rewrite <-!Nat2Z.inj_div, <-Nat2Z.inj_mul, <-Nat2Z.inj_add, Nat2Z.inj_iff.
  pose proof (Nat.div_mod_eq r bw). pose proof (Nat.mod_upper_bound r bw).
  pose proof (Nat.div_mod_eq c bw). pose proof (Nat.mod_upper_bound c bw).
  pose proof (Nat.div_mod_eq i bw). pose proof (Nat.mod_upper_bound i bw).
  assert (c / bw < bw)%nat by (apply Nat.Div0.div_lt_upper_bound; lia).
  split.
  - intros E.
    assert (i / bw = r / bw)%nat as E1.
    { symmetry. apply (Nat.div_unique i bw (r / bw) (c / bw)); lia. }
    assert (i `mod` bw = c / bw)%nat as E2.
    { symmetry. apply (Nat.mod_unique i bw (r / bw) (c / bw)); lia. }
    rewrite E1, E2. lia.
  - intros [Hr' Hc'].
    assert (r / bw = i / bw)%nat as E1.
    { symmetry.
      apply (Nat.div_unique r bw (i / bw) (r - i / bw * bw)); lia. }
    assert (c / bw = i `mod` bw)%nat as E2.
    { symmetry.
      apply (Nat.div_unique c bw (i `mod` bw) (c - i `mod` bw * bw)); lia. }
    rewrite E1, E2. lia.
Qed.


(** ** From an exact cover to a completed grid *)

Section selected.
Context (gw bw : nat) (sudoku : matrix) (Hwf : wf_sudoku gw bw sudoku).

Local Abbreviation g := (Z.of_nat gw).
Local Abbreviation b := (Z.of_nat bw).
Local Abbreviation P := (spec_possibilities gw sudoku).
Local Abbreviation M := (cover_row g b <$> P).

Context (T : list nat) (HT : Forall (λ s, (s < length P)%nat) T).
Context (Hexact : ∀ c, (c < Z.to_nat (4 * g * g))%nat →
                       length (filter (λ r, covers M r c) T) = 1%nat).

Local Abbreviation sel := (poss_at P <$> T).

Lemma Hbw_sel : (bw * bw = gw)%nat.
Proof. by destruct Hwf. Qed.

Lemma sel_in_P p : p ∈ sel → p ∈ P.
Proof.
  intros (s & -> & Hs)%list_elem_of_fmap.
  rewrite Forall_forall in HT. specialize (HT s Hs).
  destruct (lookup_lt_is_Some_2 P s HT) as [p Hp].
  unfold poss_at. rewrite Hp. simpl. by eapply list_elem_of_lookup_2.
Qed.

Lemma sel_valid p : p ∈ sel → valid_possibility gw p.
Proof.
  intros Hp%sel_in_P.
  pose proof (valid_spec_possibilities gw bw sudoku Hwf) as H.
  rewrite Forall_forall in H. by apply H.
Qed.

Lemma sel_exact j :
  0 ≤ j < 4 * g * g →
  length (filter (λ p, j ∈ spec_columns g b p) sel) = 1%nat.
Proof.
  intros Hj. rewrite length_filter_fmap.
  rewrite <-(Hexact (Z.to_nat j)) by lia.
  apply length_filter_ext_in. intros s Hs.
  rewrite (covers_cover gw bw sudoku Hwf), Z2Nat.id by lia.
  rewrite Forall_forall in HT. specialize (HT s Hs).
  destruct (lookup_lt_is_Some_2 P s HT) as [p Hp].
  unfold poss_at. rewrite Hp. simpl. split.
  - eauto.
  - by intros (p' & [= <-] & ?).
Qed.

Lemma cell_column_range (r c : nat) :
  (r < gw)%nat → (c < gw)%nat →
  0 ≤ Z.of_nat r * g + Z.of_nat c < 4 * g * g.
Proof. nia. Qed.

(** Every cell has exactly one selected possibility. *)
Lemma sel_cell_unique r c n n' :
  (r, c, n) ∈ sel → (r, c, n') ∈ sel → n = n'.
Proof.
  intros H1 H2. pose proof (sel_valid _ H1) as (Hr & Hc & _).
  pose proof (sel_exact _ (cell_column_range r c Hr Hc)) as Hone.
  assert ((r, c, n) = (r, c, n')) as E; [|congruence].
  eapply (filter_one_unique _ sel); [exact Hone|done|done| |].
  - apply (in_cell_column gw bw Hbw_sel); [by apply sel_valid|done..].
  - apply (in_cell_column gw bw Hbw_sel); [by apply sel_valid|done..].
Qed.

(** The completed grid holds, in every cell, the digit of the selected
    possibility of that cell. *)
Lemma build_final_sudoku_selected :
  ∃ fin, build_final_sudoku P T sudoku = Ret fin ∧ square gw fin
         ∧ ∀ r c, (r < gw)%nat → (c < gw)%nat → (r, c, entry fin r c) ∈ sel.
Proof.
  rewrite build_final_sudoku_writes by done.
  destruct (writes_spec gw (zeros_like sudoku) sel) as (fin & E & Hsq & Hent).
  { by eapply square_zeros_like, wf_sudoku_square. }
  { apply Forall_forall. intros [[r c] n] (Hr & Hc & _)%sel_valid. done. }
  exists fin. split_and!; [done|done|]. intros r c Hr Hc.
  rewrite Hent, entry_zeros_like.
  destruct (filter_one_split _ sel (sel_exact _ (cell_column_range r c Hr Hc)))
    as (l1 & [[r0 c0] n0] & l2 & E' & Hx & _ & H2).
  assert ((r0, c0, n0) ∈ sel) as Hin.
  { rewrite E'. apply elem_of_app. right. left. }
  apply (in_cell_column gw bw Hbw_sel) in Hx as [-> ->];
    [|by apply sel_valid|done..].
  rewrite E', last_write_hit; [by rewrite <-E'|].
  apply Forall_forall. intros [[r1 c1] n1] Hin1 [E1 E2]. simpl in E1, E2.
  subst r1 c1. rewrite Forall_forall in H2. apply (H2 _ Hin1).
  apply (in_cell_column gw bw Hbw_sel); [|done..].
  apply sel_valid. rewrite E'. apply elem_of_app. right. by right.
Qed.

(** A unit holds a digit once when one column of the cover stands for
    that digit in that unit. *)
Lemma unit_occurrences fin (U : list (nat * nat)) (d j : Z) :
  square gw fin →
  (∀ r c, (r < gw)%nat → (c < gw)%nat → (r, c, entry fin r c) ∈ sel) →
  NoDup U → (∀ r c, (r, c) ∈ U → (r < gw)%nat ∧ (c < gw)%nat) →
  0 ≤ j < 4 * g * g →
  (∀ r c n, valid_possibility gw (r, c, n) →
     j ∈ spec_columns g b (r, c, n) ↔ (r, c) ∈ U ∧ n = d) →
  occurrences d (digits_at fin U) = 1%nat.
Proof.
  intros Hsq Hfin HU Hin Hj Hcol.
  destruct (filter_one_split _ sel (sel_exact j Hj))
    as (l1 & [[r0 c0] n0] & l2 & E & Hx & _ & _).
  assert ((r0, c0, n0) ∈ sel) as Hin0.
  { rewrite E. apply elem_of_app. right. left. }
  apply Hcol in Hx as [HU0 ->]; [|by apply sel_valid].
  unfold occurrences, digits_at. rewrite length_filter_fmap.
  apply (filter_one_intro _ U (r0, c0)); [done|done| |].
  - simpl. destruct (Hin _ _ HU0) as [Hr0 Hc0].
    by apply (sel_cell_unique r0 c0); [apply Hfin|].
  - intros [r c] HUrc Hd. simpl in Hd.
    destruct (Hin _ _ HUrc) as [Hr Hc].
    pose proof (Hfin r c Hr Hc) as Hsel. rewrite Hd in Hsel.
    assert ((r, c, d) = (r0, c0, d)) as E'; [|congruence].
    eapply (filter_one_unique _ sel); [exact (sel_exact j Hj)|done|done| |].
    + apply Hcol; [by apply sel_valid|done].
    + apply Hcol; [by apply sel_valid|done].
Qed.

(** The completed grid is a valid grid that keeps the filled cells. *)
Lemma build_final_sudoku_valid :
  ∃ fin, build_final_sudoku P T sudoku = Ret fin
         ∧ valid_grid gw bw fin ∧ extends gw sudoku fin.
Proof.
  destruct build_final_sudoku_selected as (fin & E & Hsq & Hfin).
  exists fin. split_and!; [done| |].
  - split; [done|]. apply Forall_forall. intros i Hi%elem_of_seq.
    apply Forall_forall. intros d Hd%elem_of_seqZ.
    assert (0 < bw)%nat as Hb by (pose proof Hbw_sel; nia).
    split_and!.
    + apply (unit_occurrences fin _ d (g * g + Z.of_nat i * g + d - 1));
        [done|done|apply NoDup_row_cells| | |].
      * intros r c [-> ?]%elem_of_row_cells. lia.
      * nia.
      * intros r c n Hv. rewrite (in_row_column gw bw Hbw_sel _ _ _ Hv);
          [|lia..].
        rewrite elem_of_row_cells. destruct Hv as (? & ? & ?). tauto.
    + apply (unit_occurrences fin _ d (2 * g * g + Z.of_nat i * g + d - 1));
        [done|done|apply NoDup_col_cells| | |].
      * intros r c [-> ?]%elem_of_col_cells. lia.
      * nia.
      * intros r c n Hv. rewrite (in_col_column gw bw Hbw_sel _ _ _ Hv);
          [|lia..].
        rewrite elem_of_col_cells. destruct Hv as (? & ? & ?). tauto.
    + apply (unit_occurrences fin _ d (3 * g * g + Z.of_nat i * g + d - 1));
        [done|done|apply NoDup_block_cells| | |].
      * intros r c [? ?]%elem_of_block_cells.
        pose proof Hbw_sel.
        pose proof (Nat.div_mod_eq i bw).
        pose proof (Nat.mod_upper_bound i bw).
        assert (i / bw < bw)%nat by (apply Nat.Div0.div_lt_upper_bound; lia).
        nia.
      * nia.
      * intros r c n Hv. rewrite (in_block_column gw bw Hbw_sel _ _ _ Hv);
          [|lia..].
        destruct Hv as (? & ? & ?).
        rewrite <-Hbw_sel at 1.
        rewrite block_index_cells; [done|done|..];
          pose proof Hbw_sel; lia.
  - apply Forall_forall. intros r Hr%elem_of_seq.
    apply Forall_forall. intros c Hc%elem_of_seq. intros Hne.
    assert ((r, c, entry fin r c) ∈ P) as Hin
      by (apply sel_in_P, Hfin; lia).
    apply elem_of_spec_possibilities in Hin as (_ & _ & [[_ ?]|[? _]]); done.
Qed.
End selected.


(** ** The top-level search on a well-formed puzzle *)

Lemma ones_in_covers m T c :
  binary m → ones_in m T c = length (filter (λ r, covers m r c) T).
Proof.
  intros Hb. unfold ones_in. apply length_filter_ext_in.
  intros r _. symmetry. by apply covers_has_one.
Qed.

Section top.
Context (gw bw : nat) (sudoku : matrix) (Hwf : wf_sudoku gw bw sudoku).

Local Abbreviation g := (Z.of_nat gw).
Local Abbreviation b := (Z.of_nat bw).
Local Abbreviation P := (spec_possibilities gw sudoku).
Local Abbreviation M := (cover_row g b <$> P).

(** A successful top-level search has selected an exact cover. *)
Lemma top_exact_cover T Q :
  run M Entry (seq 0 (shape0 M)) (seq 0 (shape1 M)) PyTrue T Q →
  Forall (λ s, (s < length P)%nat) T
  ∧ ∀ c, (c < Z.to_nat (4 * g * g))%nat →
         length (filter (λ r, covers M r c) T) = 1%nat.
Proof.
  intros Hrun.
  destruct (run_exact_cover M Entry _ _ _ _ _ Hrun) as [Hsub Hc];
    [by apply cover_closed|apply list_subseteq_nil|done|].
  split.
  - apply Forall_forall. intros s Hs%Hsub%elem_of_seq.
    rewrite (cover_shape0 gw bw sudoku) in Hs. lia.
  - intros c Hlt. apply Hc. rewrite (cover_shape1 gw bw sudoku Hwf).
    apply elem_of_seq. lia.
Qed.

(** The top-level call of [solve] returns, and what it returns. *)
Lemma top_run :
  ∃ res T Q,
    run M Entry (seq 0 (shape0 M)) (seq 0 (shape1 M)) res T Q
    ∧ ∀ fuel, (Z.to_nat (4 * g * g) < fuel)%nat →
        solve fuel M M (seq 0 (shape0 M)) (seq 0 (shape1 M)) [] []
        = Ret (res, T, Q).
Proof.
  destruct (run_total M (seq 0 (shape0 M)) (seq 0 (shape1 M)))
    as (res & T & Q & Hrun);
    [by eapply cover_rect|by eapply cover_rows_ok|by eapply cover_cols_ok|].
  exists res, T, Q. split; [done|]. intros fuel Hf.
  apply (solve_run M _ _ res T Q fuel [] []); [done|by eapply cover_rect
    |by eapply cover_rows_ok|by eapply cover_cols_ok|].
  by rewrite length_seq, (cover_shape1 gw bw sudoku Hwf).
Qed.

Lemma top_solve_Ret fuel res sol Qp :
  solve fuel M M (seq 0 (shape0 M)) (seq 0 (shape1 M)) [] []
  = Ret (res, sol, Qp) →
  run M Entry (seq 0 (shape0 M)) (seq 0 (shape1 M)) res sol Qp.
Proof.
  intros Hs. apply solve_Ret_run in Hs as (T & Q & Hrun & -> & ->);
    [done|by eapply cover_rect|by eapply cover_rows_ok|by eapply cover_cols_ok].
Qed.
End top.

(** C1: when [solve_sudoku] returns a completed grid on a well-formed
    puzzle, the selected rows of the cover matrix have exactly one 1 in each
    of the [4 * gw * gw] constraint columns, and the completed grid built
    from them holds every digit from 1 to [gw] exactly once in every row,
    every column and every block. *)
Theorem solved_grid_exact_cover {Tm : Type} (t t' : Tm) (fuel : nat)
    (gw bw : nat) (sudoku completed : matrix) (path : option (list step)) :
  wf_sudoku gw bw sudoku →
  solve_sudoku t fuel sudoku (Z.of_nat gw) (Z.of_nat bw)
  = Ret (Some completed, t', path) →
  ∃ cover possibilities solution solution_path,
    create_cover sudoku (Z.of_nat gw) (Z.of_nat bw)
    = Ret (cover, possibilities)
    ∧ solve fuel cover cover (seq 0 (shape0 cover)) (seq 0 (shape1 cover))
        [] []
      = Ret (PyTrue, solution, solution_path)
    ∧ build_final_sudoku possibilities solution sudoku = Ret completed
    ∧ shape1 cover = (4 * gw * gw)%nat
    ∧ (∀ c, (c < 4 * gw * gw)%nat → ones_in cover solution c = 1%nat)
    ∧ valid_grid gw bw completed.
Proof.
  intros Hwf Hsolve. unfold solve_sudoku in Hsolve.
  rewrite (create_cover_spec gw bw sudoku Hwf) in Hsolve.
  cbn [mbind outcome_bind] in Hsolve.
  destruct (solve fuel _ _ _ _ _ _) as [[[res sol] Qp]| |] eqn:Hs;
    cbn [mbind outcome_bind] in Hsolve; [|done..].
  destruct res; cbn [truthy] in Hsolve; [|done..].
  pose proof (top_solve_Ret gw bw sudoku Hwf fuel _ _ _ Hs) as Hrun.
  destruct (top_exact_cover gw bw sudoku Hwf sol Qp Hrun) as [HT Hex].
  destruct (build_final_sudoku_valid gw bw sudoku Hwf sol HT Hex)
    as (fin & Hfin & Hvalid & _).
  rewrite Hfin in Hsolve. cbn [mbind outcome_bind] in Hsolve.
  destruct (build_solving_path _ _) as [sp| |];
    cbn [mbind outcome_bind] in Hsolve; [|done..].
  injection Hsolve as <- _ _.
  eexists _, _, sol, Qp. split_and!; [by apply create_cover_spec|done|done| | |done].
  - rewrite (cover_shape1 gw bw sudoku Hwf). lia.
  - intros c Hc. rewrite ones_in_covers by by eapply cover_binary.
    apply Hex. lia.
Qed.

Lemma solved_grid_exact_cover_witness :
  ∃ cover possibilities solution solution_path,
    create_cover g4 (Z.of_nat 4) (Z.of_nat 2) = Ret (cover, possibilities)
    ∧ solve 20 cover cover (seq 0 (shape0 cover)) (seq 0 (shape1 cover))
        [] []
      = Ret (PyTrue, solution, solution_path)
    ∧ build_final_sudoku possibilities solution g4
      = Ret [[1;3;2;4];[4;2;3;1];[2;4;1;3];[3;1;4;2]]
    ∧ shape1 cover = (4 * 4 * 4)%nat
    ∧ (∀ c, (c < 4 * 4 * 4)%nat → ones_in cover solution c = 1%nat)
    ∧ valid_grid 4 2 [[1;3;2;4];[4;2;3;1];[2;4;1;3];[3;1;4;2]].
Proof.
  apply (solved_grid_exact_cover tt tt 20 4 2 g4 _
           (Some [("ins"%string, 0%nat, 0%nat, 1); ("ins"%string, 1%nat, 2%nat, 3);
             ("ins"%string, 2%nat, 1%nat, 4); ("ins"%string, 1%nat, 1%nat, 2);
             ("ins"%string, 0%nat, 1%nat, 3); ("ins"%string, 1%nat, 0%nat, 4);
             ("ins"%string, 1%nat, 3%nat, 1); ("ins"%string, 3%nat, 1%nat, 1);
             ("ins"%string, 3%nat, 3%nat, 2); ("ins"%string, 0%nat, 3%nat, 4);
             ("ins"%string, 0%nat, 2%nat, 2); ("ins"%string, 2%nat, 2%nat, 1);
             ("ins"%string, 2%nat, 3%nat, 3); ("ins"%string, 2%nat, 0%nat, 2);
             ("ins"%string, 3%nat, 0%nat, 3); ("ins"%string, 3%nat, 2%nat, 4)])).
  - compute_done.
  - vm_compute. reflexivity.
Defined.

(** ** Puzzles without a solution *)

Lemma occurrences_mono d s g U :
  (∀ rc, rc ∈ U → entry s rc.1 rc.2 = d → entry g rc.1 rc.2 = d) →
  (occurrences d (digits_at s U) ≤ occurrences d (digits_at g U))%nat.
Proof.
  unfold occurrences, digits_at. induction U as [|rc U IH]; intros H; [done|].
  rewrite !fmap_cons, !filter_cons.
  specialize (IH (λ x Hx, H x (list_elem_of_further _ _ _ Hx))).
  destruct (decide (entry s rc.1 rc.2 = d)) as [E|E],
    (decide (entry g rc.1 rc.2 = d)) as [E'|E']; simpl; try lia.
  destruct E'. apply H; [left|done].
Qed.

Lemma block_cells_range bw i r c :
  (i < bw * bw)%nat → (r, c) ∈ block_cells bw i →
  (r < bw * bw)%nat ∧ (c < bw * bw)%nat.
Proof.
  intros Hi [? ?]%elem_of_block_cells.
  assert (0 < bw)%nat by nia.
  pose proof (Nat.div_mod_eq i bw). pose proof (Nat.mod_upper_bound i bw).
  assert (i / bw < bw)%nat by (apply Nat.Div0.div_lt_upper_bound; lia).
  nia.
Qed.

Lemma extends_entry gw sudoku g r c :
  extends gw sudoku g → (r < gw)%nat → (c < gw)%nat →
  entry sudoku r c ≠ 0 → entry g r c = entry sudoku r c.
Proof.
  unfold extends. rewrite Forall_forall. intros H Hr Hc.
  specialize (H r). rewrite Forall_forall in H.
  apply H; apply elem_of_seq; lia.
Qed.

(** A puzzle with a digit twice in a unit has no solution. *)
Lemma has_duplicate_unsolvable gw bw sudoku :
  (bw * bw = gw)%nat → has_duplicate gw bw sudoku → ¬ solvable gw bw sudoku.
Proof.
  intros Hbw Hdup (g & [_ Hvalid] & Hext).
  unfold has_duplicate in Hdup. rewrite Exists_exists in Hdup.
  destruct Hdup as (i & Hi & Hdup). rewrite Exists_exists in Hdup.
  destruct Hdup as (d & Hd & Hdup).
  rewrite Forall_forall in Hvalid. specialize (Hvalid i Hi).
  rewrite Forall_forall in Hvalid. destruct (Hvalid d Hd) as (V1 & V2 & V3).
  apply elem_of_seq in Hi. apply elem_of_seqZ in Hd.
  assert (∀ U, (∀ r c, (r, c) ∈ U → (r < gw)%nat ∧ (c < gw)%nat) →
               (occurrences d (digits_at sudoku U)
                ≤ occurrences d (digits_at g U))%nat) as Hmono.
  { intros U HU. apply occurrences_mono. intros [r c] Hin E. simpl in *.
    destruct (HU r c Hin). rewrite <-E. apply (extends_entry gw); [done..|lia]. }
  destruct Hdup as [H|[H|H]].
  - specialize (Hmono (row_cells gw i)). rewrite V1 in Hmono.
    enough (occurrences d (digits_at sudoku (row_cells gw i)) ≤ 1)%nat by lia.
    apply Hmono. intros r c [-> ?]%elem_of_row_cells. lia.
  - specialize (Hmono (col_cells gw i)). rewrite V2 in Hmono.
    enough (occurrences d (digits_at sudoku (col_cells gw i)) ≤ 1)%nat by lia.
    apply Hmono. intros r c [-> ?]%elem_of_col_cells. lia.
  - specialize (Hmono (block_cells bw i)). rewrite V3 in Hmono.
    enough (occurrences d (digits_at sudoku (block_cells bw i)) ≤ 1)%nat by lia.
    apply Hmono. intros r c Hin. rewrite <-Hbw.
    apply (block_cells_range bw i); [lia|done].
Qed.

(** C8: on a well-formed puzzle without a solution, in particular one with
    a digit twice in a row, a column or a block, [solve_sudoku] returns,
    without raising, the triple without grid and without action log. *)
Theorem unsolvable_returns_none {Tm : Type} (t : Tm) (gw bw : nat)
    (sudoku : matrix) :
  wf_sudoku gw bw sudoku →
  has_duplicate gw bw sudoku ∨ ¬ solvable gw bw sudoku →
  ¬ solvable gw bw sudoku
  ∧ ∀ fuel, (4 * gw * gw < fuel)%nat →
      solve_sudoku t fuel sudoku (Z.of_nat gw) (Z.of_nat bw)
      = Ret (None, t, None).
Proof.
  intros Hwf Hno.
  assert (¬ solvable gw bw sudoku) as Hun.
  { destruct Hno as [Hdup|?]; [|done].
    apply has_duplicate_unsolvable; [by destruct Hwf|done]. }
  split; [done|]. intros fuel Hf. unfold solve_sudoku.
  rewrite (create_cover_spec gw bw sudoku Hwf). cbn [mbind outcome_bind].
  destruct (top_run gw bw sudoku Hwf) as (res & T & Q & Hrun & Hs).
  rewrite Hs by lia. cbn [mbind outcome_bind].
  destruct res; cbn [truthy]; [|done..].
  destruct (top_exact_cover gw bw sudoku Hwf T Q Hrun) as [HT Hex].
  destruct (build_final_sudoku_valid gw bw sudoku Hwf T HT Hex)
    as (fin & _ & Hvalid & Hext).
  destruct Hun. by exists fin.
Qed.

Lemma unsolvable_returns_none_witness :
  ¬ solvable 4 2 g4dup
  ∧ ∀ fuel, (4 * 4 * 4 < fuel)%nat →
      solve_sudoku tt fuel g4dup (Z.of_nat 4) (Z.of_nat 2)
      = Ret (None, tt, None).
Proof.
  apply (unsolvable_returns_none tt 4 2 g4dup).
  - compute_done.
  - left. compute_done.
Defined.


(** ** Replaying and undoing the action log *)

Lemma foldM_snoc_map {A B} (f : A → outcome B) (h : A → B) (acc : list B) l :
  (∀ x, x ∈ l → f x = Ret (h x)) →
  foldM (λ acc x, y ← f x; Ret (acc ++ [y])) acc l = Ret (acc ++ (h <$> l)).
Proof.
  revert acc. induction l as [|x l IH]; intros acc H.
  - simpl. by rewrite app_nil_r.
  - cbn [foldM]. rewrite H by left. cbn [mbind outcome_bind].
    rewrite IH by (intros y Hy; apply H; by right).
    by rewrite fmap_cons, <-app_assoc.
Qed.

Lemma build_solving_path_spec P Q :
  Forall (λ e, (e.2 < length P)%nat) Q →
  build_solving_path P Q = Ret (step_of P <$> Q).
Proof.
  intros HQ. unfold build_solving_path.
  rewrite <-(app_nil_l (step_of P <$> Q)).
  rewrite <-(foldM_snoc_map
               (λ e, '(row, col, n) ← getitem P e.2;
                     Ret (if decide (e.1 = 1) then "ins"%string
                          else "rem"%string, row, col, n))).
  - apply foldM_ext_in. intros acc [a s] _.
    cbn [fst snd]. destruct (getitem P s) as [[[r c] n]| |]; [|done..].
    cbn [mbind outcome_bind]. by destruct (decide (a = 1)).
  - intros [a s] Hin. rewrite Forall_forall in HQ. specialize (HQ _ Hin).
    destruct (lookup_lt_is_Some_2 P s HQ) as [[[r c] n] Hp].
    unfold step_of, poss_at. cbn [fst snd].
    rewrite (proj2 (getitem_Ret _ _ _) Hp), Hp. done.
Qed.

Lemma replay_writes path sudoku :
  replay path sudoku = foldM write sudoku (write_of <$> path).
Proof.
  unfold replay. rewrite foldM_fmap. apply foldM_ext_in.
  intros g [[[a r] c] n] _. unfold write, write_of.
  by destruct (decide _).
Qed.

Lemma unwind_writes path sudoku :
  unwind path sudoku = foldM write sudoku (unwrite_of <$> reverse path).
Proof.
  unfold unwind. rewrite foldM_fmap. apply foldM_ext_in.
  intros g [[[a r] c] n] _. unfold write, unwrite_of.
  by destruct (decide _).
Qed.

Lemma first_split {A} (Q : A → Prop) `{∀ x, Decision (Q x)} (l : list A) :
  Exists Q l → ∃ l1 x l2, l = l1 ++ x :: l2 ∧ Q x ∧ Forall (λ y, ¬ Q y) l1.
Proof.
  induction l as [|y l IH]; intros HE; [by apply Exists_nil in HE|].
  destruct (decide (Q y)) as [Hy|Hy].
  - exists [], y, l. split_and!; [done|done|constructor].
  - apply Exists_cons in HE as [?|HE]; [done|].
    destruct (IH HE) as (l1 & x & l2 & -> & Hx & H1).
    exists (y :: l1), x, l2. split_and!; [done|done|by constructor].
Qed.

Section log.
Context (gw bw : nat) (sudoku : matrix) (Hwf : wf_sudoku gw bw sudoku).

Local Abbreviation g := (Z.of_nat gw).
Local Abbreviation b := (Z.of_nat bw).
Local Abbreviation P := (spec_possibilities gw sudoku).
Local Abbreviation M := (cover_row g b <$> P).

Context (T : list nat) (Q : list (Z * nat)).
Context (Hrun : run M Entry (seq 0 (shape0 M)) (seq 0 (shape1 M)) PyTrue T Q).

Lemma log_rows : Forall (λ e, (e.2 < length P)%nat) Q.
Proof.
  destruct (run_events M Entry _ _ _ _ _ Hrun) as (Hin & _);
    [by apply cover_closed|apply list_subseteq_nil|].
  eapply Forall_impl; [exact Hin|]. intros e He%elem_of_seq.
  rewrite (cover_shape0 gw bw sudoku) in He. lia.
Qed.

Lemma poss_at_valid s : (s < length P)%nat → valid_possibility gw (poss_at P s).
Proof.
  intros Hs. destruct (lookup_lt_is_Some_2 P s Hs) as [p Hp].
  unfold poss_at. rewrite Hp. simpl. by eapply P_valid.
Qed.

(** Two rows for the same cell are not apart. *)
Lemma same_cell_not_apart s1 s2 r c n1 n2 :
  (s1 < length P)%nat → (s2 < length P)%nat →
  poss_at P s1 = (r, c, n1) → poss_at P s2 = (r, c, n2) →
  ¬ apart M s1 s2.
Proof.
  intros H1 H2 E1 E2 Hap.
  pose proof (poss_at_valid s1 H1) as V1. rewrite E1 in V1.
  pose proof (poss_at_valid s2 H2) as V2. rewrite E2 in V2.
  assert ((bw * bw)%nat = gw) as Hbw by by destruct Hwf.
  pose proof V1 as (Hr & Hc & _).
  apply (Hap (Z.to_nat (Z.of_nat r * g + Z.of_nat c)));
    apply (covers_cover gw bw sudoku Hwf); rewrite Z2Nat.id by nia.
  - exists (r, c, n1). split.
    + destruct (lookup_lt_is_Some_2 P s1 H1) as [p Hp].
      unfold poss_at in E1. rewrite Hp in E1. simpl in E1. by subst p.
    + by apply (proj2 (in_cell_column gw bw Hbw r c n1 V1 r c Hr Hc)).
  - exists (r, c, n2). split.
    + destruct (lookup_lt_is_Some_2 P s2 H2) as [p Hp].
      unfold poss_at in E2. rewrite Hp in E2. simpl in E2. by subst p.
    + by apply (proj2 (in_cell_column gw bw Hbw r c n2 V2 r c Hr Hc)).
Qed.

(** Replaying the log on the puzzle gives the completed grid; undoing it
    on the completed grid empties every cell. *)
Lemma log_replay_unwind :
  ∃ fin, build_final_sudoku P T sudoku = Ret fin
         ∧ replay (step_of P <$> Q) sudoku = Ret fin
         ∧ unwind (step_of P <$> Q) fin = Ret (zeros_like sudoku).
Proof.
  destruct (top_exact_cover gw bw sudoku Hwf T Q Hrun) as [HT Hex].
  destruct (build_final_sudoku_selected gw bw sudoku Hwf T HT Hex)
    as (fin & Hfin & Hsq & Hsel).
  destruct (run_events M Entry _ _ _ _ _ Hrun) as (_ & Hbin & Hop & Hlast);
    [by apply cover_closed|apply list_subseteq_nil|].
  pose proof log_rows as HQ.
  assert (∀ e, e ∈ Q → in_grid gw (write_of (step_of P e))
                       ∧ in_grid gw (unwrite_of (step_of P e))) as Hgrid.
  { intros [a s] He. rewrite Forall_forall in HQ. specialize (HQ _ He).
    pose proof (poss_at_valid s HQ) as Hv. unfold step_of. cbn [fst snd] in *.
    destruct (poss_at P s) as [[r c] n]. destruct Hv as (? & ? & _).
    by split. }
  (* the selected row of a cell *)
  assert (∀ r c, (r < gw)%nat → (c < gw)%nat →
            ∃ t, t ∈ T ∧ poss_at P t = (r, c, entry fin r c)) as Hcell.
  { intros r c Hr Hc.
    destruct (proj1 (list_elem_of_fmap _ _ _) (Hsel r c Hr Hc))
      as (t & E & Ht). eauto. }
  exists fin. split_and!; [done| |].
  - rewrite replay_writes, <-list_fmap_compose.
    destruct (writes_spec gw sudoku (write_of ∘ step_of P <$> Q))
      as (fin' & E' & Hsq' & Hent').
    { by eapply wf_sudoku_square. }
    { apply Forall_fmap, Forall_forall. intros e He. by apply Hgrid. }
    rewrite E'. f_equal. apply (square_ext gw); [done..|].
    intros r c Hr Hc. rewrite Hent'.
    destruct (Hcell r c Hr Hc) as (t & Ht & Et).
    destruct (Hlast t Ht) as (Q1 & Q2 & EQ & Hap).
    rewrite EQ, fmap_app, fmap_cons.
    replace ((write_of ∘ step_of P) (1, t)) with (r, c, entry fin r c).
    2:{ unfold compose, step_of. cbn [fst snd]. by rewrite Et. }
    apply last_write_hit. apply Forall_fmap, Forall_forall.
    intros [a s] He [E1 E2].
    rewrite Forall_forall in Hap. specialize (Hap _ He).
    rewrite Forall_forall in HT. rewrite Forall_forall in HQ.
    assert ((a, s) ∈ Q) as HeQ.
    { rewrite EQ. apply elem_of_app. right. by right. }
    specialize (HQ _ HeQ). cbn [fst snd] in *.
    unfold compose, step_of in E1, E2. cbn [fst snd] in E1, E2.
    destruct (poss_at P s) as [[r' c'] n'] eqn:Es. simpl in E1, E2.
    subst r' c'.
    exact (same_cell_not_apart t s r c _ n' (HT _ Ht) HQ Et Es Hap).
  - rewrite unwind_writes, <-fmap_reverse, <-list_fmap_compose.
    destruct (writes_spec gw fin (unwrite_of ∘ step_of P <$> reverse Q))
      as (fin' & E' & Hsq' & Hent'); [done| |].
    { apply Forall_fmap, Forall_forall. intros e He.
      rewrite elem_of_reverse in He. by destruct (Hgrid e He). }
    rewrite E'. f_equal.
    apply (square_ext gw);
      [done|by eapply square_zeros_like, wf_sudoku_square|].
    intros r c Hr Hc. rewrite Hent', entry_zeros_like.
    destruct (Hcell r c Hr Hc) as (t & Ht & Et).
    destruct (Hlast t Ht) as (Q1 & Q2 & EQ & _).
    destruct (first_split (λ e, (poss_at P e.2).1 = (r, c)) Q)
      as (A & [a s] & B & EQ' & Hx & HA).
    { rewrite EQ. apply Exists_app. right. apply Exists_cons. left.
      cbn [snd]. by rewrite Et. }
    cbn [snd] in Hx.
    assert (a = 1) as ->.
    { assert ((a, s) ∈ Q) as HeQ.
      { rewrite EQ'. apply elem_of_app. right. left. }
      unfold binary_events in Hbin. rewrite Forall_forall in Hbin.
      destruct (Hbin _ HeQ) as [Ha|Ha]; simpl in Ha; [|done]. subst a.
      specialize (Hop A s B EQ'). rewrite Forall_forall in HA.
      destruct (HA _ Hop). done. }
    rewrite EQ', reverse_app, reverse_cons, <-app_assoc, fmap_app, fmap_app.
    destruct (poss_at P s) as [[r' c'] n'] eqn:Es. simpl in Hx.
    injection Hx as -> ->.
    replace ((unwrite_of ∘ step_of P <$> [(1, s)])) with [(r, c, 0)].
    2:{ simpl. unfold step_of. cbn [fst snd]. by rewrite Es. }
    apply (last_write_hit r c _ _ 0).
    apply Forall_fmap, Forall_forall. intros [a' s'] He.
    rewrite elem_of_reverse in He. rewrite Forall_forall in HA. specialize (HA _ He). cbn [snd] in HA.
    unfold compose, step_of. cbn [fst snd].
    destruct (poss_at P s') as [[r1 c1] n1]. simpl in *.
    intros [-> ->]. done.
Qed.
End log.


Lemma solve_sudoku_mono {Tm} (t : Tm) fuel fuel' sudoku gw bw x :
  (fuel ≤ fuel')%nat →
  solve_sudoku t fuel sudoku gw bw = Ret x →
  solve_sudoku t fuel' sudoku gw bw = Ret x.
Proof.
  intros Hle. unfold solve_sudoku.
  destruct (create_cover sudoku gw bw) as [[cover poss]| |];
    cbn [mbind outcome_bind]; [|done..].
  destruct (solve fuel _ _ _ _ _ _) as [[[res sol] Qp]| |] eqn:Hs;
    cbn [mbind outcome_bind]; [|done..].
  by rewrite (solve_mono fuel fuel' _ _ _ _ _ _ _ Hle Hs).
Qed.

Lemma zeros_like_empty sudoku : empty_grid sudoku → zeros_like sudoku = sudoku.
Proof.
  unfold empty_grid, zeros_like. intros H.
  induction H as [|row rows Hrow _ IH]; [done|].
  rewrite fmap_cons, IH. f_equal.
  induction Hrow as [|v vs -> _ IHv]; [done|].
  by rewrite fmap_cons, IHv.
Qed.

(** ** Searches that never backtrack *)

Lemma NoDup_cell_possibilities gw r c v : NoDup (cell_possibilities gw r c v).
Proof.
  unfold cell_possibilities. destruct (decide _); [apply NoDup_singleton|].
  apply NoDup_fmap_2; [|apply NoDup_seqZ]. by intros ?? [= ->].
Qed.

Lemma cell_possibilities_cell gw r c v p :
  p ∈ cell_possibilities gw r c v → p.1 = (r, c).
Proof.
  unfold cell_possibilities. destruct (decide _) as [Hv|Hv].
  - by intros ->%list_elem_of_singleton.
  - by intros (k & -> & _)%list_elem_of_fmap.
Qed.

Lemma NoDup_spec_possibilities gw sudoku : NoDup (spec_possibilities gw sudoku).
Proof.
  unfold spec_possibilities. apply NoDup_bind; [| |apply NoDup_seq].
  - intros r1 r2 p _ _ H1 H2.
    apply list_elem_of_bind in H1 as (c1 & H1%cell_possibilities_cell & _).
    apply list_elem_of_bind in H2 as (c2 & H2%cell_possibilities_cell & _).
    congruence.
  - intros r _. apply NoDup_bind; [| |apply NoDup_seq].
    + intros c1 c2 p _ _ H1%cell_possibilities_cell H2%cell_possibilities_cell.
      congruence.
    + intros c _. apply NoDup_cell_possibilities.
Qed.

(** When the active rows are pairwise apart and every active column has an
    active row, the search selects row after row and never deselects. *)
Lemma run_straight m md rows cols res T Q :
  run m md rows cols res T Q →
  rect m → binary m → rows_ok m rows → cols_ok m cols →
  closed m rows cols →
  (∀ r r', r ∈ rows → r' ∈ rows → r ≠ r' → apart m r r') →
  (∀ c, c ∈ cols → ∃ r, r ∈ rows ∧ covers m r c) →
  match md with Entry => True | Cands l => l ≠ [] ∧ l ⊆ rows end →
  res = PyTrue ∧ Q = (λ t, (1, t)) <$> T.
Proof.
  intros Hrun Hm Hb. induction Hrun as
    [rows|rows cols col Hne Hmin|rows cols col count res T Q Hne Hmin Hcnt Hrun IH
    |rows cols|rows cols row cands T Q Hrun IH
    |rows cols row cands res0 Q res T' Q' Hres0 Hrun0 IH0 Hrun IH];
    intros Hr Hc Hcl Hap Hcov Hmd.
  - done.
  - exfalso.
    destruct (min_col_elem m rows cols col 0) as [Hcol Hcount]; [done..|].
    destruct (Hcov col Hcol) as (r & Hrin & Hrc).
    rewrite col_count_ones in Hcount by done. unfold ones_in in Hcount.
    assert (r ∈ filter (λ r, has_one m r col) rows) as Hin.
    { apply list_elem_of_filter. split; [by apply covers_has_one|done]. }
    destruct (filter _ rows); [by apply elem_of_nil in Hin|]. simpl in Hcount. lia.
  - destruct (min_col_elem m rows cols col count) as [Hcol _]; [done..|].
    apply IH; [done..|]. split.
    + destruct (Hcov col Hcol) as (r & Hrin & Hrc). intros E.
      assert (r ∈ filter (λ r, covers m r col) rows) as Hin
        by by apply list_elem_of_filter.
      rewrite E in Hin. by apply elem_of_nil in Hin.
    + intros r [_ ?]%list_elem_of_filter. done.
  - by destruct Hmd.
  - destruct Hmd as [_ Hsub]. assert (row ∈ rows) as Hrow by (apply Hsub; left).
    destruct IH as [_ ->];
      [by apply rows_ok_after|by apply cols_ok_after|by apply closed_after| | |done|done].
    + intros r r' [Hr' _]%elem_of_rows_after [Hr'' _]%elem_of_rows_after.
      by apply Hap.
    + intros c [Hcin Hnc]%elem_of_cols_after.
      destruct (Hcov c Hcin) as (r & Hrin & Hrc). exists r. split; [|done].
      apply elem_of_rows_after. split; [done|].
      intros (c' & _ & H1 & H2).
      assert (row ≠ r) as Hne by (intros ->; done).
      by apply (Hap row r Hrow Hrin Hne c').
  - exfalso. destruct Hmd as [_ Hsub].
    assert (row ∈ rows) as Hrow by (apply Hsub; left).
    destruct IH0 as [-> _];
      [by apply rows_ok_after|by apply cols_ok_after|by apply closed_after| | |done|done].
    + intros r r' [Hr' _]%elem_of_rows_after [Hr'' _]%elem_of_rows_after.
      by apply Hap.
    + intros c [Hcin Hnc]%elem_of_cols_after.
      destruct (Hcov c Hcin) as (r & Hrin & Hrc). exists r. split; [|done].
      apply elem_of_rows_after. split; [done|].
      intros (c' & _ & H1 & H2).
      assert (row ≠ r) as Hne by (intros ->; done).
      by apply (Hap row r Hrow Hrin Hne c').
Qed.


(** ** Filled valid grids *)

Lemma occurrences_one_exists d g U :
  occurrences d (digits_at g U) = 1%nat →
  ∃ rc, rc ∈ U ∧ entry g rc.1 rc.2 = d.
Proof.
  unfold occurrences, digits_at. rewrite length_filter_fmap. intros H.
  destruct (filter_one_split _ _ H) as (l1 & rc & l2 & -> & Hrc & _).
  exists rc. split; [|done]. apply elem_of_app. right. left.
Qed.

Lemma occurrences_one_unique d g U x y :
  occurrences d (digits_at g U) = 1%nat → x ∈ U → y ∈ U →
  entry g x.1 x.2 = d → entry g y.1 y.2 = d → x = y.
Proof.
  unfold occurrences, digits_at. rewrite length_filter_fmap. intros H.
  apply (filter_one_unique _ _ x y H).
Qed.

Lemma exact_cover_NoDup m (T : list nat) :
  (∀ t, t ∈ T →
     ∃ c, covers m t c ∧ length (filter (λ r, covers m r c) T) = 1%nat) →
  NoDup T.
Proof.
  induction T as [|x T IH]; intros H; [constructor|].
  apply NoDup_cons. split.
  - intros Hin. destruct (H x) as (c & Hc & Hlen); [left|].
    rewrite filter_cons in Hlen. destruct (decide _); [|done].
    assert (x ∈ filter (λ r, covers m r c) T) as Hin'
      by by apply list_elem_of_filter.
    destruct (filter _ T); [by apply elem_of_nil in Hin'|done].
  - apply IH. intros t Ht. destruct (H t) as (c & Hc & Hlen); [by right|].
    exists c. split; [done|]. rewrite filter_cons in Hlen.
    assert (t ∈ filter (λ r, covers m r c) T) as Hin'
      by by apply list_elem_of_filter.
    destruct (decide _); simpl in Hlen; [|done].
    destruct (filter _ T); [by apply elem_of_nil in Hin'|done].
Qed.

Section full.
Context (gw bw : nat) (sudoku : matrix) (Hwf : wf_sudoku gw bw sudoku).
Context (Hfull : full_grid sudoku) (Hvalid : valid_grid gw bw sudoku).

Local Abbreviation g := (Z.of_nat gw).
Local Abbreviation b := (Z.of_nat bw).
Local Abbreviation P := (spec_possibilities gw sudoku).
Local Abbreviation M := (cover_row g b <$> P).

Lemma Hbw_full : (bw * bw = gw)%nat.
Proof. by destruct Hwf. Qed.

Lemma entry_full r c :
  (r < gw)%nat → (c < gw)%nat → 1 ≤ entry sudoku r c ≤ g.
Proof.
  intros Hr Hc. pose proof (wf_sudoku_entry gw bw sudoku r c Hwf).
  enough (entry sudoku r c ≠ 0) by lia.
  destruct (wf_sudoku_square _ _ _ Hwf) as [Hlen Hrows].
  destruct (lookup_lt_is_Some_2 sudoku r) as [row Hrow]; [lia|].
  rewrite Forall_lookup in Hrows. specialize (Hrows _ _ Hrow).
  destruct (lookup_lt_is_Some_2 row c) as [v Hv]; [lia|].
  unfold entry. rewrite Hrow. simpl. rewrite Hv. simpl.
  unfold full_grid in Hfull. rewrite Forall_lookup in Hfull.
  specialize (Hfull _ _ Hrow). rewrite Forall_lookup in Hfull. eauto.
Qed.

Lemma elem_of_full_possibilities r c n :
  (r, c, n) ∈ P ↔ (r < gw)%nat ∧ (c < gw)%nat ∧ n = entry sudoku r c.
Proof.
  rewrite elem_of_spec_possibilities. split.
  - intros (Hr & Hc & [[_ ->]|[Hz _]]); [done|].
    pose proof (entry_full r c Hr Hc). lia.
  - intros (Hr & Hc & ->). split_and!; [done..|]. left.
    pose proof (entry_full r c Hr Hc). split; [lia|done].
Qed.

Lemma full_possibilities_cells :
  P = r ← seq 0 gw; c ← seq 0 gw; [(r, c, entry sudoku r c)].
Proof.
  unfold spec_possibilities.
  apply Forall_bind_ext, Forall_forall. intros r Hr%elem_of_seq.
  apply Forall_bind_ext, Forall_forall. intros c Hc%elem_of_seq.
  unfold cell_possibilities.
  pose proof (entry_full r c ltac:(lia) ltac:(lia)).
  destruct (decide _); [done|lia].
Qed.

Lemma unit_digit i d :
  (i < gw)%nat → 1 ≤ d ≤ g → once_per_unit gw bw sudoku i d.
Proof.
  intros Hi Hd. destruct Hvalid as [_ H]. rewrite Forall_forall in H.
  specialize (H i). rewrite Forall_forall in H.
  apply H; [apply elem_of_seq|apply elem_of_seqZ]; lia.
Qed.

Lemma P_lookup_elem p : p ∈ P → ∃ s, (s < length P)%nat ∧ P !! s = Some p.
Proof.
  intros [s Hs]%list_elem_of_lookup_1. exists s. split; [|done].
  by eapply lookup_lt_Some.
Qed.

(** Every constraint column has a row. *)
Lemma full_coverable c :
  c ∈ seq 0 (shape1 M) → ∃ s, s ∈ seq 0 (shape0 M) ∧ covers M s c.
Proof.
  rewrite (cover_shape1 gw bw sudoku Hwf). intros Hc%elem_of_seq.
  pose proof Hbw_full as Hbw.
  assert (∀ p, p ∈ P → Z.of_nat c ∈ spec_columns g b p →
               ∃ s, s ∈ seq 0 (shape0 M) ∧ covers M s c) as Hfind.
  { intros p (s & Hs & Hp)%P_lookup_elem Hin. exists s. split.
    - apply elem_of_seq. rewrite (cover_shape0 gw bw sudoku). lia.
    - apply (covers_cover gw bw sudoku Hwf). eauto. }
  assert (0 < g) as Hg by nia.
  set (J := Z.of_nat c) in *.
  assert (0 ≤ J < 4 * g * g) as HJ by (unfold J; lia).
  assert (∃ k a e, 0 ≤ k < 4 ∧ 0 ≤ a < g ∧ 0 ≤ e < g
                   ∧ J = k * (g * g) + a * g + e) as (k & a & e & Hk & Ha & He & EJ).
  { exists (J `div` (g * g)), ((J `mod` (g * g)) `div` g),
      ((J `mod` (g * g)) `mod` g).
    pose proof (Z.div_mod J (g * g) ltac:(nia)).
    pose proof (Z.mod_pos_bound J (g * g) ltac:(nia)).
    pose proof (Z.div_mod (J `mod` (g * g)) g ltac:(lia)).
    pose proof (Z.mod_pos_bound (J `mod` (g * g)) g ltac:(lia)).
    assert (0 ≤ J `div` (g * g) < 4).
    { split; [apply Z.div_pos; nia|apply Z.div_lt_upper_bound; nia]. }
    assert (0 ≤ (J `mod` (g * g)) `div` g < g).
    { split; [apply Z.div_pos; lia|apply Z.div_lt_upper_bound; nia]. }
    split_and!; lia. }
  set (i := Z.to_nat a). set (d := e + 1).
  assert (i < gw)%nat as Hi by (unfold i; lia).
  assert (1 ≤ d ≤ g) as Hd by (unfold d; lia).
  destruct (unit_digit i d Hi Hd) as (U1 & U2 & U3).
  assert (k = 0 ∨ k = 1 ∨ k = 2 ∨ k = 3) as [-> | [-> | [-> | ->]]] by lia.
  - set (c0 := Z.to_nat e). assert (c0 < gw)%nat by (unfold c0; lia).
    apply (Hfind (i, c0, entry sudoku i c0)).
    + apply elem_of_full_possibilities. done.
    + assert (valid_possibility gw (i, c0, entry sudoku i c0)) as Hv.
      { pose proof (entry_full i c0 Hi ltac:(done)).
        unfold valid_possibility. lia. }
      replace J with (Z.of_nat i * g + Z.of_nat c0) by (unfold i, c0; lia).
      by apply (in_cell_column gw bw Hbw i c0 _ Hv i c0).
  - destruct (occurrences_one_exists _ _ _ U1) as ([r0 c0] & Hin & Hent).
    apply elem_of_row_cells in Hin as [-> Hc0]. simpl in Hent.
    apply (Hfind (i, c0, d)).
    + apply elem_of_full_possibilities. done.
    + assert (valid_possibility gw (i, c0, d)) as Hv
        by (unfold valid_possibility; lia).
      replace J with (g * g + Z.of_nat i * g + d - 1) by (unfold i, d; lia).
      by apply (in_row_column gw bw Hbw i c0 d Hv i d).
  - destruct (occurrences_one_exists _ _ _ U2) as ([r0 c0] & Hin & Hent).
    apply elem_of_col_cells in Hin as [-> Hr0]. simpl in Hent.
    apply (Hfind (r0, i, d)).
    + apply elem_of_full_possibilities. done.
    + assert (valid_possibility gw (r0, i, d)) as Hv
        by (unfold valid_possibility; lia).
      replace J with (2 * g * g + Z.of_nat i * g + d - 1)
        by (unfold i, d; lia).
      by apply (in_col_column gw bw Hbw r0 i d Hv i d).
  - destruct (occurrences_one_exists _ _ _ U3) as ([r0 c0] & Hin & Hent).
    simpl in Hent.
    destruct (block_cells_range bw i r0 c0) as [Hr0 Hc0]; [lia|done|].
    rewrite Hbw in Hr0, Hc0.
    apply (Hfind (r0, c0, d)).
    + apply elem_of_full_possibilities. done.
    + assert (valid_possibility gw (r0, c0, d)) as Hv
        by (unfold valid_possibility; lia).
      replace J with (3 * g * g + Z.of_nat i * g + d - 1)
        by (unfold i, d; lia).
      apply (in_block_column gw bw Hbw r0 c0 d Hv i d); [done|done|].
      split; [|done]. rewrite <-Hbw at 1.
      apply block_index_cells; [nia|lia..|done].
Qed.

(** Two different rows have no column in common. *)
Lemma full_apart s s' :
  s ∈ seq 0 (shape0 M) → s' ∈ seq 0 (shape0 M) → s ≠ s' → apart M s s'.
Proof.
  intros _ _ Hne c (p & Hp & Hin)%(covers_cover gw bw sudoku Hwf)
    (p' & Hp' & Hin')%(covers_cover gw bw sudoku Hwf).
  pose proof Hbw_full as Hbw.
  apply Hne. apply (NoDup_lookup P s s' p); [apply NoDup_spec_possibilities|done|].
  rewrite Hp'. f_equal.
  pose proof (P_valid gw bw sudoku Hwf _ _ Hp) as Hv.
  pose proof (P_valid gw bw sudoku Hwf _ _ Hp') as Hv'.
  destruct p as [[r c0] n], p' as [[r' c0'] n'].
  pose proof (proj1 (elem_of_full_possibilities _ _ _)
                (list_elem_of_lookup_2 _ _ _ Hp)) as (Hr & Hc & En).
  pose proof (proj1 (elem_of_full_possibilities _ _ _)
                (list_elem_of_lookup_2 _ _ _ Hp')) as (Hr' & Hc' & En').
  assert (1 ≤ n ≤ g) as Hn by (rewrite En; by apply entry_full).
  unfold spec_columns in Hin. cbn zeta in Hin.
  rewrite !elem_of_cons, elem_of_nil in Hin.
  destruct Hin as [E|[E|[E|[E|[]]]]]; rewrite E in Hin'.
  - apply (in_cell_column gw bw Hbw r' c0' n' Hv' r c0) in Hin' as [-> ->];
      [|done..]. congruence.
  - apply (in_row_column gw bw Hbw r' c0' n' Hv' r n) in Hin' as [-> ->];
      [|done..].
    destruct (unit_digit r n Hr Hn) as (U1 & _ & _).
    assert ((r, c0) = (r, c0')) as E'; [|congruence].
    apply (occurrences_one_unique n sudoku (row_cells gw r)); [done|..];
      rewrite ?elem_of_row_cells; done.
  - apply (in_col_column gw bw Hbw r' c0' n' Hv' c0 n) in Hin' as [-> ->];
      [|done..].
    destruct (unit_digit c0 n Hc Hn) as (_ & U2 & _).
    assert ((r, c0) = (r', c0)) as E'; [|congruence].
    apply (occurrences_one_unique n sudoku (col_cells gw c0)); [done|..];
      rewrite ?elem_of_col_cells; done.
  - destruct (block_idx_bounds g b (Z.of_nat r) (Z.of_nat c0))
      as [_ HB]; [nia|nia|lia|lia|].
    set (B := block_index g b (Z.of_nat r) (Z.of_nat c0)) in *.
    set (i := Z.to_nat B).
    assert (i < gw)%nat as Hi by (unfold i; lia).
    replace B with (Z.of_nat i) in Hin' by (unfold i; lia).
    apply (in_block_column gw bw Hbw r' c0' n' Hv' i n) in Hin' as [EB ->];
      [|done..].
    destruct (unit_digit i n Hi Hn) as (_ & _ & U3).
    assert ((r, c0) = (r', c0')) as E'; [|congruence].
    apply (occurrences_one_unique n sudoku (block_cells bw i)); [done|..|done|done].
    + apply block_index_cells; [nia|lia..|].
      rewrite Hbw. unfold i. fold B. lia.
    + apply block_index_cells; [nia|lia..|].
      by rewrite Hbw.
Qed.
End full.


Lemma fmap_list_bind {A B C} (f : B → C) (k : A → list B) (l : list A) :
  f <$> (l ≫= k) = l ≫= (λ x, f <$> k x).
Proof.
  induction l as [|x l IH]; [done|]. by rewrite !bind_cons, fmap_app, IH.
Qed.

Lemma step_of_select P (T : list nat) :
  step_of P <$> ((λ t, (1, t)) <$> T) = ins_of <$> (poss_at P <$> T).
Proof.
  rewrite <-!list_fmap_compose. apply list_fmap_ext. intros _ t _.
  unfold compose, step_of, ins_of. cbn [fst snd].
  by destruct (poss_at P t) as [[r c] n].
Qed.

(** C7, amended: a filled valid grid is returned unchanged, with an action
    log that holds no removal but one insertion per cell, of the digit the
    cell already holds, so that replaying it leaves the grid as it is. *)
Theorem full_grid_returned_with_insertions {Tm : Type} (t : Tm) (gw bw : nat)
    (sudoku : matrix) :
  wf_sudoku gw bw sudoku → full_grid sudoku → valid_grid gw bw sudoku →
  ∃ path,
    (∀ fuel, (4 * gw * gw < fuel)%nat →
       solve_sudoku t fuel sudoku (Z.of_nat gw) (Z.of_nat bw)
       = Ret (Some sudoku, t, Some path))
    ∧ path ≡ₚ (r ← seq 0 gw; c ← seq 0 gw;
               [("ins"%string, r, c, entry sudoku r c)])
    ∧ replay path sudoku = Ret sudoku.
Proof.
  intros Hwf Hfull Hvalid.
  set (P := spec_possibilities gw sudoku).
  set (M := cover_row (Z.of_nat gw) (Z.of_nat bw) <$> P).
  destruct (top_run gw bw sudoku Hwf) as (res & T & Q & Hrun & Hs).
  fold P M in Hrun, Hs.
  destruct (run_straight M Entry _ _ _ _ _ Hrun) as [-> ->];
    [by eapply cover_rect|by eapply cover_binary|by eapply cover_rows_ok
    |by eapply cover_cols_ok|by apply cover_closed
    |by apply full_apart|by apply full_coverable|done|].
  destruct (top_exact_cover gw bw sudoku Hwf T _ Hrun) as [HT Hex].
  destruct (log_replay_unwind gw bw sudoku Hwf T _ Hrun)
    as (fin & Hfin & Hreplay & _).
  destruct (build_final_sudoku_valid gw bw sudoku Hwf T HT Hex)
    as (fin' & Hfin' & [Hsq _] & Hext).
  fold P in Hfin, Hfin', Hreplay, HT. rewrite Hfin in Hfin'.
  injection Hfin' as <-.
  assert (fin = sudoku) as ->.
  { apply (square_ext gw); [done|by eapply wf_sudoku_square|].
    intros r c Hr Hc. apply (extends_entry gw); [done..|].
    pose proof (entry_full gw bw sudoku Hwf Hfull r c Hr Hc). lia. }
  exists (step_of P <$> ((λ t, (1, t)) <$> T)). split_and!; [|  |done].
  - intros fuel Hf. unfold solve_sudoku.
    rewrite (create_cover_spec gw bw sudoku Hwf). cbn [mbind outcome_bind].
    fold P M. rewrite Hs by lia. cbn [mbind outcome_bind truthy].
    rewrite Hfin. cbn [mbind outcome_bind].
    rewrite build_solving_path_spec; [done|].
    by apply (log_rows gw bw sudoku Hwf T).
  - rewrite step_of_select.
    assert (poss_at P <$> T ≡ₚ P) as ->.
    { apply NoDup_Permutation; [|apply NoDup_spec_possibilities|].
      - apply NoDup_fmap_2_strong.
        + intros s s' Hs1 Hs2 E. rewrite Forall_forall in HT.
          pose proof (HT _ Hs1) as H1. pose proof (HT _ Hs2) as H2.
          destruct (lookup_lt_is_Some_2 P s H1) as [p Hp].
          destruct (lookup_lt_is_Some_2 P s' H2) as [p' Hp'].
          unfold poss_at in E. rewrite Hp, Hp' in E. simpl in E. subst p'.
          by apply (NoDup_lookup P s s' p); [apply NoDup_spec_possibilities|..].
        + apply (exact_cover_NoDup M). intros s Hs1.
          rewrite Forall_forall in HT. pose proof (HT _ Hs1) as H1.
          destruct (lookup_lt_is_Some_2 P s H1) as [[[r c] n] Hp].
          pose proof (P_valid gw bw sudoku Hwf _ _ Hp) as Hv.
          pose proof Hv as (Hr & Hc & _).
          exists (Z.to_nat (Z.of_nat r * Z.of_nat gw + Z.of_nat c)). split.
          * apply (covers_cover gw bw sudoku Hwf). exists (r, c, n).
            split; [done|]. rewrite Z2Nat.id by nia.
            apply (in_cell_column gw bw); [by destruct Hwf|done..].
          * apply Hex. nia.
      - intros [[r c] n]. split.
        + apply (sel_in_P gw sudoku T HT).
        + intros (Hr & Hc & ->)%(elem_of_full_possibilities gw bw sudoku Hwf Hfull).
          destruct (build_final_sudoku_selected gw bw sudoku Hwf T HT Hex)
            as (fin' & Hfin' & _ & Hsel).
          fold P in Hfin'. rewrite Hfin in Hfin'. injection Hfin' as <-.
          by apply Hsel. }
    unfold P. rewrite (full_possibilities_cells gw bw sudoku Hwf Hfull).
    rewrite fmap_list_bind.
    assert (∀ r, ins_of <$> (seq 0 gw ≫= λ c, [(r, c, entry sudoku r c)])
                 = seq 0 gw ≫= λ c, [("ins"%string, r, c, entry sudoku r c)])
      as E by (intros r; by rewrite fmap_list_bind).
    by rewrite (list_bind_ext _ _ _ _ E eq_refl).
Qed.

Lemma full_grid_returned_with_insertions_witness :
  ∃ path,
    (∀ fuel, (4 * 4 * 4 < fuel)%nat →
       solve_sudoku tt fuel g4full (Z.of_nat 4) (Z.of_nat 2)
       = Ret (Some g4full, tt, Some path))
    ∧ path ≡ₚ (r ← seq 0 4; c ← seq 0 4;
               [("ins"%string, r, c, entry g4full r c)])
    ∧ replay path g4full = Ret g4full.
Proof.
  apply (full_grid_returned_with_insertions tt 4 2 g4full); compute_done.
Defined.

(** C7 as stated fails on the 1 by 1 grid holding 1: the log has the
    insertion of that 1. *)
Lemma full_grid_log_not_empty :
  wf_sudoku 1 1 [[1]] ∧ full_grid [[1]] ∧ valid_grid 1 1 [[1]]
  ∧ ¬ returned_with_empty_log 1 1 [[1]].
Proof.
  split_and!; [compute_done..|]. intros [fuel H].
  apply (solve_sudoku_mono () fuel (fuel `max` 5)) in H; [|lia].
  assert (solve_sudoku () 5 [[1]] (Z.of_nat 1) (Z.of_nat 1)
          = Ret (Some [[1]], (), Some [("ins"%string, 0%nat, 0%nat, 1)])) as H5
    by (vm_compute; reflexivity).
  apply (solve_sudoku_mono () 5 (fuel `max` 5)) in H5; [|lia].
  rewrite H5 in H. discriminate.
Qed.


(** ** The store version computes what the value version computes *)

Lemma foldM_simulation {A S1 S2} (emb : S1 → S2) (f1 : S1 → A → outcome S1)
    (f2 : S2 → A → outcome S2) s l :
  (∀ s x, x ∈ l → f2 (emb s) x = s' ← f1 s x; Ret (emb s')) →
  foldM f2 (emb s) l = s' ← foldM f1 s l; Ret (emb s').
Proof.
  revert s. induction l as [|x l IH]; intros s H; [done|].
  cbn [foldM]. rewrite H by left.
  destruct (f1 s x) as [s1| |]; cbn [mbind outcome_bind]; [|done..].
  apply IH. intros s' y Hy. apply H. by right.
Qed.

Lemma deref_new h m : deref (h ++ [m]) (length h) = Ret m.
Proof.
  apply getitem_Ret. by rewrite lookup_app_r, Nat.sub_diag by lia.
Qed.

Lemma deref_old h m l a : h !! l = Some a → deref (h ++ [m]) l = Ret a.
Proof.
  intros H. apply getitem_Ret. rewrite lookup_app_l; [done|].
  by eapply lookup_lt_Some.
Qed.

Lemma store_setitem2_new h m r c v :
  store_setitem2 (length h) r c v (h ++ [m])
  = m' ← setitem2 m r c v; Ret (h ++ [m']).
Proof.
  unfold store_setitem2. rewrite deref_new. cbn [mbind outcome_bind].
  destruct (setitem2 m r c v) as [m'| |]; cbn [mbind outcome_bind]; [|done..].
  f_equal. rewrite insert_app_r_alt, Nat.sub_diag by lia. done.
Qed.

Lemma add_possibility_h_new p h cover i gw bw :
  add_possibility_h p (length h) i gw bw (h ++ [cover])
  = cover' ← add_possibility p cover i gw bw; Ret (h ++ [cover']).
Proof.
  destruct p as [[r c] n]. unfold add_possibility_h, add_possibility.
  rewrite store_setitem2_new.
  destruct (setitem2 cover i _ 1) as [c1| |]; cbn [mbind outcome_bind];
    [|done..].
  rewrite store_setitem2_new.
  destruct (setitem2 c1 i _ 1) as [c2| |]; cbn [mbind outcome_bind]; [|done..].
  rewrite store_setitem2_new.
  destruct (setitem2 c2 i _ 1) as [c3| |]; cbn [mbind outcome_bind]; [|done..].
  destruct (floordiv (Z.of_nat r) bw) as [q| |]; cbn [mbind outcome_bind];
    [|done..].
  destruct (floordiv (q * gw) bw) as [rb| |]; cbn [mbind outcome_bind];
    [|done..].
  destruct (floordiv (Z.of_nat c) bw) as [cb| |]; cbn [mbind outcome_bind];
    [|done..].
  apply store_setitem2_new.
Qed.

Lemma create_cover_cell_h_new h sl sudoku gw bw row cover poss col :
  h !! sl = Some sudoku →
  create_cover_cell_h sl (length h) gw bw row (h ++ [cover], poss) col
  = '(cover', poss') ← create_cover_cell sudoku gw bw row (cover, poss) col;
    Ret (h ++ [cover'], poss').
Proof.
  intros Hsl. unfold create_cover_cell_h, create_cover_cell.
  rewrite (deref_old _ _ _ _ Hsl). cbn [mbind outcome_bind].
  destruct (getitem2 sudoku row col) as [v| |]; cbn [mbind outcome_bind];
    [|done..].
  destruct (decide (v ≠ 0)) as [Hv|Hv].
  - rewrite add_possibility_h_new.
    by destruct (add_possibility _ _ _ _ _).
  - rewrite (foldM_simulation (λ '(cover, poss), (h ++ [cover], poss))
               (λ '(cover, possibilities) n,
                  cover ← add_possibility (row, col, n) cover
                            (length possibilities) gw bw;
                  Ret (cover, possibilities ++ [(row, col, n)]))
               _ (cover, poss)).
    + by destruct (foldM _ _ _) as [[??]| |].
    + intros [cover' poss'] k _. rewrite add_possibility_h_new.
      by destruct (add_possibility _ _ _ _ _).
Qed.

Lemma create_cover_h_spec h sl sudoku gw bw :
  h !! sl = Some sudoku →
  create_cover_h sl gw bw h
  = '(cover, poss) ← create_cover sudoku gw bw;
    Ret (length h, poss, h ++ [cover]).
Proof.
  intros Hsl. unfold create_cover_h, create_cover, deref.
  rewrite (proj2 (getitem_Ret _ _ _) Hsl). cbn [mbind outcome_bind].
  destruct (np_zeros _ _) as [zeros| |]; cbn [mbind outcome_bind]; [|done..].
  unfold alloc.
  rewrite (foldM_simulation (λ '(cover, poss), (h ++ [cover], poss))
             (λ st row, foldM (create_cover_cell sudoku gw bw row) st
                          (seq 0 (shape0 sudoku)))
             _ (zeros, [])).
  - by destruct (foldM _ _ _) as [[??]| |].
  - intros [cover poss] row _.
    rewrite (foldM_simulation (λ '(cover, poss), (h ++ [cover], poss))
               (create_cover_cell sudoku gw bw row) _ (cover, poss)).
    + by destruct (foldM _ _ _) as [[??]| |].
    + intros [cover' poss'] col _.
      rewrite (create_cover_cell_h_new _ _ sudoku) by done.
      by destruct (create_cover_cell _ _ _ _ _ _) as [[??]| |].
Qed.

Lemma build_final_sudoku_h_spec h sl sudoku poss sol :
  h !! sl = Some sudoku →
  build_final_sudoku_h poss sol sl h
  = final ← build_final_sudoku poss sol sudoku; Ret (length h, h ++ [final]).
Proof.
  intros Hsl. unfold build_final_sudoku_h, build_final_sudoku, deref.
  rewrite (proj2 (getitem_Ret _ _ _) Hsl). cbn [mbind outcome_bind].
  unfold alloc.
  rewrite (foldM_simulation (λ final, h ++ [final])
             (λ final sol, '(row, col, n) ← getitem poss sol;
                           setitem2 final row (Z.of_nat col) n)
             _ (zeros_like sudoku)).
  - by destruct (foldM _ _ _).
  - intros final s _. destruct (getitem poss s) as [[[r c] n]| |]; [|done..].
    cbn [mbind outcome_bind]. apply store_setitem2_new.
Qed.

(** C10: whenever [solve_sudoku] returns, with or without a solution, the
    array of the caller's grid, and every array that existed before the
    call, holds what it held before; the completed grid is a new array; the
    results are those of the value-level [solve_sudoku]; and on a
    well-formed puzzle it does return, given enough fuel. *)
Theorem solve_sudoku_keeps_input {Tm : Type} (t : Tm) (fuel : nat)
    (sudoku : loc) (grid : matrix) (grid_width block_width : Z) (h : store) :
  h !! sudoku = Some grid →
  (∀ completed t' path h',
     solve_sudoku_h t fuel sudoku grid_width block_width h
     = Ret (completed, t', path, h') →
     h' !! sudoku = Some grid
     ∧ (∀ l a, h !! l = Some a → h' !! l = Some a)
     ∧ (∀ l, completed = Some l → (length h ≤ l)%nat)
     ∧ solve_sudoku t fuel grid grid_width block_width
       = Ret ((λ l, default [] (h' !! l)) <$> completed, t', path))
  ∧ (∀ gw bw, grid_width = Z.of_nat gw → block_width = Z.of_nat bw →
       wf_sudoku gw bw grid → (4 * gw * gw < fuel)%nat →
       ∃ res h', solve_sudoku_h t fuel sudoku grid_width block_width h
                 = Ret (res, h')).
Proof.
  intros Hsl.
  assert (solve_sudoku_h t fuel sudoku grid_width block_width h
          = '(cover, poss) ← create_cover grid grid_width block_width;
            '(solved, solution, solution_path) ←
              solve fuel cover cover (seq 0 (shape0 cover))
                (seq 0 (shape1 cover)) [] [];
            if truthy solved then
              final ← build_final_sudoku poss solution grid;
              sp ← build_solving_path poss solution_path;
              Ret (Some (S (S (length h))), t, Some sp,
                   h ++ [cover; cover; final])
            else Ret (None, t, None, h ++ [cover; cover])) as E.
  { unfold solve_sudoku_h. rewrite (create_cover_h_spec _ _ _ _ _ Hsl).
    destruct (create_cover grid grid_width block_width) as [[cover poss]| |];
      cbn [mbind outcome_bind]; [|done..].
    rewrite deref_new. cbn [mbind outcome_bind]. unfold alloc.
    rewrite deref_new. cbn [mbind outcome_bind].
    destruct (solve fuel _ _ _ _ _ _) as [[[solved sol] Qp]| |];
      cbn [mbind outcome_bind]; [|done..].
    destruct (truthy solved); [|by rewrite <-app_assoc].
    rewrite (build_final_sudoku_h_spec _ sudoku grid).
    2:{ rewrite !lookup_app_l; [done|..]; rewrite ?length_app;
          apply lookup_lt_Some in Hsl; simpl; lia. }
    destruct (build_final_sudoku poss sol grid) as [final| |];
      cbn [mbind outcome_bind]; [|done..].
    destruct (build_solving_path poss Qp) as [sp| |];
      cbn [mbind outcome_bind]; [|done..].
    rewrite !length_app. simpl. rewrite <-!app_assoc. simpl.
    do 5 f_equal. lia. }
  split.
  - intros completed t' path h' Hret. rewrite E in Hret. clear E.
    unfold solve_sudoku.
    destruct (create_cover grid grid_width block_width) as [[cover poss]| |];
      cbn [mbind outcome_bind] in *; [|done..].
    destruct (solve fuel _ _ _ _ _ _) as [[[solved sol] Qp]| |];
      cbn [mbind outcome_bind] in *; [|done..].
    pose proof (lookup_lt_Some _ _ _ Hsl) as Hlt.
    destruct (truthy solved).
    + destruct (build_final_sudoku poss sol grid) as [final| |];
        cbn [mbind outcome_bind] in *; [|done..].
      destruct (build_solving_path poss Qp) as [sp| |];
        cbn [mbind outcome_bind] in *; [|done..].
      injection Hret as <- <- <- <-. split_and!.
      * by rewrite lookup_app_l.
      * intros l a Hl. rewrite lookup_app_l; [done|]. by eapply lookup_lt_Some.
      * intros l [= <-]. lia.
      * simpl. do 3 f_equal.
        rewrite lookup_app_r by lia.
        by replace (S (S (length h)) - length h)%nat with 2%nat by lia.
    + injection Hret as <- <- <- <-. split_and!.
      * by rewrite lookup_app_l.
      * intros l a Hl. rewrite lookup_app_l; [done|]. by eapply lookup_lt_Some.
      * done.
      * done.
  - intros gw bw -> -> Hwf Hf. rewrite E. clear E.
    rewrite (create_cover_spec gw bw grid Hwf). cbn [mbind outcome_bind].
    destruct (top_run gw bw grid Hwf) as (res & T & Q & Hrun & Hs).
    rewrite Hs by lia. cbn [mbind outcome_bind].
    destruct res; cbn [truthy]; [|by eexists _, _..].
    destruct (log_replay_unwind gw bw grid Hwf T Q Hrun) as (fin & -> & _).
    cbn [mbind outcome_bind].
    rewrite build_solving_path_spec by by eapply log_rows.
    cbn [mbind outcome_bind]. by eexists _, _.
Qed.

Lemma solve_sudoku_keeps_input_witness :
  (∀ completed t' path h',
     solve_sudoku_h tt 70 1%nat (Z.of_nat 4) (Z.of_nat 2) [g4full; g4]
     = Ret (completed, t', path, h') →
     h' !! 1%nat = Some g4
     ∧ (∀ l a, [g4full; g4] !! l = Some a → h' !! l = Some a)
     ∧ (∀ l, completed = Some l → (length [g4full; g4] ≤ l)%nat)
     ∧ solve_sudoku tt 70 g4 (Z.of_nat 4) (Z.of_nat 2)
       = Ret ((λ l, default [] (h' !! l)) <$> completed, t', path))
  ∧ (∀ gw bw, Z.of_nat 4 = Z.of_nat gw → Z.of_nat 2 = Z.of_nat bw →
       wf_sudoku gw bw g4 → (4 * gw * gw < 70)%nat →
       ∃ res h', solve_sudoku_h tt 70 1%nat (Z.of_nat 4) (Z.of_nat 2)
                   [g4full; g4]
                 = Ret (res, h')).
Proof.
  apply (solve_sudoku_keeps_input tt 70 1%nat g4 (Z.of_nat 4) (Z.of_nat 2)
           [g4full; g4]).
  reflexivity.
Defined.


(** ** The search finds an exact cover when there is one *)

Lemma exact_cover_after m sel rows cols row :
  closed m rows cols → exact_cover m sel rows cols → row ∈ sel →
  exact_cover m (filter (λ s, s ≠ row) sel)
    (rows_after m rows cols row) (cols_after m cols row).
Proof.
  intros Hcl [Hsub Hone] Hrow. split.
  - intros s [Hne Hs]%list_elem_of_filter. apply elem_of_rows_after.
    split; [by apply Hsub|]. intros (c & Hc & H1 & H2). apply Hne.
    by apply (filter_one_unique _ sel s row (Hone c Hc)).
  - intros c [Hc Hnc]%elem_of_cols_after. rewrite <-(Hone c Hc).
    rewrite list_filter_filter. apply length_filter_ext_in.
    intros s _. split; [tauto|]. intros Hs. split; [done|].
    intros ->. done.
Qed.

Lemma exact_cover_row m sel rows cols c :
  exact_cover m sel rows cols → c ∈ cols → ∃ r, r ∈ sel ∧ r ∈ rows ∧ covers m r c.
Proof.
  intros [Hsub Hone] Hc.
  destruct (filter_one_split _ sel (Hone c Hc)) as (l1 & r & l2 & -> & Hr & _).
  assert (r ∈ l1 ++ r :: l2) as Hin by (apply elem_of_app; right; left).
  exists r. split_and!; [done|by apply Hsub|done].
Qed.

Lemma run_complete m md rows cols res T Q :
  run m md rows cols res T Q →
  rect m → binary m → rows_ok m rows → cols_ok m cols → closed m rows cols →
  ∀ sel, exact_cover m sel rows cols →
  match md with
  | Entry => True
  | Cands l => ∃ col, col ∈ cols ∧ ∀ r, r ∈ sel → covers m r col → r ∈ l
  end →
  res = PyTrue.
Proof.
  intros Hrun Hm Hb. induction Hrun as
    [rows|rows cols col Hne Hmin|rows cols col count res T Q Hne Hmin Hcnt Hrun IH
    |rows cols|rows cols row cands T Q Hrun IH
    |rows cols row cands res0 Q res T' Q' Hres0 Hrun0 IH0 Hrun IH];
    intros Hr Hc Hcl sel HS Hmd.
  - done.
  - exfalso.
    destruct (min_col_elem m rows cols col 0) as [Hcol Hcount]; [done..|].
    destruct (exact_cover_row m sel rows cols col HS Hcol) as (r & _ & Hrin & Hrc).
    rewrite col_count_ones in Hcount by done. unfold ones_in in Hcount.
    assert (r ∈ filter (λ r, has_one m r col) rows) as Hin.
    { apply list_elem_of_filter. split; [by apply covers_has_one|done]. }
    destruct (filter _ rows); [by apply elem_of_nil in Hin|].
    simpl in Hcount. lia.
  - destruct (min_col_elem m rows cols col count) as [Hcol _]; [done..|].
    apply (IH Hr Hc Hcl sel HS). exists col. split; [done|].
    intros r Hrs Hrc. apply list_elem_of_filter. split; [done|].
    destruct HS as [Hsub _]. by apply Hsub.
  - exfalso. destruct Hmd as (col & Hcol & Hin).
    destruct (exact_cover_row m sel rows cols col HS Hcol) as (r & Hrs & _ & Hrc).
    by apply (not_elem_of_nil r), Hin.
  - done.
  - destruct Hmd as (col & Hcol & Hin).
    destruct (decide (row ∈ sel)) as [HrowS|HrowS].
    + exfalso.
      rewrite (IH0 (rows_ok_after _ _ _ _ Hr) (cols_ok_after _ _ _ Hc)
                 (closed_after _ _ _ _ Hcl) _
                 (exact_cover_after m sel rows cols row Hcl HS HrowS) I)
        in Hres0.
      done.
    + apply (IH Hr Hc Hcl sel HS). exists col. split; [done|].
      intros r Hrs Hrc. specialize (Hin r Hrs Hrc).
      apply elem_of_cons in Hin as [->|?]; done.
Qed.


(** ** Solvable puzzles are solved *)

(** The cells of a completed grid hold digits from 1 to [gw]: a row has
    [gw] cells and holds each of the [gw] digits. *)
Lemma valid_grid_digits gw bw fin r c :
  valid_grid gw bw fin → (r < gw)%nat → (c < gw)%nat →
  1 ≤ entry fin r c ≤ Z.of_nat gw.
Proof.
  intros [_ Hunits] Hr Hc.
  set (l := digits_at fin (row_cells gw r)).
  assert (seqZ 1 (Z.of_nat gw) ≡ₚ l) as Hperm.
  { apply submseteq_length_Permutation.
    - apply NoDup_submseteq; [apply NoDup_seqZ|].
      intros d Hd. rewrite Forall_forall in Hunits.
      specialize (Hunits r). rewrite Forall_forall in Hunits.
      destruct (Hunits ltac:(apply elem_of_seq; lia) d Hd) as (H1 & _ & _).
      fold l in H1. unfold occurrences in H1.
      destruct (filter_one_split _ _ H1) as (l1 & x & l2 & -> & -> & _).
      apply elem_of_app. right. left.
    - unfold l, digits_at, row_cells.
      rewrite !length_fmap, length_seq, length_seqZ. lia. }
  assert (entry fin r c ∈ l) as Hin.
  { unfold l, digits_at. apply list_elem_of_fmap. exists (r, c).
    split; [done|]. by apply elem_of_row_cells. }
  rewrite <-Hperm in Hin. apply elem_of_seqZ in Hin. lia.
Qed.

Lemma lookup_entry (m : matrix) r c row v :
  m !! r = Some row → row !! c = Some v → entry m r c = v.
Proof. intros Hr Hc. unfold entry. rewrite Hr. simpl. by rewrite Hc. Qed.

(** A completed grid is a well-formed puzzle without empty cell. *)
Lemma valid_grid_wf gw bw fin :
  (bw * bw = gw)%nat → valid_grid gw bw fin →
  wf_sudoku gw bw fin ∧ full_grid fin.
Proof.
  intros Hbw Hvalid. pose proof Hvalid as [[Hlen Hrows] _].
  assert (∀ r row c v, fin !! r = Some row → row !! c = Some v →
                       1 ≤ v ≤ Z.of_nat gw) as Hcell.
  { intros r row c v Hr Hc. rewrite <-(lookup_entry fin r c row v Hr Hc).
    apply (valid_grid_digits gw bw fin r c Hvalid).
    - apply lookup_lt_Some in Hr. lia.
    - rewrite Forall_lookup in Hrows. specialize (Hrows _ _ Hr).
      apply lookup_lt_Some in Hc. lia. }
  split.
  - split_and!; [done..|]. apply Forall_lookup. intros r row Hr. split.
    + rewrite Forall_lookup in Hrows. by apply (Hrows r).
    + apply Forall_lookup. intros c v Hc.
      specialize (Hcell r row c v Hr Hc). lia.
  - apply Forall_lookup. intros r row Hr. apply Forall_lookup. intros c v Hc.
    specialize (Hcell r row c v Hr Hc). lia.
Qed.

Section solved.
Context (gw bw : nat) (sudoku : matrix) (Hwf : wf_sudoku gw bw sudoku).
Context (fin : matrix) (Hvalid : valid_grid gw bw fin).
Context (Hext : extends gw sudoku fin).

Local Abbreviation g := (Z.of_nat gw).
Local Abbreviation b := (Z.of_nat bw).
Local Abbreviation P := (spec_possibilities gw sudoku).
Local Abbreviation M := (cover_row g b <$> P).
Local Abbreviation Pfin := (spec_possibilities gw fin).
Local Abbreviation Mfin := (cover_row g b <$> Pfin).

(** The cover rows of the digits of the completed grid. *)
Local Abbreviation chosen :=
  (filter (λ s, poss_at P s ∈ Pfin) (seq 0 (shape0 M))).

Lemma fin_wf : wf_sudoku gw bw fin.
Proof. apply valid_grid_wf; [by destruct Hwf|done]. Qed.

Lemma fin_full : full_grid fin.
Proof. apply (valid_grid_wf gw bw); [by destruct Hwf|done]. Qed.

(** The possibilities of the completed grid are possibilities of the
    puzzle. *)
Lemma fin_possibility p : p ∈ Pfin → p ∈ P.
Proof.
  destruct p as [[r c] n].
  rewrite (elem_of_full_possibilities gw bw fin fin_wf fin_full).
  intros (Hr & Hc & ->). apply elem_of_spec_possibilities.
  pose proof (valid_grid_digits gw bw fin r c Hvalid Hr Hc).
  split_and!; [done..|].
  destruct (decide (entry sudoku r c = 0)) as [Hz|Hz].
  - right. done.
  - left. split; [lia|]. symmetry.
    unfold extends in Hext. rewrite Forall_forall in Hext.
    specialize (Hext r ltac:(apply elem_of_seq; lia)).
    rewrite Forall_forall in Hext.
    apply (Hext c); [apply elem_of_seq; lia|done].
Qed.

(** The digits of a solution of the puzzle are an exact cover. *)
Lemma solution_exact_cover :
  exact_cover M chosen (seq 0 (shape0 M)) (seq 0 (shape1 M)).
Proof.
  split.
  - intros s [_ Hs]%list_elem_of_filter. done.
  - intros c Hc.
    assert (c ∈ seq 0 (shape1 Mfin)) as Hc'.
    { rewrite (cover_shape1 gw bw fin fin_wf).
      by rewrite (cover_shape1 gw bw sudoku Hwf) in Hc. }
    destruct (full_coverable gw bw fin fin_wf fin_full Hvalid c Hc')
      as (s' & _ & Hs').
    apply (covers_cover gw bw fin fin_wf) in Hs' as (p & Hp & Hin).
    pose proof (list_elem_of_lookup_2 _ _ _ Hp) as HpF.
    destruct (list_elem_of_lookup_1 _ _ (fin_possibility p HpF)) as [s Hs].
    assert (s ∈ seq 0 (shape0 M)) as Hsr.
    { rewrite (cover_shape0 gw bw sudoku). apply elem_of_seq.
      apply lookup_lt_Some in Hs. lia. }
    apply (filter_one_intro _ _ s).
    + apply NoDup_filter, NoDup_seq.
    + apply list_elem_of_filter. split; [|done].
      unfold poss_at. by rewrite Hs.
    + apply (covers_cover gw bw sudoku Hwf). by exists p.
    + intros y [Hy _]%list_elem_of_filter
        (q & Hq & Hqin)%(covers_cover gw bw sudoku Hwf).
      unfold poss_at in Hy. rewrite Hq in Hy. simpl in Hy.
      apply (NoDup_lookup P y s q); [apply NoDup_spec_possibilities|done|].
      rewrite Hs. f_equal.
      destruct (list_elem_of_lookup_1 _ _ Hy) as [y' Hy'].
      destruct (decide (y' = s')) as [->|Hne]; [congruence|].
      exfalso.
      apply (full_apart gw bw fin fin_wf fin_full Hvalid y' s') with c.
      * apply elem_of_seq. rewrite (cover_shape0 gw bw fin).
        apply lookup_lt_Some in Hy'. lia.
      * apply elem_of_seq. rewrite (cover_shape0 gw bw fin).
        apply lookup_lt_Some in Hp. lia.
      * done.
      * apply (covers_cover gw bw fin fin_wf). by exists q.
      * apply (covers_cover gw bw fin fin_wf). by exists p.
Qed.

(** The top-level search succeeds. *)
Lemma top_run_solved :
  ∃ T Q,
    run M Entry (seq 0 (shape0 M)) (seq 0 (shape1 M)) PyTrue T Q
    ∧ ∀ fuel, (Z.to_nat (4 * g * g) < fuel)%nat →
        solve fuel M M (seq 0 (shape0 M)) (seq 0 (shape1 M)) [] []
        = Ret (PyTrue, T, Q).
Proof.
  destruct (top_run gw bw sudoku Hwf) as (res & T & Q & Hrun & Hs).
  assert (res = PyTrue) as ->; [|by exists T, Q].
  apply (run_complete M Entry _ _ res T Q Hrun) with (sel := chosen);
    [by eapply cover_rect|by eapply cover_binary|by eapply cover_rows_ok
    |by eapply cover_cols_ok|by apply cover_closed| |done].
  apply solution_exact_cover.
Qed.
End solved.

(** On a well-formed puzzle with a solution [solve_sudoku] returns a
    completed grid and an action log. *)
Lemma solvable_solved {Tm : Type} (t : Tm) gw bw sudoku :
  wf_sudoku gw bw sudoku → solvable gw bw sudoku →
  ∃ completed path,
    ∀ fuel, (4 * gw * gw < fuel)%nat →
      solve_sudoku t fuel sudoku (Z.of_nat gw) (Z.of_nat bw)
      = Ret (Some completed, t, Some path).
Proof.
  intros Hwf (fin & Hvalid & Hext).
  destruct (top_run_solved gw bw sudoku Hwf fin Hvalid Hext)
    as (T & Q & Hrun & Hs).
  destruct (log_replay_unwind gw bw sudoku Hwf T Q Hrun)
    as (completed & Hfin & _).
  exists completed, (step_of (spec_possibilities gw sudoku) <$> Q).
  intros fuel Hf. unfold solve_sudoku.
  rewrite (create_cover_spec gw bw sudoku Hwf). cbn [mbind outcome_bind].
  rewrite Hs by lia. cbn [mbind outcome_bind truthy].
  rewrite Hfin. cbn [mbind outcome_bind].
  rewrite build_solving_path_spec by by eapply log_rows.
  done.
Qed.


(** ** The action log of a solved puzzle *)

(** C6, amended: on a well-formed puzzle with a solution [solve_sudoku]
    returns a completed grid and an action log; replaying a returned log on
    the puzzle ends in the completed grid, and undoing it in reverse on the
    completed grid ends in the grid with every cell empty, which is the
    puzzle when the puzzle had no filled cell. *)
Theorem log_replays_and_unwinds_to_empty {Tm : Type} (t : Tm) (gw bw : nat)
    (sudoku : matrix) :
  wf_sudoku gw bw sudoku →
  solvable gw bw sudoku →
  (∃ completed path,
     ∀ fuel, (4 * gw * gw < fuel)%nat →
       solve_sudoku t fuel sudoku (Z.of_nat gw) (Z.of_nat bw)
       = Ret (Some completed, t, Some path))
  ∧ ∀ fuel completed t' path,
      solve_sudoku t fuel sudoku (Z.of_nat gw) (Z.of_nat bw)
      = Ret (Some completed, t', Some path) →
      replay path sudoku = Ret completed
      ∧ unwind path completed = Ret (zeros_like sudoku)
      ∧ (empty_grid sudoku → unwind path completed = Ret sudoku).
Proof.
  intros Hwf Hsol. split; [by apply solvable_solved|].
  intros fuel completed t' path Hsolve. unfold solve_sudoku in Hsolve.
  rewrite (create_cover_spec gw bw sudoku Hwf) in Hsolve.
  cbn [mbind outcome_bind] in Hsolve.
  destruct (solve fuel _ _ _ _ _ _) as [[[res sol] Qp]| |] eqn:Hs;
    cbn [mbind outcome_bind] in Hsolve; [|done..].
  destruct res; cbn [truthy] in Hsolve; [|done..].
  pose proof (top_solve_Ret gw bw sudoku Hwf fuel _ _ _ Hs) as Hrun.
  destruct (log_replay_unwind gw bw sudoku Hwf sol Qp Hrun)
    as (fin & Hfin & Hreplay & Hunwind).
  rewrite Hfin in Hsolve. cbn [mbind outcome_bind] in Hsolve.
  rewrite build_solving_path_spec in Hsolve by by eapply log_rows.
  cbn [mbind outcome_bind] in Hsolve. injection Hsolve as <- _ <-.
  split_and!; [done|done|]. intros He. by rewrite zeros_like_empty in Hunwind.
Qed.

Lemma log_replays_and_unwinds_to_empty_witness :
  (∃ completed path,
     ∀ fuel, (4 * 1 * 1 < fuel)%nat →
       solve_sudoku tt fuel [[1]] (Z.of_nat 1) (Z.of_nat 1)
       = Ret (Some completed, tt, Some path))
  ∧ ∀ fuel completed t' path,
      solve_sudoku tt fuel [[1]] (Z.of_nat 1) (Z.of_nat 1)
      = Ret (Some completed, t', Some path) →
      replay path [[1]] = Ret completed
      ∧ unwind path completed = Ret (zeros_like [[1]])
      ∧ (empty_grid [[1]] → unwind path completed = Ret [[1]]).
Proof.
  apply (log_replays_and_unwinds_to_empty tt 1 1 [[1]]).
  - compute_done.
  - exists [[1]]. split; compute_done.
Defined.

(** C6 as stated fails on the 1 by 1 puzzle whose cell is filled, which is
    its own solution: undoing the log empties the cell. *)
Lemma log_round_trip_fails :
  wf_sudoku 1 1 [[1]] ∧ solvable 1 1 [[1]] ∧ ¬ log_round_trip 1 1 [[1]].
Proof.
  split_and!; [compute_done|exists [[1]]; split; compute_done|].
  intros H.
  destruct (H 5%nat [[1]] [("ins"%string, 0%nat, 0%nat, 1)]) as [_ Hu].
  - vm_compute. reflexivity.
  - vm_compute in Hu. discriminate.
Qed.


(** ** [solve] on an arbitrary 0/1 matrix *)

Lemma rect_covers_lt m r c :
  rect m → covers m r c → (r < shape0 m)%nat ∧ (c < shape1 m)%nat.
Proof.
  intros Hm Hc. unfold covers, entry in Hc.
  destruct (m !! r) as [row|] eqn:Hr; simpl in Hc; [|done].
  destruct (row !! c) as [v|] eqn:Hv; simpl in Hc; [|done].
  split.
  - by eapply lookup_lt_Some.
  - rewrite <-(rect_lookup m r row Hm Hr). by eapply lookup_lt_Some.
Qed.

Lemma full_rows_ok m : rows_ok m (seq 0 (shape0 m)).
Proof. apply Forall_forall. intros r Hr%elem_of_seq. lia. Qed.

Lemma full_cols_ok m : cols_ok m (seq 0 (shape1 m)).
Proof. apply Forall_forall. intros r Hr%elem_of_seq. lia. Qed.

Lemma full_closed m : rect m → closed m (seq 0 (shape0 m)) (seq 0 (shape1 m)).
Proof.
  intros Hm r c _ Hc. apply elem_of_seq.
  destruct (rect_covers_lt m r c Hm Hc). lia.
Qed.

(** X1: called on all rows and all columns of a rectangular 0/1 matrix,
    [solve] returns [True] exactly when some of the rows cover every column
    exactly once, and the solution it then leaves is such a set of rows. *)
Theorem solve_decides_exact_cover (m : matrix) :
  rect m → binary m →
  ∃ res solution solution_path,
    (∀ fuel, (shape1 m < fuel)%nat →
       solve fuel m m (seq 0 (shape0 m)) (seq 0 (shape1 m)) [] []
       = Ret (res, solution, solution_path))
    ∧ (res = PyTrue
       ↔ ∃ sel, exact_cover m sel (seq 0 (shape0 m)) (seq 0 (shape1 m)))
    ∧ (res = PyTrue →
       exact_cover m solution (seq 0 (shape0 m)) (seq 0 (shape1 m))).
Proof.
  intros Hm Hb.
  destruct (run_total m (seq 0 (shape0 m)) (seq 0 (shape1 m)))
    as (res & T & Q & Hrun); [done|apply full_rows_ok|apply full_cols_ok|].
  exists res, T, Q.
  assert (res = PyTrue →
          exact_cover m T (seq 0 (shape0 m)) (seq 0 (shape1 m))) as Hsound.
  { intros ->.
    destruct (run_exact_cover m Entry _ _ _ _ _ Hrun) as [Hsub Hc];
      [by apply full_closed|apply list_subseteq_nil|done|].
    split; [done|]. intros c. apply Hc. }
  split_and!; [|split|done].
  - intros fuel Hf.
    apply (solve_run m _ _ res T Q fuel [] [] Hrun Hm);
      [apply full_rows_ok|apply full_cols_ok|by rewrite length_seq].
  - intros H. exists T. auto.
  - intros [sel Hsel].
    apply (run_complete m Entry _ _ res T Q Hrun) with (sel := sel);
      [done|done|apply full_rows_ok|apply full_cols_ok|by apply full_closed
      |done|done].
Qed.

Lemma solve_decides_exact_cover_witness :
  ∃ res solution solution_path,
    (∀ fuel, (shape1 m3 < fuel)%nat →
       solve fuel m3 m3 (seq 0 (shape0 m3)) (seq 0 (shape1 m3)) [] []
       = Ret (res, solution, solution_path))
    ∧ (res = PyTrue
       ↔ ∃ sel, exact_cover m3 sel (seq 0 (shape0 m3)) (seq 0 (shape1 m3)))
    ∧ (res = PyTrue →
       exact_cover m3 solution (seq 0 (shape0 m3)) (seq 0 (shape1 m3))).
Proof. apply (solve_decides_exact_cover m3); compute_done. Defined.

(** ** The path and the solution *)

Lemma run_stack m md rows cols res T Q :
  run m md rows cols res T Q → ∀ s, foldl apply_event s Q = s ++ T.
Proof.
  induction 1 as
    [rows|rows cols col Hne Hmin|rows cols col count res T Q Hne Hmin Hcnt Hrun IH
    |rows cols|rows cols row cands T Q Hrun IH
    |rows cols row cands res0 Q res T' Q' Hres0 Hrun0 IH0 Hrun IH];
    intros s; cbn [foldl]; rewrite ?app_nil_r; try done.
  - unfold apply_event at 2. cbn [fst snd]. rewrite decide_True by done.
    by rewrite IH, <-app_assoc.
  - unfold apply_event at 2. cbn [fst snd]. rewrite decide_True by done.
    rewrite foldl_app, IH0, app_nil_r. cbn [foldl].
    unfold apply_event at 2. cbn [fst snd]. rewrite decide_False by done.
    by rewrite removelast_last, IH.
Qed.

(** X2: whatever [solve] returns, the events it appended to the path,
    read as pushes and pops, take the solution it was given to the solution
    it leaves; a search that fails leaves the solution as it was given, and
    a deselection only ever follows a selection of the same row. *)
Theorem path_tracks_solution (m : matrix) (fuel : nat)
    (active_rows active_cols solution : list nat)
    (solution_path : list (Z * nat)) res solution' solution_path' :
  rect m → rows_ok m active_rows → cols_ok m active_cols →
  solve fuel m m active_rows active_cols solution solution_path
  = Ret (res, solution', solution_path') →
  ∃ events,
    solution_path' = solution_path ++ events
    ∧ foldl apply_event solution events = solution'
    ∧ solution `prefix_of` solution'
    ∧ (res ≠ PyTrue → solution' = solution)
    ∧ ∀ before row after,
        events = before ++ (0, row) :: after → (1, row) ∈ before.
Proof.
  intros Hm Hr Hc Hs.
  apply solve_Ret_run in Hs as (T & Q & Hrun & -> & ->); [|done..].
  exists Q. split_and!; [done|by eapply run_stack|by exists T| |].
  - intros Hres. rewrite (run_fail_nil _ _ _ _ _ _ _ Hrun).
    + by rewrite app_nil_r.
    + by destruct res.
  - clear Hr Hc. revert Hrun.
    generalize Entry. intros md Hrun.
    induction Hrun as
      [rows|rows cols col Hne Hmin|rows cols col count res T Q Hne Hmin Hcnt Hrun IH
      |rows cols|rows cols row cands T Q Hrun IH
      |rows cols row cands res0 Q res T' Q' Hres0 Hrun0 IH0 Hrun IH].
    + apply opened_nil.
    + apply opened_nil.
    + done.
    + apply opened_nil.
    + by apply opened_select.
    + change ((1, row) :: Q ++ (0, row) :: Q')
        with (((1, row) :: Q) ++ (0, row) :: Q').
      replace (((1, row) :: Q) ++ (0, row) :: Q')
        with (((1, row) :: Q ++ [(0, row)]) ++ Q')
        by (cbn [app]; by rewrite <-app_assoc).
      apply opened_app; [by apply opened_bracket|done].
Qed.

Lemma path_tracks_solution_witness :
  ∃ events,
    [(1, 0%nat); (0, 0%nat); (1, 1%nat); (1, 2%nat)] = [] ++ events
    ∧ foldl apply_event [] events = [1%nat; 2%nat]
    ∧ [] `prefix_of` [1%nat; 2%nat]
    ∧ (PyTrue ≠ PyTrue → [1%nat; 2%nat] = [])
    ∧ ∀ before row after,
        events = before ++ (0, row) :: after → (1, row) ∈ before.
Proof.
  apply (path_tracks_solution m43 5 [0;1;2;3]%nat [0;1;2]%nat [] []
           PyTrue [1;2]%nat [(1, 0%nat); (0, 0%nat); (1, 1%nat); (1, 2%nat)]).
  - compute_done.
  - compute_done.
  - compute_done.
  - vm_compute. reflexivity.
Defined.


(** ** The returned grid and the puzzle *)

(** A returned grid is a solution of the puzzle. *)
Lemma solve_sudoku_Some_solution {Tm : Type} (t t' : Tm) fuel gw bw sudoku
    completed path :
  wf_sudoku gw bw sudoku →
  solve_sudoku t fuel sudoku (Z.of_nat gw) (Z.of_nat bw)
  = Ret (Some completed, t', path) →
  valid_grid gw bw completed ∧ extends gw sudoku completed.
Proof.
  intros Hwf Hsolve. unfold solve_sudoku in Hsolve.
  rewrite (create_cover_spec gw bw sudoku Hwf) in Hsolve.
  cbn [mbind outcome_bind] in Hsolve.
  destruct (solve fuel _ _ _ _ _ _) as [[[res sol] Qp]| |] eqn:Hs;
    cbn [mbind outcome_bind] in Hsolve; [|done..].
  destruct res; cbn [truthy] in Hsolve; [|done..].
  pose proof (top_solve_Ret gw bw sudoku Hwf fuel _ _ _ Hs) as Hrun.
  destruct (top_exact_cover gw bw sudoku Hwf sol Qp Hrun) as [HT Hex].
  destruct (build_final_sudoku_valid gw bw sudoku Hwf sol HT Hex)
    as (fin & Hfin & Hvalid & Hext).
  rewrite Hfin in Hsolve. cbn [mbind outcome_bind] in Hsolve.
  destruct (build_solving_path _ _) as [sp| |];
    cbn [mbind outcome_bind] in Hsolve; [|done..].
  by injection Hsolve as <- _ _.
Qed.

Lemma wf_sudoku_entry_lt gw bw sudoku r c :
  wf_sudoku gw bw sudoku → entry sudoku r c ≠ 0 → (r < gw)%nat ∧ (c < gw)%nat.
Proof.
  intros (_ & Hlen & Hrows) He. unfold entry in He.
  destruct (sudoku !! r) as [row|] eqn:Hr; simpl in He; [|done].
  destruct (row !! c) as [v|] eqn:Hv; simpl in He; [|done].
  rewrite Forall_lookup in Hrows. destruct (Hrows _ _ Hr) as [Hl _].
  apply lookup_lt_Some in Hr, Hv. lia.
Qed.

(** X3: a grid returned for a well-formed puzzle keeps every given digit
    of the puzzle, has the puzzle's side, and holds a digit from 1 to [gw]
    in every cell; when the puzzle has one solution only, that solution is
    the grid returned. *)
Theorem returned_grid_keeps_givens {Tm : Type} (t t' : Tm) (fuel : nat)
    (gw bw : nat) (sudoku completed : matrix) (path : option (list step)) :
  wf_sudoku gw bw sudoku →
  solve_sudoku t fuel sudoku (Z.of_nat gw) (Z.of_nat bw)
  = Ret (Some completed, t', path) →
  (∀ r c, entry sudoku r c ≠ 0 → entry completed r c = entry sudoku r c)
  ∧ square gw completed
  ∧ (∀ r c, (r < gw)%nat → (c < gw)%nat →
            1 ≤ entry completed r c ≤ Z.of_nat gw)
  ∧ ∀ g, (∀ g', valid_grid gw bw g' → extends gw sudoku g' → g' = g) →
         completed = g.
Proof.
  intros Hwf Hsolve.
  destruct (solve_sudoku_Some_solution t t' fuel gw bw sudoku completed path
              Hwf Hsolve) as [Hvalid Hext].
  split_and!.
  - intros r c He.
    destruct (wf_sudoku_entry_lt gw bw sudoku r c Hwf He).
    by apply (extends_entry gw).
  - by destruct Hvalid.
  - intros r c Hr Hc. by apply (valid_grid_digits gw bw).
  - intros g Hg. by apply Hg.
Qed.

Lemma returned_grid_keeps_givens_witness :
  (∀ r c, entry g4 r c ≠ 0 → entry g4full r c = entry g4 r c)
  ∧ square 4 g4full
  ∧ (∀ r c, (r < 4)%nat → (c < 4)%nat → 1 ≤ entry g4full r c ≤ Z.of_nat 4)
  ∧ ∀ g, (∀ g', valid_grid 4 2 g' → extends 4 g4 g' → g' = g) →
         g4full = g.
Proof.
  apply (returned_grid_keeps_givens tt tt 20 4 2 g4 g4full
           (Some [("ins"%string, 0%nat, 0%nat, 1); ("ins"%string, 1%nat, 2%nat, 3);
             ("ins"%string, 2%nat, 1%nat, 4); ("ins"%string, 1%nat, 1%nat, 2);
             ("ins"%string, 0%nat, 1%nat, 3); ("ins"%string, 1%nat, 0%nat, 4);
             ("ins"%string, 1%nat, 3%nat, 1); ("ins"%string, 3%nat, 1%nat, 1);
             ("ins"%string, 3%nat, 3%nat, 2); ("ins"%string, 0%nat, 3%nat, 4);
             ("ins"%string, 0%nat, 2%nat, 2); ("ins"%string, 2%nat, 2%nat, 1);
             ("ins"%string, 2%nat, 3%nat, 3); ("ins"%string, 2%nat, 0%nat, 2);
             ("ins"%string, 3%nat, 0%nat, 3); ("ins"%string, 3%nat, 2%nat, 4)])).
  - compute_done.
  - vm_compute. reflexivity.
Defined.

Lemma extends_refl gw g : extends gw g g.
Proof.
  apply Forall_forall. intros r _. apply Forall_forall. by intros c _ _.
Qed.

(** X4: solving a grid that [solve_sudoku] returned gives that grid
    again. *)
Theorem solving_a_returned_grid_returns_it {Tm : Type} (t t' : Tm)
    (fuel : nat) (gw bw : nat) (sudoku completed : matrix)
    (path : option (list step)) :
  wf_sudoku gw bw sudoku →
  solve_sudoku t fuel sudoku (Z.of_nat gw) (Z.of_nat bw)
  = Ret (Some completed, t', path) →
  ∃ path',
    ∀ fuel', (4 * gw * gw < fuel')%nat →
      solve_sudoku t fuel' completed (Z.of_nat gw) (Z.of_nat bw)
      = Ret (Some completed, t, Some path').
Proof.
  intros Hwf Hsolve.
  destruct (solve_sudoku_Some_solution t t' fuel gw bw sudoku completed path
              Hwf Hsolve) as [Hvalid _].
  assert (bw * bw = gw)%nat as Hbw by by destruct Hwf.
  destruct (valid_grid_wf gw bw completed Hbw Hvalid) as [Hwf' Hfull].
  destruct (solvable_solved t gw bw completed Hwf') as (again & path' & Hag).
  { exists completed. split; [done|apply extends_refl]. }
  exists path'. intros fuel' Hf. rewrite (Hag fuel' Hf).
  enough (again = completed) as -> by done.
  destruct (solve_sudoku_Some_solution t t (S (4 * gw * gw)) gw bw completed
              again (Some path') Hwf'
              (Hag (S (4 * gw * gw)) ltac:(lia))) as [Hv2 Hext].
  apply (square_ext gw); [by destruct Hv2|by destruct Hvalid|].
  intros r c Hr Hc.
  pose proof (valid_grid_digits gw bw completed r c Hvalid Hr Hc).
  apply (extends_entry gw completed again r c Hext Hr Hc). lia.
Qed.

Lemma solving_a_returned_grid_returns_it_witness :
  ∃ path',
    ∀ fuel', (4 * 1 * 1 < fuel')%nat →
      solve_sudoku tt fuel' [[1]] (Z.of_nat 1) (Z.of_nat 1)
      = Ret (Some [[1]], tt, Some path').
Proof.
  apply (solving_a_returned_grid_returns_it tt tt 5 1 1 [[0]] [[1]]
           (Some [("ins"%string, 0%nat, 0%nat, 1)])).
  - compute_done.
  - vm_compute. reflexivity.
Defined.


(** ** How deep the search nests *)

(** Selecting a row with [k] 1s takes [k] columns away. *)
Lemma cols_after_heavy k m rows cols row :
  closed m rows cols → heavy k m rows → row ∈ rows →
  (length (cols_after m cols row) + k ≤ length cols)%nat.
Proof.
  intros Hcl Hh Hrow. destruct (Hh row Hrow) as (cs & Hnd & <- & Hcs).
  assert (cs ++ cols_after m cols row ⊆+ cols) as Hsub.
  { apply NoDup_submseteq.
    - apply NoDup_app. split_and!; [done| |].
      + intros c Hc [_ Hn]%elem_of_cols_after. auto.
      + apply StronglySorted_lt_NoDup, cols_after_sorted.
    - intros c [Hc|Hc]%elem_of_app.
      + by apply (Hcl row), Hcs.
      + by apply elem_of_cols_after in Hc as [? _]. }
  apply submseteq_length in Hsub. rewrite length_app in Hsub. lia.
Qed.

Lemma heavy_after k m rows cols row :
  heavy k m rows → heavy k m (rows_after m rows cols row).
Proof. intros Hh r [Hr _]%elem_of_rows_after. by apply Hh. Qed.

(** When every row has [k] 1s, a fuel of more than a [k]-th of the number
    of active columns is enough. *)
Lemma run_depth k m md rows cols res T Q :
  run m md rows cols res T Q →
  rect m → rows_ok m rows → cols_ok m cols → closed m rows cols →
  heavy k m rows →
  match md with
  | Entry => ∀ fuel s p, (length cols < k * fuel)%nat →
      solve fuel m m rows cols s p = Ret (res, s ++ T, p ++ Q)
  | Cands cands => rows_ok m cands → claiming m cols cands → cands ⊆ rows →
      ∀ fuel s p, (length cols < k * S fuel)%nat →
      candidates_loop (solve fuel m m) m rows cols cands s p
      = Ret (res, s ++ T, p ++ Q)
  end.
Proof.
  intros Hrun Hm. induction Hrun as
    [rows|rows cols col Hne Hmin|rows cols col count res T Q Hne Hmin Hcnt Hrun IH
    |rows cols|rows cols row cands T Q Hrun IH
    |rows cols row cands res0 Q res T' Q' Hres0 Hrun0 IH0 Hrun IH];
    intros Hrows Hcols Hcl Hh.
  - intros [|fuel] s p Hf; [simpl in Hf; lia|]. simpl.
    unfold solve_body. simpl. by rewrite !app_nil_r.
  - intros [|fuel] s p Hf; [lia|]. cbn [solve].
    destruct (min_col_elem m rows cols col 0) as [Hcol _]; [done..|].
    rewrite (solve_body_canon _ m rows cols s p col 0) by done.
    simpl. by rewrite !app_nil_r.
  - intros [|fuel] s p Hf; [lia|]. cbn [solve].
    destruct (min_col_elem m rows cols col count) as [Hcol _]; [done..|].
    rewrite (solve_body_canon _ m rows cols s p col count) by done.
    destruct (decide (count = 0)); [done|].
    apply IH; auto using candidates_filter_ok, candidates_claiming.
    intros r [_ Hr]%list_elem_of_filter. done.
  - intros _ _ _ fuel s p _. simpl. by rewrite !app_nil_r.
  - intros Hcands Hclaim Hsub fuel s p Hf. cbn [candidates_loop].
    assert (row ∈ rows) as Hrow by (apply Hsub; left).
    pose proof (cols_after_heavy k m rows cols row Hcl Hh Hrow) as Hlen.
    rewrite (IH (rows_ok_after _ _ _ _ Hrows) (cols_ok_after _ _ _ Hcols)
               (closed_after _ _ _ _ Hcl) (heavy_after _ _ _ _ _ Hh)) by lia.
    simpl. by rewrite <-!app_assoc.
  - intros Hcands Hclaim Hsub fuel s p Hf. cbn [candidates_loop].
    assert (row ∈ rows) as Hrow by (apply Hsub; left).
    pose proof (cols_after_heavy k m rows cols row Hcl Hh Hrow) as Hlen.
    apply Forall_cons in Hclaim as [_ Hclaim].
    apply Forall_cons in Hcands as [_ Hcands].
    rewrite (IH0 (rows_ok_after _ _ _ _ Hrows) (cols_ok_after _ _ _ Hcols)
               (closed_after _ _ _ _ Hcl) (heavy_after _ _ _ _ _ Hh)) by lia.
    cbn [mbind outcome_bind]. rewrite Hres0, app_nil_r, pop_snoc.
    cbn [mbind outcome_bind].
    rewrite (IH Hrows Hcols Hcl Hh Hcands Hclaim) by
      first [done | intros r Hr; apply Hsub; by right].
    by rewrite <-!app_assoc.
Qed.

(** ** Shape of the cover matrix *)

(** Every row of the cover matrix of a puzzle has four 1s. *)
Lemma cover_heavy gw bw sudoku :
  wf_sudoku gw bw sudoku →
  let M := cover_row (Z.of_nat gw) (Z.of_nat bw)
             <$> spec_possibilities gw sudoku in
  heavy 4 M (seq 0 (shape0 M)).
Proof.
  intros Hwf M r Hr%elem_of_seq. unfold M in Hr.
  rewrite (cover_shape0 gw bw sudoku) in Hr.
  destruct (lookup_lt_is_Some_2 (spec_possibilities gw sudoku) r)
    as [p Hp]; [lia|].
  assert (bw * bw = gw)%nat as Hbw by by destruct Hwf.
  pose proof (P_valid gw bw sudoku Hwf r p Hp) as Hv.
  destruct (spec_columns_range gw bw p Hbw Hv) as [Hnd Hrange].
  destruct p as [[r0 c0] n].
  destruct (spec_columns_bounds gw bw r0 c0 n Hbw Hv)
    as (j1 & j2 & j3 & j4 & E & _).
  exists (Z.to_nat <$> spec_columns (Z.of_nat gw) (Z.of_nat bw) (r0, c0, n)).
  split_and!.
  - apply NoDup_fmap_2_strong; [|done].
    rewrite Forall_forall in Hrange.
    intros x y Hx%Hrange Hy%Hrange. lia.
  - rewrite length_fmap. cbv zeta in E. by rewrite E.
  - intros c (j & -> & Hj)%list_elem_of_fmap.
    apply (covers_cover gw bw sudoku Hwf). exists (r0, c0, n).
    split; [done|]. rewrite Forall_forall in Hrange.
    specialize (Hrange j Hj). by rewrite Z2Nat.id by lia.
Qed.

(** The top-level search returns with a fuel above the number of cells. *)
Lemma top_run_cells gw bw sudoku :
  wf_sudoku gw bw sudoku →
  let M := cover_row (Z.of_nat gw) (Z.of_nat bw)
             <$> spec_possibilities gw sudoku in
  ∃ res T Q,
    run M Entry (seq 0 (shape0 M)) (seq 0 (shape1 M)) res T Q
    ∧ ∀ fuel, (gw * gw < fuel)%nat →
        solve fuel M M (seq 0 (shape0 M)) (seq 0 (shape1 M)) [] []
        = Ret (res, T, Q).
Proof.
  intros Hwf M.
  destruct (top_run gw bw sudoku Hwf) as (res & T & Q & Hrun & _).
  exists res, T, Q. split; [done|]. intros fuel Hf.
  apply (run_depth 4 M Entry _ _ res T Q Hrun);
    [by eapply cover_rect|by eapply cover_rows_ok|by eapply cover_cols_ok
    |by apply cover_closed|by apply cover_heavy|].
  rewrite length_seq. unfold M. rewrite (cover_shape1 gw bw sudoku Hwf). lia.
Qed.

(** X5: on a well-formed puzzle the recursion of [solve] never nests
    deeper than the number of cells plus one: [solve_sudoku] returns its
    result, a grid with a log or neither, for every depth allowance above
    [gw * gw]. *)
Theorem recursion_no_deeper_than_cells {Tm : Type} (t : Tm) (gw bw : nat)
    (sudoku : matrix) :
  wf_sudoku gw bw sudoku →
  ∃ completed path,
    (completed = None ↔ path = None)
    ∧ ∀ fuel, (gw * gw < fuel)%nat →
        solve_sudoku t fuel sudoku (Z.of_nat gw) (Z.of_nat bw)
        = Ret (completed, t, path).
Proof.
  intros Hwf.
  destruct (top_run_cells gw bw sudoku Hwf) as (res & T & Q & Hrun & Hs).
  destruct (truthy res) eqn:Hres.
  - destruct res; try done.
    destruct (log_replay_unwind gw bw sudoku Hwf T Q Hrun)
      as (fin & Hfin & _).
    exists (Some fin), (Some (step_of (spec_possibilities gw sudoku) <$> Q)).
    split; [done|]. intros fuel Hf. unfold solve_sudoku.
    rewrite (create_cover_spec gw bw sudoku Hwf). cbn [mbind outcome_bind].
    rewrite Hs by done. cbn [mbind outcome_bind truthy].
    rewrite Hfin. cbn [mbind outcome_bind].
    rewrite build_solving_path_spec by by eapply log_rows.
    done.
  - exists None, None. split; [done|]. intros fuel Hf. unfold solve_sudoku.
    rewrite (create_cover_spec gw bw sudoku Hwf). cbn [mbind outcome_bind].
    rewrite Hs by done. cbn [mbind outcome_bind]. by rewrite Hres.
Qed.

Lemma recursion_no_deeper_than_cells_witness :
  ∃ completed path,
    (completed = None ↔ path = None)
    ∧ ∀ fuel, (4 * 4 < fuel)%nat →
        solve_sudoku tt fuel g4 (Z.of_nat 4) (Z.of_nat 2)
        = Ret (completed, tt, path).
Proof. apply (recursion_no_deeper_than_cells tt 4 2 g4). compute_done. Defined.


(** ** One selected row for every cell *)

(** A search that returns has nested at least as deep as the solution it
    leaves is long. *)
Lemma run_depth_lower m md rows cols res T Q :
  run m md rows cols res T Q →
  rect m → rows_ok m rows → cols_ok m cols →
  match md with
  | Entry => ∀ fuel s p x,
      solve fuel m m rows cols s p = Ret x → (length T < fuel)%nat
  | Cands cands => ∀ fuel s p x,
      candidates_loop (solve fuel m m) m rows cols cands s p = Ret x →
      (length T ≤ fuel)%nat
  end.
Proof.
  intros Hrun Hm. induction Hrun as
    [rows|rows cols col Hne Hmin|rows cols col count res T Q Hne Hmin Hcnt Hrun IH
    |rows cols|rows cols row cands T Q Hrun IH
    |rows cols row cands res0 Q res T' Q' Hres0 Hrun0 IH0 Hrun IH];
    intros Hrows Hcols.
  - intros [|fuel] s p x Hs; [done|]. simpl. lia.
  - intros [|fuel] s p x Hs; [done|]. simpl. lia.
  - intros [|fuel] s p x Hs; [done|]. cbn [solve] in Hs.
    destruct (min_col_elem m rows cols col count) as [Hcol _]; [done..|].
    rewrite (solve_body_canon _ m rows cols s p col count) in Hs by done.
    destruct (decide (count = 0)); [done|].
    specialize (IH Hrows Hcols fuel s p x Hs). lia.
  - intros fuel s p x _. simpl. lia.
  - intros fuel s p x Hs. cbn [candidates_loop] in Hs.
    destruct (solve fuel m m _ _ _ _) as [y| |] eqn:Hy; [|done..].
    specialize (IH (rows_ok_after _ _ _ _ Hrows) (cols_ok_after _ _ _ Hcols)
                  fuel _ _ y Hy).
    simpl. lia.
  - intros fuel s p x Hs. cbn [candidates_loop] in Hs.
    destruct (solve fuel m m _ _ _ _) as [y| |] eqn:Hy; [|done..].
    pose proof (solve_run m _ _ res0 [] Q
                  (fuel `max` S (length (cols_after m cols row)))
                  (s ++ [row]) (p ++ [(1, row)]) Hrun0 Hm
                  (rows_ok_after _ _ _ _ Hrows) (cols_ok_after _ _ _ Hcols)
                  ltac:(lia)) as Hbig.
    rewrite (solve_mono fuel _ _ _ _ _ _ _ _ (Nat.le_max_l _ _) Hy) in Hbig.
    injection Hbig as ->. cbn [mbind outcome_bind] in Hs.
    rewrite Hres0, app_nil_r, pop_snoc in Hs. cbn [mbind outcome_bind] in Hs.
    by eapply (IH Hrows Hcols).
Qed.

(** Selections outnumber deselections by the length of the solution. *)
Lemma run_net m md rows cols res T Q :
  run m md rows cols res T Q →
  length (filter (λ e : Z * nat, e.1 = 1%Z) Q)
  = (length (filter (λ e : Z * nat, e.1 ≠ 1%Z) Q) + length T)%nat.
Proof.
  induction 1 as
    [rows|rows cols col Hne Hmin|rows cols col count res T Q Hne Hmin Hcnt Hrun IH
    |rows cols|rows cols row cands T Q Hrun IH
    |rows cols row cands res0 Q res T' Q' Hres0 Hrun0 IH0 Hrun IH];
    try done.
  - rewrite !filter_cons. cbn [fst]. rewrite decide_True by done.
    rewrite decide_False by (intros H; by apply H).
    cbn [length]. rewrite Nat.add_succ_r. f_equal. exact IH.
  - rewrite !filter_cons, !filter_app, !filter_cons. cbn [fst].
    destruct (decide (1 = 1)) as [_|[]]; [|done].
    destruct (decide (1 ≠ 1)) as [[]|_]; [done|].
    destruct (decide (0 = 1)) as [|_]; [done|].
    destruct (decide (0 ≠ 1)) as [_|[]]; [|done].
    cbn [length]. rewrite !length_app. cbn [length].
    cbn [length] in IH0. rewrite Nat.add_0_r in IH0.
    rewrite IH0, IH. clear.
    generalize (length (filter (λ e : Z * nat, e.1 ≠ 1) Q)).
    generalize (length (filter (λ e : Z * nat, e.1 ≠ 1) Q')).
    intros a b. lia.
Qed.

(** An exact cover of the cover matrix of a puzzle has one row for every
    cell. *)
Lemma exact_cover_cells gw bw sudoku (T : list nat) :
  wf_sudoku gw bw sudoku →
  let M := cover_row (Z.of_nat gw) (Z.of_nat bw)
             <$> spec_possibilities gw sudoku in
  exact_cover M T (seq 0 (shape0 M)) (seq 0 (shape1 M)) →
  length T = (gw * gw)%nat.
Proof.
  intros Hwf M [Hsub Hone].
  pose proof (cover_heavy gw bw sudoku Hwf) as Hh. fold M in Hh.
  assert (∀ c, (c < 4 * gw * gw)%nat →
               length (filter (λ r, covers M r c) T) = 1%nat) as Hex.
  { intros c Hc. apply Hone. unfold M.
    rewrite (cover_shape1 gw bw sudoku Hwf). apply elem_of_seq. lia. }
  assert (∀ r c, covers M r c → (c < 4 * gw * gw)%nat) as Hlt.
  { intros r c Hc%(covers_cover_lt gw bw sudoku Hwf). lia. }
  clear Hone.
  assert (NoDup T) as HT.
  { apply (exact_cover_NoDup M). intros t Ht.
    destruct (Hh t (Hsub t Ht)) as (cs & _ & Hlen & Hcs).
    destruct cs as [|c cs]; [done|]. exists c.
    assert (covers M t c) as Hc by (apply Hcs; left).
    split; [done|]. apply Hex. by eapply Hlt. }
  enough (∃ f : nat → list nat,
             (∀ t, t ∈ T → length (f t) = 4%nat)
             ∧ T ≫= f ≡ₚ seq 0 (4 * gw * gw)) as (f & Hf & Hperm).
  { apply Permutation_length in Hperm.
    rewrite length_bind_sum, length_seq in Hperm.
    rewrite (sum_list_with_ext_in _ (λ _, 4%nat)) in Hperm by done.
    assert (sum_list_with (λ _ : nat, 4%nat) T = 4 * length T)%nat as E.
    { clear. induction T; simpl; lia. }
    rewrite E in Hperm. clear -Hperm. nia. }
  assert (∀ t, t ∈ T →
             ∃ cs, NoDup cs ∧ length cs = 4%nat
                   ∧ ∀ c, c ∈ cs ↔ covers M t c) as Hcols.
  { intros t Ht. exists (filter (covers M t) (seq 0 (4 * gw * gw))).
    assert (NoDup (filter (covers M t) (seq 0 (4 * gw * gw)))) as Hnd
      by apply NoDup_filter, NoDup_seq.
    assert (∀ c, c ∈ filter (covers M t) (seq 0 (4 * gw * gw))
                 ↔ covers M t c) as Hel.
    { intros c. rewrite list_elem_of_filter, elem_of_seq.
      split; [tauto|]. intros Hc. split; [done|]. apply Hlt in Hc. lia. }
    split_and!; [done| |done].
    pose proof (Hsub t Ht) as Hr. apply elem_of_seq in Hr. unfold M in Hr.
    rewrite (cover_shape0 gw bw sudoku) in Hr.
    destruct (lookup_lt_is_Some_2 (spec_possibilities gw sudoku) t)
      as [p Hp]; [lia|].
    assert (bw * bw = gw)%nat as Hbw by by destruct Hwf.
    pose proof (P_valid gw bw sudoku Hwf t p Hp) as Hv.
    destruct (spec_columns_range gw bw p Hbw Hv) as [Hnd' Hrange].
    destruct p as [[r0 c0] n].
    destruct (spec_columns_bounds gw bw r0 c0 n Hbw Hv)
      as (j1 & j2 & j3 & j4 & E & _). cbv zeta in E.
    transitivity (length (Z.to_nat <$> spec_columns (Z.of_nat gw) (Z.of_nat bw)
                                         (r0, c0, n))).
    2:{ by rewrite length_fmap, E. }
    apply Permutation_length, NoDup_Permutation; [done| |].
    { apply NoDup_fmap_2_strong; [|done].
      rewrite Forall_forall in Hrange.
      intros x y Hx%Hrange Hy%Hrange. lia. }
    intros c. rewrite Hel. unfold M.
    rewrite (covers_cover gw bw sudoku Hwf), list_elem_of_fmap.
    rewrite Forall_forall in Hrange. split.
    - intros (p' & Hp' & Hin). rewrite Hp in Hp'. injection Hp' as <-.
      exists (Z.of_nat c). split; [lia|done].
    - intros (j & -> & Hj). exists (r0, c0, n). split; [done|].
      specialize (Hrange j Hj). by rewrite Z2Nat.id by lia. }
  exists (λ t, filter (covers M t) (seq 0 (4 * gw * gw))).
  assert (∀ t c, c ∈ filter (covers M t) (seq 0 (4 * gw * gw))
                 ↔ covers M t c) as Hel.
  { intros t c. rewrite list_elem_of_filter, elem_of_seq.
    split; [tauto|]. intros Hc. split; [done|]. apply Hlt in Hc. lia. }
  split.
  - intros t Ht. destruct (Hcols t Ht) as (cs & Hnd & Hlen & Hcs). cbv beta.
    transitivity (length cs); [|done].
    apply Permutation_length, NoDup_Permutation;
      [apply NoDup_filter, NoDup_seq|done|].
    intros c. by rewrite Hel, Hcs.
  - apply NoDup_Permutation; [|apply NoDup_seq|].
    + apply NoDup_bind; [| |done].
      * intros t1 t2 c Ht1 Ht2 Hc1%Hel Hc2%Hel.
        apply (filter_one_unique _ T t1 t2 (Hex c (Hlt _ _ Hc1))); done.
      * intros t _. apply NoDup_filter, NoDup_seq.
    + intros c. rewrite list_elem_of_bind, elem_of_seq. split.
      * intros (t & Hc%Hel & _). apply Hlt in Hc. lia.
      * intros [_ Hc]. simpl in Hc.
        destruct (filter_one_split _ T (Hex c Hc))
          as (l1 & t & l2 & -> & Ht & _).
        exists t. split; [by apply Hel|]. apply elem_of_app. right. left.
Qed.

Lemma action_of_step_of P e :
  action_of (step_of P e)
  = if decide (e.1 = 1) then "ins"%string else "rem"%string.
Proof.
  unfold action_of, step_of. by destruct (poss_at P e.2) as [[r c] n].
Qed.

(** X6: the log returned with a completed grid holds insertions and
    removals only, [gw * gw] more insertions than removals, one for every
    cell; and the search that produced it nested [gw * gw + 1] deep. *)
Theorem log_net_insertions_one_per_cell {Tm : Type} (t t' : Tm) (fuel : nat)
    (gw bw : nat) (sudoku completed : matrix) (path : list step) :
  wf_sudoku gw bw sudoku →
  solve_sudoku t fuel sudoku (Z.of_nat gw) (Z.of_nat bw)
  = Ret (Some completed, t', Some path) →
  Forall (λ s, action_of s = "ins"%string ∨ action_of s = "rem"%string) path
  ∧ length (filter (λ s, action_of s = "ins"%string) path)
    = (length (filter (λ s, action_of s = "rem"%string) path) + gw * gw)%nat
  ∧ (gw * gw < fuel)%nat.
Proof.
  intros Hwf Hsolve. unfold solve_sudoku in Hsolve.
  rewrite (create_cover_spec gw bw sudoku Hwf) in Hsolve.
  cbn [mbind outcome_bind] in Hsolve.
  destruct (solve fuel _ _ _ _ _ _) as [[[res sol] Qp]| |] eqn:Hs;
    cbn [mbind outcome_bind] in Hsolve; [|done..].
  destruct res; cbn [truthy] in Hsolve; [|done..].
  pose proof (top_solve_Ret gw bw sudoku Hwf fuel _ _ _ Hs) as Hrun.
  destruct (log_replay_unwind gw bw sudoku Hwf sol Qp Hrun)
    as (fin & Hfin & _).
  rewrite Hfin in Hsolve. cbn [mbind outcome_bind] in Hsolve.
  rewrite build_solving_path_spec in Hsolve by by eapply log_rows.
  cbn [mbind outcome_bind] in Hsolve. injection Hsolve as _ _ <-.
  destruct (top_exact_cover gw bw sudoku Hwf sol Qp Hrun) as [HT Hex].
  assert (length sol = (gw * gw)%nat) as Hlen.
  { apply (exact_cover_cells gw bw sudoku sol Hwf). split.
    - intros s Hs'. rewrite Forall_forall in HT. apply elem_of_seq.
      rewrite (cover_shape0 gw bw sudoku). specialize (HT s Hs'). lia.
    - intros c Hc%elem_of_seq. apply Hex.
      rewrite (cover_shape1 gw bw sudoku Hwf) in Hc. lia. }
  split_and!.
  - apply Forall_fmap, Forall_forall. intros e _. simpl.
    rewrite action_of_step_of. destruct (decide _); auto.
  - rewrite !length_filter_fmap.
    rewrite (length_filter_ext_in _ (λ e : Z * nat, e.1 = 1)).
    2:{ intros e _. rewrite action_of_step_of. by destruct (decide _). }
    rewrite (length_filter_ext_in (λ e, action_of _ = "rem"%string)
               (λ e : Z * nat, e.1 ≠ 1)).
    2:{ intros e _. rewrite action_of_step_of. by destruct (decide _). }
    rewrite <-Hlen. apply (run_net _ _ _ _ _ _ _ Hrun).
  - rewrite <-Hlen.
    apply (run_depth_lower _ Entry _ _ _ _ _ Hrun) with (s := []) (p := [])
      (x := (PyTrue, sol, Qp));
      [by eapply cover_rect|by eapply cover_rows_ok|by eapply cover_cols_ok
      |done].
Qed.

Lemma log_net_insertions_one_per_cell_witness :
  Forall (λ s, action_of s = "ins"%string ∨ action_of s = "rem"%string)
    [("ins"%string, 0%nat, 0%nat, 1%Z)]
  ∧ length (filter (λ s, action_of s = "ins"%string)
              [("ins"%string, 0%nat, 0%nat, 1%Z)])
    = (length (filter (λ s, action_of s = "rem"%string)
                 [("ins"%string, 0%nat, 0%nat, 1%Z)]) + 1 * 1)%nat
  ∧ (1 * 1 < 5)%nat.
Proof.
  apply (log_net_insertions_one_per_cell tt tt 5 1 1 [[0]] [[1]]).
  - compute_done.
  - vm_compute. reflexivity.
Defined.


(** ** A block width of zero *)

Lemma setitem2_lookup cover i row j v :
  cover !! i = Some row → 0 ≤ j < Z.of_nat (length row) →
  setitem2 cover i j v = Ret (<[i := <[Z.to_nat j := v]> row]> cover).
Proof.
  intros Hi Hj. unfold setitem2.
  rewrite (proj2 (getitem_Ret _ _ row)) by done.
  cbn [mbind outcome_bind]. unfold norm_index.
  by destruct (decide (0 ≤ j < Z.of_nat (length row))).
Qed.

(** The three writes before the block index succeed, the division for the
    block index raises. *)
Lemma add_possibility_zero_bw gw p cover i row :
  valid_possibility gw p → cover !! i = Some row →
  length row = Z.to_nat (4 * Z.of_nat gw * Z.of_nat gw) →
  add_possibility p cover i (Z.of_nat gw) 0 = Raise ZeroDivisionError.
Proof.
  destruct p as [[r c] n]. intros (Hr & Hc & Hn) Hi Hlen.
  unfold add_possibility.
  assert (i < length cover)%nat as Hlt by by eapply lookup_lt_Some.
  set (g := Z.of_nat gw) in *.
  set (j1 := Z.of_nat r * g + Z.of_nat c).
  set (j2 := g * g + Z.of_nat r * g + n - 1).
  set (j3 := 2 * g * g + Z.of_nat c * g + n - 1).
  assert (0 ≤ j1 < Z.of_nat (length row)) by (unfold j1, g in *; nia).
  assert (0 ≤ j2 < Z.of_nat (length row)) by (unfold j2, g in *; nia).
  assert (0 ≤ j3 < Z.of_nat (length row)) by (unfold j3, g in *; nia).
  rewrite (setitem2_lookup cover i row j1) by done.
  cbn [mbind outcome_bind].
  rewrite (setitem2_lookup _ i (<[Z.to_nat j1 := 1]> row) j2).
  2:{ by apply list_lookup_insert_eq. }
  2:{ by rewrite length_insert. }
  cbn [mbind outcome_bind].
  rewrite (setitem2_lookup _ i
             (<[Z.to_nat j2 := 1]> (<[Z.to_nat j1 := 1]> row)) j3).
  2:{ apply list_lookup_insert_eq. by rewrite length_insert. }
  2:{ by rewrite !length_insert. }
  cbn [mbind outcome_bind]. unfold floordiv.
  by destruct (decide (0 = 0)).
Qed.

Lemma spec_possibilities_nonempty gw sudoku :
  (0 < gw)%nat → spec_possibilities gw sudoku ≠ [].
Proof.
  intros Hg E.
  assert ((0%nat, 0%nat, if decide (entry sudoku 0 0 ≠ 0)
                         then entry sudoku 0 0 else 1)
          ∈ spec_possibilities gw sudoku) as Hin.
  { apply elem_of_spec_possibilities. split_and!; [lia|lia|].
    destruct (decide _) as [|Hz]; [by left|right].
    split; [|lia]. destruct (decide (entry sudoku 0 0 = 0)); tauto. }
  rewrite E in Hin. by apply elem_of_nil in Hin.
Qed.

(** X7: with a block width of 0, [solve_sudoku] raises
    [ZeroDivisionError] on every well-formed puzzle that has a cell: the
    first possibility added to the cover matrix divides by the block
    width. *)
Theorem zero_block_width_raises {Tm : Type} (t : Tm) (fuel : nat)
    (gw bw : nat) (sudoku : matrix) :
  wf_sudoku gw bw sudoku → (0 < gw)%nat →
  create_cover sudoku (Z.of_nat gw) 0 = Raise ZeroDivisionError
  ∧ solve_sudoku t fuel sudoku (Z.of_nat gw) 0 = Raise ZeroDivisionError.
Proof.
  intros Hwf Hg.
  enough (create_cover sudoku (Z.of_nat gw) 0 = Raise ZeroDivisionError) as E.
  { split; [done|]. unfold solve_sudoku. by rewrite E. }
  unfold create_cover.
  destruct (wf_sudoku_rect gw bw sudoku Hwf) as (_ & -> & _).
  rewrite <-(length_spec_possibilities gw bw sudoku Hwf).
  pose proof (spec_possibilities_nonempty gw sudoku Hg) as Hne.
  set (P := spec_possibilities gw sudoku) in *.
  unfold np_zeros. destruct (decide _) as [[?|?]|_]; [lia|nia|].
  cbn [mbind outcome_bind]. rewrite Nat2Z.id.
  set (cover := replicate (length P) _).
  assert (cover !! 0%nat
          = Some (replicate (Z.to_nat (4 * Z.of_nat gw * Z.of_nat gw)) 0))
    as Hrow.
  { apply lookup_replicate_2. destruct P; [done|simpl; lia]. }
  enough (create_cover_cell sudoku (Z.of_nat gw) 0 0 (cover, []) 0
          = Raise ZeroDivisionError) as Hcell.
  { destruct gw as [|n]; [lia|]. cbn [seq foldM]. by rewrite Hcell. }
  unfold create_cover_cell.
  rewrite (wf_sudoku_getitem2 gw bw sudoku 0 0 Hwf) by done.
  cbn [mbind outcome_bind].
  pose proof (wf_sudoku_entry gw bw sudoku 0 0 Hwf) as Hv.
  destruct (decide (entry sudoku 0 0 ≠ 0)) as [Hnz|_].
  - erewrite (add_possibility_zero_bw gw _ cover 0); [done| |exact Hrow|].
    + split_and!; [done|done|lia|lia].
    + by rewrite length_replicate.
  - rewrite range_seqZ, seqZ_cons by lia. cbn [foldM length].
    erewrite (add_possibility_zero_bw gw _ cover 0); [done| |exact Hrow|].
    + split_and!; [done|done|lia|lia].
    + by rewrite length_replicate.
Qed.

Lemma zero_block_width_raises_witness :
  create_cover g4 (Z.of_nat 4) 0 = Raise ZeroDivisionError
  ∧ solve_sudoku tt 0 g4 (Z.of_nat 4) 0 = Raise ZeroDivisionError.
Proof.
  apply (zero_block_width_raises tt 0 4 2 g4); [compute_done|lia].
Defined.

(** ** Edge cases of [select] *)

(** X8: [select] removes no column exactly when the row has no 1 in an
    active column, and then it removes no row either: the active sets
    stay as they are. *)
Theorem select_removes_nothing_without_ones (m : matrix) (row : nat)
    (active_rows active_cols : list nat) :
  rect m → (row < shape0 m)%nat →
  rows_ok m active_rows → cols_ok m active_cols →
  active_rows ≠ [] → active_cols ≠ [] →
  ∃ rows_to_remove cols_to_remove,
    select row m active_rows active_cols
    = Ret (rows_to_remove, cols_to_remove)
    ∧ (cols_to_remove = []
       ↔ Forall (λ c, entry m row c = 0) active_cols)
    ∧ (cols_to_remove = [] → rows_to_remove = [])
    ∧ (cols_to_remove = [] →
       (∀ r, r ∈ setdiff1d active_rows rows_to_remove ↔ r ∈ active_rows)
       ∧ ∀ c, c ∈ setdiff1d active_cols cols_to_remove ↔ c ∈ active_cols).
Proof.
  intros Hm Hrow Hr Hc Hner Hnec.
  exists (rows_hit m active_rows (cols_of m row active_cols)),
    (cols_of m row active_cols).
  split_and!; [by apply select_spec| | |].
  - unfold cols_of. split.
    + intros E. apply Forall_forall. intros c Hin.
      destruct (decide (entry m row c = 0)) as [|Hnz]; [done|].
      assert (c ∈ filter (covers m row) active_cols) as Hf
        by by apply list_elem_of_filter.
      rewrite E in Hf. by apply elem_of_nil in Hf.
    + intros Hz. rewrite Forall_forall in Hz.
      destruct (filter (covers m row) active_cols) as [|c l] eqn:E; [done|].
      assert (c ∈ filter (covers m row) active_cols) as Hf
        by (rewrite E; left).
      apply list_elem_of_filter in Hf as [Hcov Hin].
      destruct Hcov. by apply Hz.
  - intros ->. unfold rows_hit.
    induction active_rows as [|r l IH]; [done|].
    rewrite filter_cons. destruct (decide _) as [He|_].
    + by apply Exists_nil in He.
    + destruct l; [done|]. apply IH; [by apply Forall_cons in Hr as [_ ?]|done].
  - intros ->. unfold rows_hit. split.
    + intros r. rewrite elem_of_setdiff1d, list_elem_of_filter.
      split; [tauto|]. intros Hin. split; [done|].
      intros [He _]. by apply Exists_nil in He.
    + intros c. rewrite elem_of_setdiff1d. split; [tauto|].
      intros Hin. split; [done|]. apply not_elem_of_nil.
Qed.

Lemma select_removes_nothing_without_ones_witness :
  ∃ rows_to_remove cols_to_remove,
    select 1%nat m3 [0;1;2]%nat [0;2]%nat = Ret (rows_to_remove, cols_to_remove)
    ∧ (cols_to_remove = []
       ↔ Forall (λ c, entry m3 1%nat c = 0) [0;2]%nat)
    ∧ (cols_to_remove = [] → rows_to_remove = [])
    ∧ (cols_to_remove = [] →
       (∀ r, r ∈ setdiff1d [0;1;2]%nat rows_to_remove ↔ r ∈ [0;1;2]%nat)
       ∧ ∀ c, c ∈ setdiff1d [0;2]%nat cols_to_remove ↔ c ∈ [0;2]%nat).
Proof.
  apply (select_removes_nothing_without_ones m3 1%nat [0;1;2]%nat [0;2]%nat);
    compute_done.
Defined.

(** ** [build_solving_path] and [build_final_sudoku] on any input *)

Lemma build_solving_path_from P (acc : list step) Q :
  foldM (λ sudoku_solution_path '(action, cover_row),
           '(row, col, n) ← getitem P cover_row;
           if decide (action = 1) then
             Ret (sudoku_solution_path ++ [("ins"%string, row, col, n)])
           else
             Ret (sudoku_solution_path ++ [("rem"%string, row, col, n)]))
        acc Q
  = if decide (Forall (λ e : Z * nat, (e.2 < length P)%nat) Q)
    then Ret (acc ++ (step_of P <$> Q)) else Raise IndexError.
Proof.
  revert acc. induction Q as [|[a s] Q IH]; intros acc.
  - cbn [foldM]. rewrite decide_True by constructor.
    by rewrite fmap_nil, app_nil_r.
  - cbn [foldM]. destruct (P !! s) as [[[r c] n]|] eqn:Hs.
    + rewrite (proj2 (getitem_Ret P s (r, c, n)) Hs).
      cbn [mbind outcome_bind].
      assert (s < length P)%nat as Hlt by by eapply lookup_lt_Some.
      assert (step_of P (a, s)
              = (if decide (a = 1) then "ins"%string else "rem"%string, r, c, n))
        as Hstep.
      { unfold step_of, poss_at. cbn [fst snd]. by rewrite Hs. }
      destruct (decide (a = 1)) as [Ha|Ha]; cbn [mbind outcome_bind];
        rewrite IH;
        (destruct (decide (Forall _ Q)) as [HQ|HQ];
         [rewrite decide_True by (by constructor);
          by rewrite fmap_cons, Hstep, <-app_assoc
         |rewrite decide_False; [done|];
          by intros [_ ?]%Forall_cons]).
    + assert (getitem P s = Raise IndexError) as ->
        by (unfold getitem; by rewrite Hs).
      cbn [mbind outcome_bind]. rewrite decide_False; [done|].
      intros [Hlt _]%Forall_cons. simpl in Hlt.
      apply lookup_ge_None in Hs. lia.
Qed.

(** X9: [build_solving_path] translates the events one by one, a 1 into
    an insertion and anything else into a removal of the possibility of
    the event's row, when every event names a row of the cover matrix; it
    raises [IndexError] otherwise. *)
Theorem build_solving_path_in_range_or_IndexError
    (possibilities : list possibility) (solution_path : list (Z * nat)) :
  (Forall (λ e : Z * nat, (e.2 < length possibilities)%nat) solution_path →
   ∃ path,
     build_solving_path possibilities solution_path = Ret path
     ∧ length path = length solution_path
     ∧ ∀ i action cover_row,
         solution_path !! i = Some (action, cover_row) →
         ∃ row col n,
           possibilities !! cover_row = Some (row, col, n)
           ∧ path !! i
             = Some (if decide (action = 1) then "ins"%string
                     else "rem"%string, row, col, n))
  ∧ (¬ Forall (λ e : Z * nat, (e.2 < length possibilities)%nat)
         solution_path →
     build_solving_path possibilities solution_path = Raise IndexError).
Proof.
  unfold build_solving_path. rewrite build_solving_path_from. split.
  - intros HQ. rewrite decide_True by done.
    exists (step_of possibilities <$> solution_path).
    split_and!; [done|by rewrite length_fmap|].
    intros i a s Hi. rewrite Forall_lookup in HQ.
    pose proof (HQ _ _ Hi) as Hlt. simpl in Hlt.
    destruct (lookup_lt_is_Some_2 possibilities s Hlt) as [[[r c] n] Hs].
    exists r, c, n. split; [done|].
    rewrite list_lookup_fmap, Hi. simpl.
    unfold step_of, poss_at. cbn [fst snd]. by rewrite Hs.
  - intros HQ. by rewrite decide_False.
Qed.




(** ** What [print_sudoku] writes *)

Lemma string_app_cons x (a b : string) :
  String x a +:+ b = String x (a +:+ b).
Proof. reflexivity. Qed.

Lemma string_app_assoc (a b c : string) : (a +:+ b) +:+ c = a +:+ b +:+ c.
Proof.
  induction a as [|x a IH]; [done|]. rewrite !string_app_cons. by f_equal.
Qed.

Lemma string_app_nil_r (a : string) : a +:+ "" = a.
Proof.
  induction a as [|x a IH]; [done|]. rewrite string_app_cons. by f_equal.
Qed.

Lemma string_length_app (a b : string) :
  String.length (a +:+ b) = (String.length a + String.length b)%nat.
Proof.
  induction a as [|x a IH]; [done|]. rewrite string_app_cons. simpl.
  by rewrite IH.
Qed.

Lemma concat_nosep_cons (x : string) (l : list string) :
  String.concat "" (x :: l) = x +:+ String.concat "" l.
Proof. destruct l; simpl; [by rewrite string_app_nil_r|done]. Qed.

Lemma concat_nosep_app (l k : list string) :
  String.concat "" (l ++ k) = String.concat "" l +:+ String.concat "" k.
Proof.
  induction l as [|x l IH]; [done|].
  rewrite <-app_comm_cons, !concat_nosep_cons, IH.
  by rewrite string_app_assoc.
Qed.

Lemma print_cells (s : matrix) i (pre rest : list Z) (out : string) :
  s !! i = Some (pre ++ rest) →
  foldM (λ out j,
           n ← getitem2 s i j;
           if decide (n = 0) then Ret (out +:+ "__" +:+ " ")
           else if decide (n < 10) then
             Ret (out +:+ (" " +:+ pretty n) +:+ " ")
           else Ret (out +:+ pretty n +:+ " "))
        out (seq (length pre) (length rest))
  = Ret (out +:+ row_text rest).
Proof.
  revert pre out. induction rest as [|n rest IH]; intros pre out Hi.
  - simpl. by rewrite string_app_nil_r.
  - cbn [length seq foldM].
    assert (getitem2 s i (length pre) = Ret n) as ->.
    { unfold getitem2. rewrite (proj2 (getitem_Ret _ _ _) Hi).
      cbn [mbind outcome_bind]. apply getitem_Ret.
      by rewrite lookup_app_r, Nat.sub_diag by lia. }
    cbn [mbind outcome_bind].
    assert ((if decide (n = 0) then Ret (out +:+ "__" +:+ " ")
             else if decide (n < 10) then
               Ret (out +:+ (" " +:+ pretty n) +:+ " ")
             else Ret (out +:+ pretty n +:+ " "))
            = Ret (out +:+ cell_text n)) as ->.
    { unfold cell_text. by repeat destruct (decide _). }
    cbn [mbind outcome_bind].
    replace (S (length pre)) with (length (pre ++ [n]))
      by (rewrite length_app; simpl; lia).
    rewrite (IH (pre ++ [n])) by by rewrite <-app_assoc.
    unfold row_text. by rewrite fmap_cons, concat_nosep_cons, string_app_assoc.
Qed.

Lemma print_row (s : matrix) i (row : list Z) (out : string) :
  rect s → s !! i = Some row →
  foldM (λ out j,
           n ← getitem2 s i j;
           if decide (n = 0) then Ret (out +:+ "__" +:+ " ")
           else if decide (n < 10) then
             Ret (out +:+ (" " +:+ pretty n) +:+ " ")
           else Ret (out +:+ pretty n +:+ " "))
        out (seq 0 (shape1 s))
  = Ret (out +:+ row_text row).
Proof.
  intros Hm Hrow. rewrite <-(rect_lookup s _ row Hm Hrow).
  apply (print_cells s i [] row out Hrow).
Qed.

Lemma print_rows (s : matrix) (pre rest : list (list Z)) (out : string) :
  rect s → s = pre ++ rest →
  foldM (λ out i,
           out ← foldM (λ out j,
                    n ← getitem2 s i j;
                    if decide (n = 0) then Ret (out +:+ "__" +:+ " ")
                    else if decide (n < 10) then
                      Ret (out +:+ (" " +:+ pretty n) +:+ " ")
                    else Ret (out +:+ pretty n +:+ " "))
                  out (seq 0 (shape1 s));
           Ret (out +:+ newline))
        out (seq (length pre) (length rest))
  = Ret (out +:+ String.concat "" ((λ row, row_text row +:+ newline) <$> rest)).
Proof.
  intros Hm. revert pre out.
  induction rest as [|row rest IH]; intros pre out Hs.
  - simpl. by rewrite string_app_nil_r.
  - cbn [length seq foldM].
    assert (s !! length pre = Some row) as Hrow.
    { rewrite Hs. by rewrite lookup_app_r, Nat.sub_diag by lia. }
    rewrite (print_row s (length pre) row out Hm Hrow).
    cbn [mbind outcome_bind].
    replace (S (length pre)) with (length (pre ++ [row]))
      by (rewrite length_app; simpl; lia).
    rewrite (IH (pre ++ [row])) by by rewrite <-app_assoc.
    by rewrite fmap_cons, concat_nosep_cons, !string_app_assoc.
Qed.

Lemma cell_text_width n : 0 ≤ n < 100 → String.length (cell_text n) = 3%nat.
Proof.
  intros Hn.
  assert (Forall (λ n, String.length (cell_text n) = 3%nat) (seqZ 0 100)) as H
    by (vm_compute; repeat constructor).
  rewrite Forall_forall in H. apply H, elem_of_seqZ. lia.
Qed.

Lemma row_text_width row :
  Forall (λ n, 0 ≤ n < 100) row →
  String.length (row_text row) = (3 * length row)%nat.
Proof.
  unfold row_text. induction 1 as [|n row Hn _ IH]; [done|].
  rewrite fmap_cons, concat_nosep_cons, string_length_app, IH.
  rewrite cell_text_width by done. simpl. lia.
Qed.

Lemma pretty_N_go_suffix x s :
  (0 < x)%N → ∃ pre d, pretty_N_go x s = pre +:+ String (pretty_N_char d) s.
Proof.
  revert s. induction (N.lt_wf_0 x) as [x _ IH]; intros s Hx.
  rewrite pretty_N_go_step by done.
  destruct (decide (0 < x `div` 10)%N) as [Hd|Hd].
  - destruct (IH (x `div` 10)%N (N.div_lt x 10 Hx eq_refl)
                (String (pretty_N_char (x `mod` 10)) s) Hd) as (pre & d & ->).
    exists (pre +:+ String (pretty_N_char d) ""), (x `mod` 10)%N.
    by rewrite string_app_assoc.
  - assert (x `div` 10 = 0)%N as -> by by apply N.le_0_r, N.nlt_ge.
    rewrite pretty_N_go_0.
    by exists ""%string, (x `mod` 10)%N.
Qed.

(** A positive number is not written as two underscores. *)
Lemma pretty_pos_not_blank p : pretty (Z.pos p) ≠ "__"%string.
Proof.
  unfold pretty, pretty_Z, pretty, pretty_positive, pretty, pretty_N.
  destruct (decide (N.pos p = 0%N)) as [|_]; [done|].
  destruct (pretty_N_go_suffix (N.pos p) "") as (pre & d & ->); [lia|].
  destruct pre as [|a [|b [|c pre]]]; rewrite ?string_app_cons; try done.
  change ("" +:+ String (pretty_N_char d) "")
    with (String (pretty_N_char d) "").
  intros [= _ H]. revert H. unfold pretty_N_char. by repeat case_match.
Qed.

Lemma string_app_inj_r (x y z : string) : x +:+ z = y +:+ z → x = y.
Proof.
  intros H.
  assert (String.length x = String.length y) as Hlen.
  { apply (f_equal String.length) in H. rewrite !string_length_app in H. lia. }
  revert y H Hlen.
  induction x as [|a x IH]; intros [|b y]; rewrite ?string_app_cons;
    simpl; try done.
  intros [= -> H] [= Hlen]. f_equal. by apply IH.
Qed.

Lemma print_sudoku_text (s : matrix) :
  rect s →
  print_sudoku s
  = Ret (String.concat "" ((λ row, row_text row +:+ newline) <$> s)
         +:+ newline).
Proof.
  intros Hm. unfold print_sudoku, shape0.
  pose proof (print_rows s [] s "" Hm eq_refl) as Hrows.
  cbn [length] in Hrows. by rewrite Hrows.
Qed.

(** X11: on a rectangular grid [print_sudoku] writes one line per row and
    an empty line at the end, and never raises; a line holds the texts of
    the cells of its row, ["__ "] for an empty cell; when every cell holds
    a number from 0 to 99 each cell takes three characters, so that the
    columns line up. *)
Theorem print_sudoku_lines (s : matrix) :
  rect s →
  print_sudoku s
  = Ret (String.concat "" ((λ row, row_text row +:+ newline) <$> s)
         +:+ newline)
  ∧ (∀ n, cell_text n = "__ "%string ↔ n = 0)
  ∧ (Forall (Forall (λ n, 0 ≤ n < 100)) s →
     Forall (λ row, String.length (row_text row) = (3 * shape1 s)%nat) s).
Proof.
  intros Hm. split_and!.
  - by apply print_sudoku_text.
  - intros n. unfold cell_text. split.
    + destruct (decide (n = 0)); [done|].
      destruct (decide (n < 10)).
      * rewrite string_app_cons. intros [= H].
      * destruct n as [|p|p]; [done| |lia].
        intros H. destruct (pretty_pos_not_blank p).
        by apply (string_app_inj_r _ _ " ").
    + intros ->. done.
  - intros Hs. apply Forall_forall. intros row Hrow.
    destruct (list_elem_of_lookup_1 _ _ Hrow) as [i Hi].
    rewrite <-(rect_lookup s i row Hm Hi).
    apply row_text_width. rewrite Forall_forall in Hs. by apply Hs.
Qed.

Lemma print_sudoku_lines_witness :
  print_sudoku g22
  = Ret (String.concat "" ((λ row, row_text row +:+ newline) <$> g22)
         +:+ newline)
  ∧ (∀ n, cell_text n = "__ "%string ↔ n = 0)
  ∧ (Forall (Forall (λ n, 0 ≤ n < 100)) g22 →
     Forall (λ row, String.length (row_text row) = (3 * shape1 g22)%nat) g22).
Proof. apply (print_sudoku_lines g22). compute_done. Defined.

(** ** The loop of [main] on the command line *)





(** ** From the solver to the screen *)




(** ** The frame's lists after a failed candidate *)

Lemma deselect_Permutation (P : nat → Prop) `{∀ x, Decision (P x)}
    (l : list nat) :
  NoDup l → setdiff1d l (filter P l) ++ filter P l ≡ₚ l.
Proof.
  intros Hl. apply NoDup_Permutation; [|done|apply deselect_same].
  apply NoDup_app. split_and!.
  - apply setdiff1d_NoDup.
  - intros x [_ Hx]%elem_of_setdiff1d Hx'. apply Hx.
    by apply elem_of_np_unique.
  - by apply NoDup_filter.
Qed.

(** X14: when the active lists of a frame hold no index twice, the lists
    that [deselect] leaves after a failed candidate are permutations of the
    lists before the selection: they hold no index twice either and have
    the lengths they had, the kept indices in ascending order first and the
    removed ones after them. *)
Theorem failed_candidate_permutes_lists (m : matrix) (row : nat)
    (active_rows active_cols : list nat) :
  rect m → (row < shape0 m)%nat →
  rows_ok m active_rows → cols_ok m active_cols →
  active_rows ≠ [] → active_cols ≠ [] →
  NoDup active_rows → NoDup active_cols →
  ∃ rows_to_remove cols_to_remove,
    select row m active_rows active_cols
    = Ret (rows_to_remove, cols_to_remove)
    ∧ ∀ rows' cols',
        deselect rows_to_remove cols_to_remove
          (setdiff1d active_rows rows_to_remove)
          (setdiff1d active_cols cols_to_remove) = (rows', cols') →
        rows' ≡ₚ active_rows ∧ cols' ≡ₚ active_cols
        ∧ NoDup rows' ∧ NoDup cols'
        ∧ ascending (take (length rows' - length rows_to_remove) rows')
        ∧ drop (length rows' - length rows_to_remove) rows' = rows_to_remove.
Proof.
  intros Hm Hrow Hr Hc Hner Hnec Hndr Hndc.
  exists (rows_hit m active_rows (cols_of m row active_cols)),
    (cols_of m row active_cols).
  split; [by apply select_spec|].
  intros rows' cols' [= <- <-].
  pose proof (deselect_Permutation
                (λ r, Exists (covers m r) (cols_of m row active_cols))
                active_rows Hndr) as Hpr.
  pose proof (deselect_Permutation (covers m row) active_cols Hndc) as Hpc.
  fold (rows_hit m active_rows (cols_of m row active_cols)) in Hpr.
  fold (cols_of m row active_cols) in Hpc.
  split_and!; [done|done|by rewrite Hpr|by rewrite Hpc| |].
  - rewrite length_app, Nat.add_sub, take_app_length.
    apply StronglySorted_ascending, setdiff1d_sorted.
  - by rewrite length_app, Nat.add_sub, drop_app_length.
Qed.

Lemma failed_candidate_permutes_lists_witness :
  ∃ rows_to_remove cols_to_remove,
    select 0%nat m3 [2;0;1]%nat [0;1;2]%nat
    = Ret (rows_to_remove, cols_to_remove)
    ∧ ∀ rows' cols',
        deselect rows_to_remove cols_to_remove
          (setdiff1d [2;0;1]%nat rows_to_remove)
          (setdiff1d [0;1;2]%nat cols_to_remove) = (rows', cols') →
        rows' ≡ₚ [2;0;1]%nat ∧ cols' ≡ₚ [0;1;2]%nat
        ∧ NoDup rows' ∧ NoDup cols'
        ∧ ascending (take (length rows' - length rows_to_remove) rows')
        ∧ drop (length rows' - length rows_to_remove) rows' = rows_to_remove.
Proof.
  apply (failed_candidate_permutes_lists m3 0%nat [2;0;1]%nat [0;1;2]%nat);
    compute_done.
Defined.

(** ** Size of the cover matrix *)

(** X15: the cover matrix that [create_cover] builds for a well-formed
    puzzle has the number of rows computed for its allocation, one for
    every possibility, and four times [gw * gw] columns; every entry is 0 or
    1 and every row has exactly four 1s. *)
Theorem cover_matrix_shape (gw bw : nat) (sudoku : matrix) :
  wf_sudoku gw bw sudoku →
  ∃ cover possibilities,
    create_cover sudoku (Z.of_nat gw) (Z.of_nat bw)
    = Ret (cover, possibilities)
    ∧ Z.of_nat (shape0 cover)
      = (Z.of_nat gw * Z.of_nat gw - Z.of_nat (count_nonzero sudoku))
        * Z.of_nat gw + Z.of_nat (count_nonzero sudoku)
    ∧ length possibilities = shape0 cover
    ∧ Forall (λ row, length row = (4 * gw * gw)%nat
                     ∧ Forall (λ v, v = 0 ∨ v = 1) row
                     ∧ length (flatnonzero row) = 4%nat) cover.
Proof.
  intros Hwf. eexists _, _. split; [by apply create_cover_spec|].
  split_and!.
  - rewrite (cover_shape0 gw bw sudoku).
    by apply (length_spec_possibilities gw bw).
  - by rewrite (cover_shape0 gw bw sudoku).
  - apply Forall_lookup. intros i row Hi.
    pose proof Hi as Hi'.
    rewrite list_lookup_fmap in Hi'.
    destruct (spec_possibilities gw sudoku !! i) as [p|] eqn:Hp; [|done].
    injection Hi' as <-.
    assert (bw * bw = gw)%nat as Hbw by by destruct Hwf.
    pose proof (P_valid gw bw sudoku Hwf i p Hp) as Hv.
    destruct (spec_columns_range gw bw p Hbw Hv) as [Hnd Hrange].
    split_and!.
    + rewrite length_cover_row. lia.
    + unfold cover_row. apply Forall_fmap, Forall_forall. intros c _. simpl.
      destruct (decide _); auto.
    + destruct p as [[r0 c0] n].
      destruct (spec_columns_bounds gw bw r0 c0 n Hbw Hv)
        as (j1 & j2 & j3 & j4 & E & _). cbv zeta in E.
      transitivity (length (Z.to_nat <$> spec_columns (Z.of_nat gw)
                                           (Z.of_nat bw) (r0, c0, n))).
      2:{ by rewrite length_fmap, E. }
      apply Permutation_length, NoDup_Permutation.
      * apply StronglySorted_lt_NoDup, nonzero_from_sorted.
      * apply NoDup_fmap_2_strong; [|done].
        rewrite Forall_forall in Hrange.
        intros x y Hx%Hrange Hy%Hrange. lia.
      * intros c. unfold flatnonzero. rewrite elem_of_nonzero_from.
        rewrite list_elem_of_fmap. rewrite Forall_forall in Hrange. split.
        -- intros (j & v & Hj & Hnz & ->). simpl.
           assert (j < Z.to_nat (4 * Z.of_nat gw * Z.of_nat gw))%nat as Hlt.
           { apply lookup_lt_Some in Hj. by rewrite length_cover_row in Hj. }
           rewrite lookup_cover_row in Hj by done.
           destruct (decide _) as [Hin|]; [|by injection Hj as <-].
           exists (Z.of_nat j). split; [lia|done].
        -- intros (j & -> & Hj). specialize (Hrange j Hj).
           exists (Z.to_nat j), 1. split_and!; [|done|simpl; lia].
           rewrite lookup_cover_row by lia.
           rewrite Z2Nat.id by lia. by rewrite decide_True.
Qed.

Lemma cover_matrix_shape_witness :
  ∃ cover possibilities,
    create_cover g4 (Z.of_nat 4) (Z.of_nat 2) = Ret (cover, possibilities)
    ∧ Z.of_nat (shape0 cover)
      = (Z.of_nat 4 * Z.of_nat 4 - Z.of_nat (count_nonzero g4))
        * Z.of_nat 4 + Z.of_nat (count_nonzero g4)
    ∧ length possibilities = shape0 cover
    ∧ Forall (λ row, length row = (4 * 4 * 4)%nat
                     ∧ Forall (λ v, v = 0 ∨ v = 1) row
                     ∧ length (flatnonzero row) = 4%nat) cover.
Proof. apply (cover_matrix_shape 4 2 g4). compute_done. Defined.

(** ** The column heuristic on lists in any order *)

(** X16: whatever the order of the active columns, [min_col] returns the
    column with the least sum over the active rows that stands first in the
    list of active columns, together with that sum: among columns with the
    same count the position in the list decides, not the column number. *)
Theorem min_col_first_position_among_ties (m : matrix)
    (active_rows active_cols : list nat) :
  rect m → rows_ok m active_rows → cols_ok m active_cols →
  active_cols ≠ [] →
  ∃ i col count,
    min_col m active_rows active_cols = Ret (col, count)
    ∧ active_cols !! i = Some col
    ∧ count = col_count m active_rows col
    ∧ (∀ c, c ∈ active_cols → count ≤ col_count m active_rows c)
    ∧ ∀ j c, active_cols !! j = Some c →
             col_count m active_rows c = count → (i ≤ j)%nat.
Proof.
  intros Hm Hr Hc Hne.
  destruct (min_col_spec m active_rows active_cols Hm Hr Hc Hne)
    as (i & col & Hmin & Hi & Hle & Hfirst).
  exists i, col, (col_count m active_rows col). by split_and!.
Qed.

Lemma min_col_first_position_among_ties_witness :
  ∃ i col count,
    min_col m3 [0;1;2]%nat [1;0]%nat = Ret (col, count)
    ∧ [1;0]%nat !! i = Some col
    ∧ count = col_count m3 [0;1;2]%nat col
    ∧ (∀ c, c ∈ [1;0]%nat → count ≤ col_count m3 [0;1;2]%nat c)
    ∧ ∀ j c, [1;0]%nat !! j = Some c →
             col_count m3 [0;1;2]%nat c = count → (i ≤ j)%nat.
Proof.
  apply (min_col_first_position_among_ties m3 [0;1;2]%nat [1;0]%nat);
    compute_done.
Defined.

